(** * PersistentElementStore: a shallow embedding and its properties

    The development follows [core/src/index/PersistentElementStore.cpp]:
    a per-tile pair of append-only logs (index and data), a bitmap blob
    per tile, and a bounded cache of open tile handles.

    Streams are modelled by their position; file contents live in a file
    system indexed by path.  Reads that cannot be satisfied (the C++ code
    would then use uninitialised memory) are outside the model: the
    operation returns [None]. *)

From Stdlib Require Import ZArith List Lia Bool Ascii String.
From stdpp Require Import gmap strings list.

Open Scope Z_scope.

(** ** Bytes and fixed-width integers *)

Definition byte := Z.

Definition wrap (w : Z) (x : Z) : Z := x mod 2 ^ w.

(** [static_cast<std::uint32_t>] *)
Definition u32 (x : Z) : Z := wrap 32 x.
Definition u64 (x : Z) : Z := wrap 64 x.

(** The [n] low bytes of [x], least significant first: what
    [write(reinterpret_cast<const char *>(&x), n)] emits. *)
Fixpoint bytes_of (n : nat) (x : Z) : list byte :=
  match n with
  | O => []
  | S m => (x mod 256) :: bytes_of m (x / 256)
  end.

(** What [read(reinterpret_cast<char *>(&x), n)] leaves in [x]. *)
Fixpoint of_bytes (bs : list byte) : Z :=
  match bs with
  | [] => 0
  | b :: rest => b + 256 * of_bytes rest
  end.

(** [sizeof(std::uint64_t)], [sizeof(std::uint32_t)] and their sum, the
    width of one index entry. *)
Definition sizeof_id : nat := 8.
Definition sizeof_offset : nat := 4.
Definition entryWidth : Z := Z.of_nat sizeof_id + Z.of_nat sizeof_offset.

(** ** Tile keys and file paths *)

Record QuadKey := mkQuadKey { levelOfDetail : Z; tileX : Z; tileY : Z }.

#[global] Instance QuadKey_eq_dec : EqDecision QuadKey.
Proof. solve_decision. Defined.

#[global] Instance QuadKey_countable : Countable QuadKey.
Proof.
  refine (inj_countable'
            (fun q => (levelOfDetail q, tileX q, tileY q))
            (fun t => mkQuadKey t.1.1 t.1.2 t.2) _).
  by intros [].
Defined.

Inductive Extension := IndexFileExtension | DataFileExtension | bitmapFileExtension.

#[global] Instance Extension_eq_dec : EqDecision Extension.
Proof. solve_decision. Defined.

#[global] Instance Extension_countable : Countable Extension.
Proof.
  refine (inj_countable'
            (fun e => match e with
                      | IndexFileExtension => 0%nat
                      | DataFileExtension => 1%nat
                      | bitmapFileExtension => 2%nat
                      end)
            (fun n => match n with
                      | 0%nat => IndexFileExtension
                      | 1%nat => DataFileExtension
                      | _ => bitmapFileExtension
                      end) _).
  by intros [].
Defined.

(** A path [<dataPath_>/<levelOfDetail>/<quadKeyToString><extension>]: for a
    fixed storage root it is determined by the tile key and the
    extension. *)
Definition Path : Type := QuadKey * Extension.

Definition getFilePath (quadKey : QuadKey) (extension : Extension) : Path :=
  (quadKey, extension).

(** ** The file system *)

(** [files] maps a path to the bytes of the file stored there; [pinned]
    holds the paths that the operating system refuses to unlink. *)
Record FileSystem := mkFS {
  files : gmap Path (list byte);
  pinned : gset Path
}.

Definition contents (fsys : FileSystem) (p : Path) : list byte :=
  default [] (files fsys !! p).

Definition fileSize (fsys : FileSystem) (p : Path) : Z :=
  Z.of_nat (length (contents fsys p)).

(** Opening with [ios::in | ios::out | ios::app]: the file is created when
    absent and left as it is otherwise. *)
Definition touch (p : Path) (fsys : FileSystem) : FileSystem :=
  match files fsys !! p with
  | Some _ => fsys
  | None => mkFS (<[p := []]> (files fsys)) (pinned fsys)
  end.

(** A write through a stream opened with [ios::app] lands at the end. *)
Definition append (p : Path) (bs : list byte) (fsys : FileSystem) : FileSystem :=
  mkFS (<[p := contents fsys p ++ bs]> (files fsys)) (pinned fsys).

(** Opening with [ios::out | ios::trunc] and writing [bs]. *)
Definition overwrite (p : Path) (bs : list byte) (fsys : FileSystem) : FileSystem :=
  mkFS (<[p := bs]> (files fsys)) (pinned fsys).

(** [std::remove]: the result is [true] on failure, as the non-zero return
    value of the C function. *)
Definition remove (p : Path) (fsys : FileSystem) : bool * FileSystem :=
  match files fsys !! p with
  | None => (true, fsys)
  | Some _ =>
      if decide (p ∈ pinned fsys) then (true, fsys)
      else (false, mkFS (delete p (files fsys)) (pinned fsys))
  end.

(** [n] bytes at position [pos], when the file holds them. *)
Definition readAt (bs : list byte) (pos : Z) (n : nat) : option (list byte) :=
  if decide (0 <= pos /\ pos + Z.of_nat n <= Z.of_nat (length bs))
  then Some (take n (drop (Z.to_nat pos) bs))
  else None.

(** ** Elements, bitmaps and the external collaborators *)

Definition Term : Type := string.

(** [BitmapIndex::Bitmap]: one growable bit-vector per term, indexed by
    insertion order. *)
Abbreviation Bitmap := (gmap Term (list bool)).

(** The collaborators of the store that live outside this file: the
    payload codec ([ElementStream]), the bitmap codec ([BitmapStream]),
    term extraction, the geometric predicate
    ([ElementGeometryVisitor::intersects]), the splitting of a query string
    into terms, and the tiles that a bounding box covers over a range of
    levels of detail. *)
Class Collaborators := {
  Payload : Type;
  BoundingBox : Type;
  LodRange : Type;
  ElementStream_write : Payload -> list byte;
  ElementStream_read : list byte -> option (Payload * nat);
  BitmapStream_write : Bitmap -> list byte;
  BitmapStream_read : list byte -> Bitmap;
  termsOf : Payload -> list Term;
  geometry_intersects : Payload -> BoundingBox -> bool;
  tokenize : string -> list Term;
  visitTileRange : BoundingBox -> LodRange -> list QuadKey
}.

(** What the store relies on: both codecs read back what they wrote, a
    record is delimited by its own bytes, and an empty stream holds no
    bitmap. *)
Class CollaboratorsLaws (C : Collaborators) : Prop := {
  ElementStream_read_write : forall (p : Payload) (rest : list byte),
    ElementStream_read (ElementStream_write p ++ rest)
    = Some (p, length (ElementStream_write p));
  BitmapStream_read_write : forall b : Bitmap,
    BitmapStream_read (BitmapStream_write b) = b;
  BitmapStream_read_nil : BitmapStream_read [] = ∅
}.

(** ** Cached tile handles *)

(** [QuadKeyData]: the two open streams, each with the single position
    that a [std::fstream] keeps for reading and writing, and the lazily
    loaded bitmap ([bitmapData_->data]).  The three paths are those of the
    tile key under which the handle is cached. *)
Record QuadKeyData := mkQuadKeyData {
  dataFile : Z;
  indexFile : Z;
  bitmapData_ : Bitmap
}.

(** Modelled from the spec: [utils/LruCache.hpp] is not part of the
    sources.  A fixed-capacity least-recently-used cache: [get] marks the
    entry most recently used, [put] inserts at the front and evicts the
    least recently used entry when the cache is at capacity, [clear] drops
    every entry.  The list is kept most recently used first. *)
Module LruCache.

Record t := mk { maxSize_ : nat; itemsList_ : list (QuadKey * QuadKeyData) }.

Definition create (maxSize : nat) : t := mk maxSize [].

Definition without (key : QuadKey) (l : list (QuadKey * QuadKeyData)) :=
  List.filter (fun kv => negb (bool_decide (kv.1 = key))) l.

Definition peek (key : QuadKey) (c : t) : option QuadKeyData :=
  snd <$> List.find (fun kv => bool_decide (kv.1 = key)) (itemsList_ c).

Definition exists_ (key : QuadKey) (c : t) : bool :=
  bool_decide (is_Some (peek key c)).

(** Modelled from the spec: on a hit [get] marks the entry most recently
    used and returns it. *)
Definition get (key : QuadKey) (c : t) : option (QuadKeyData * t) :=
  match peek key c with
  | Some v => Some (v, mk (maxSize_ c) ((key, v) :: without key (itemsList_ c)))
  | None => None
  end.

(** Modelled from the spec: [put] inserts the entry as the most recently
    used one; at capacity the least recently used entry is evicted. *)
Definition put (key : QuadKey) (v : QuadKeyData) (c : t) : t :=
  let others := without key (itemsList_ c) in
  mk (maxSize_ c) (take (maxSize_ c) ((key, v) :: others)).

(** Modelled from the spec: [clear] evicts every entry. *)
Definition clear (c : t) : t := mk (maxSize_ c) [].

(** A write through the shared pointer that [get] returned: the entry
    changes where it is. *)
Definition update (key : QuadKey) (f : QuadKeyData -> QuadKeyData) (c : t) : t :=
  mk (maxSize_ c)
     (List.map (fun kv => if bool_decide (kv.1 = key) then (kv.1, f kv.2) else kv)
               (itemsList_ c)).

End LruCache.

(** ** The store *)

Inductive IoEvent :=
| BitmapRead (path : Path)      (* [BitmapStream::read] from the file at [path] *)
| CannotErase (path : Path)     (* a line of [logEraseError] on [std::cerr] *)
| IsCancelled.                  (* one call of [cancelToken.isCancelled()] *)

(** [PersistentElementStoreImpl]: the files below [dataPath_], the cache of
    handles, and the events observed so far, oldest first. *)
Record PersistentElementStoreImpl := mkStore {
  fs : FileSystem;
  cache_ : LruCache.t;
  io : list IoEvent
}.

Definition create : PersistentElementStoreImpl :=
  mkStore (mkFS ∅ ∅) (LruCache.create 12) [].

(** Computations on the store; [None] stands for a read that the files
    cannot satisfy. *)
Definition M (A : Type) : Type :=
  PersistentElementStoreImpl -> option (A * PersistentElementStoreImpl).

Definition ret {A} (a : A) : M A := fun s => Some (a, s).

Definition bind {A B} (m : M A) (k : A -> M B) : M B :=
  fun s => match m s with
           | Some (a, s') => k a s'
           | None => None
           end.

Definition fail {A} : M A := fun _ => None.

Definition gets {A} (f : PersistentElementStoreImpl -> A) : M A :=
  fun s => Some (f s, s).

Definition modify (f : PersistentElementStoreImpl -> PersistentElementStoreImpl) : M unit :=
  fun s => Some (tt, f s).

Definition lift {A} (o : option A) : M A :=
  fun s => match o with Some a => Some (a, s) | None => None end.

Notation "'let!' x ':=' m 'in' k" := (bind m (fun x => k))
  (at level 10, x pattern, m at level 100, k at level 200).
Notation "'do!' m 'in' k" := (bind m (fun _ => k))
  (at level 10, m at level 100, k at level 200).

Definition onFs (f : FileSystem -> FileSystem) : M unit :=
  modify (fun s => mkStore (f (fs s)) (cache_ s) (io s)).

Definition onCache (f : LruCache.t -> LruCache.t) : M unit :=
  modify (fun s => mkStore (fs s) (f (cache_ s)) (io s)).

Definition emit (e : IoEvent) : M unit :=
  modify (fun s => mkStore (fs s) (cache_ s) (io s ++ [e])).

(** The handle cached for [quadKey], as seen through a pointer to it. *)
Definition handle (quadKey : QuadKey) : M QuadKeyData :=
  fun s => lift (LruCache.peek quadKey (cache_ s)) s.

Definition onHandle (quadKey : QuadKey) (f : QuadKeyData -> QuadKeyData) : M unit :=
  onCache (LruCache.update quadKey f).

(** Modelled from the spec: [index/BitmapIndex.hpp] is not part of the
    sources.  [add] makes the bit-vector of every term of the element cover
    [order] and sets bit [order], and it leaves no bit-vector of the tile
    shorter than that; a query keeps the positions that are in some OR
    term (every position when there is none), in every AND term and in no
    NOT term, in ascending order. *)
Module BitmapIndex.

(** [bits], extended with unset bits as far as needed to hold bit
    [order]. *)
Definition cover (order : nat) (bits : list bool) : list bool :=
  bits ++ replicate (S order - length bits) false.

Definition setBit (order : nat) (bits : list bool) : list bool :=
  <[order := true]> (bits ++ replicate (S order - length bits) false).

Definition addTerm (order : nat) (b : Bitmap) (t : Term) : Bitmap :=
  <[t := setBit order (default [] (b !! t))]> b.

(** Modelled from the spec: [add], for every term attached to the element,
    makes the bit-vector of the term cover [order] and sets bit [order]
    (section 4.2).  The bit-vectors of the other terms of the tile are
    extended with unset bits to cover [order] as well, so that after a
    store no bit-vector is shorter than the entry count (the invariant of
    section 3); their bits stay as they are. *)
Definition add (terms : list Term) (order : nat) (b : Bitmap) : Bitmap :=
  cover order <$> foldl (addTerm order) b terms.

Definition bit (b : Bitmap) (t : Term) (i : nat) : bool :=
  default false (default [] (b !! t) !! i).

Definition width (b : Bitmap) : nat :=
  map_fold (fun _ bits n => Nat.max (length bits) n) 0%nat b.

Definition matches (b : Bitmap) (nots ands ors : list Term) (i : nat) : bool :=
  match ors with
  | [] => true
  | _ => existsb (fun t => bit b t i) ors
  end
  && forallb (fun t => bit b t i) ands
  && negb (existsb (fun t => bit b t i) nots).

(** Modelled from the spec: the ascending positions of the bits set in
    (OR of the OR terms) AND (AND of the AND terms) AND NOT (OR of the NOT
    terms), where no OR term means no restriction. *)
Definition query (b : Bitmap) (nots ands ors : list Term) : list nat :=
  List.filter (matches b nots ands ors) (seq 0 (width b)).

End BitmapIndex.

Section Store.

Context {C : Collaborators}.

Record Element := mkElement { id : Z; payload : Payload }.

(** [ElementGeometryVisitor::intersects] *)
Definition intersects (element : Element) (bbox : BoundingBox) : bool :=
  geometry_intersects (payload element) bbox.

(** A visitor is modelled by what it passes on to the caller for each
    element it accepts; the caller's own visitor records the element. *)
Definition ElementVisitor : Type := Element -> list Element.

Definition callerVisitor : ElementVisitor := fun element => [element].

(** The answer of [isCancelled()] at the k-th poll of one call. *)
Definition CancellationToken : Type := nat -> bool.

(** [BitmapIndex::Query] *)
Record Query := mkQuery {
  notTerms : string;
  andTerms : string;
  orTerms : string;
  boundingBox : BoundingBox;
  range : LodRange
}.

(** The constructor of [QuadKeyData]: both logs are opened with
    [ios::in | ios::out | ios::binary | ios::app | ios::ate]. *)
Definition QuadKeyData_open (quadKey : QuadKey) : M QuadKeyData :=
  do! onFs (touch (getFilePath quadKey DataFileExtension)) in
  do! onFs (touch (getFilePath quadKey IndexFileExtension)) in
  let! dataSize := gets (fun s => fileSize (fs s) (getFilePath quadKey DataFileExtension)) in
  let! indexSize := gets (fun s => fileSize (fs s) (getFilePath quadKey IndexFileExtension)) in
  ret (mkQuadKeyData dataSize indexSize ∅).

Definition getQuadKeyData (quadKey : QuadKey) : M QuadKeyData :=
  let! hit := gets (fun s => LruCache.exists_ quadKey (cache_ s)) in
  if (hit : bool) then
    let! r := (fun s => lift (LruCache.get quadKey (cache_ s)) s) in
    do! onCache (fun _ => r.2) in
    ret r.1
  else
    let! h := QuadKeyData_open quadKey in
    do! onCache (LruCache.put quadKey h) in
    let! r := (fun s => lift (LruCache.get quadKey (cache_ s)) s) in
    do! onCache (fun _ => r.2) in
    ret r.1.

(** A seek, a read or a write moves the position of a stream; loading the
    blob fills the bitmap. *)
Definition setDataFile (pos : Z) (h : QuadKeyData) : QuadKeyData :=
  mkQuadKeyData pos (indexFile h) (bitmapData_ h).

Definition setIndexFile (pos : Z) (h : QuadKeyData) : QuadKeyData :=
  mkQuadKeyData (dataFile h) pos (bitmapData_ h).

Definition setBitmapData (data : Bitmap) (h : QuadKeyData) : QuadKeyData :=
  mkQuadKeyData (dataFile h) (indexFile h) data.

(** [QuadKeyData::getBitmap]: the blob is read when the bitmap in memory
    is empty. *)
Definition QuadKeyData_getBitmap (quadKey : QuadKey) : M Bitmap :=
  let! h := handle quadKey in
  if decide (bitmapData_ h = ∅) then
    let path := getFilePath quadKey bitmapFileExtension in
    let! bytes := gets (fun s => contents (fs s) path) in
    do! emit (BitmapRead path) in
    let data := BitmapStream_read bytes in
    do! onHandle quadKey (setBitmapData data) in
    ret data
  else ret (bitmapData_ h).

(** [PersistentElementStoreImpl::getBitmap] *)
Definition getBitmap (quadKey : QuadKey) : M Bitmap :=
  do! getQuadKeyData quadKey in
  QuadKeyData_getBitmap quadKey.

(** *** Stream operations on the handle of a tile *)

(** [indexFile->seekg(0, std::ios::end)] and [dataFile->seekg(0, std::ios::end)] *)
Definition indexFile_seekEnd (quadKey : QuadKey) : M unit :=
  let! size := gets (fun s => fileSize (fs s) (getFilePath quadKey IndexFileExtension)) in
  onHandle quadKey (setIndexFile size).

Definition dataFile_seekEnd (quadKey : QuadKey) : M unit :=
  let! size := gets (fun s => fileSize (fs s) (getFilePath quadKey DataFileExtension)) in
  onHandle quadKey (setDataFile size).

(** [indexFile->write(bytes)]: appended, and the position follows. *)
Definition indexFile_write (quadKey : QuadKey) (bytes : list byte) : M unit :=
  do! onFs (append (getFilePath quadKey IndexFileExtension) bytes) in
  indexFile_seekEnd quadKey.

(** [ElementStream::write(dataFile, element)]: the identifier is not part
    of the record, [ElementStream::read] receives it from the index. *)
Definition dataFile_write (quadKey : QuadKey) (element : Element) : M unit :=
  do! onFs (append (getFilePath quadKey DataFileExtension)
                   (ElementStream_write (payload element))) in
  dataFile_seekEnd quadKey.

(** [readIndexEntry] *)
Definition readIndexEntry (quadKey : QuadKey) : M (Z * Z) :=
  let! h := handle quadKey in
  let! bytes := gets (fun s => contents (fs s) (getFilePath quadKey IndexFileExtension)) in
  let! idBytes := lift (readAt bytes (indexFile h) sizeof_id) in
  let! offsetBytes := lift (readAt bytes (indexFile h + Z.of_nat sizeof_id) sizeof_offset) in
  do! onHandle quadKey (setIndexFile (indexFile h + entryWidth)) in
  ret (of_bytes idBytes, of_bytes offsetBytes).

(** [ElementStream::read(dataFile, id)] at the current position. *)
Definition dataFile_read (quadKey : QuadKey) (id : Z) : M Element :=
  let! h := handle quadKey in
  let! bytes := gets (fun s => contents (fs s) (getFilePath quadKey DataFileExtension)) in
  if decide (0 <= dataFile h) then
    match ElementStream_read (drop (Z.to_nat (dataFile h)) bytes) with
    | Some (p, n) =>
        do! onHandle quadKey (setDataFile (dataFile h + Z.of_nat n)) in
        ret (mkElement id p)
    | None => fail
    end
  else fail.

(** *** The hooks that [BitmapIndex] calls back *)

(** [notify] *)
Definition notify (quadKey : QuadKey) (order : Z) (visitor : ElementVisitor)
  : M (list Element) :=
  do! getQuadKeyData quadKey in
  let offset := order * entryWidth in
  do! onHandle quadKey (setIndexFile offset) in
  let! entry := readIndexEntry quadKey in
  do! onHandle quadKey (setDataFile entry.2) in
  let! element := dataFile_read quadKey entry.1 in
  ret (visitor element).

(** Modelled from the spec: [BitmapIndex::add], which reaches the bitmap of
    the tile through the [getBitmap] hook and updates it in place. *)
Definition BitmapIndex_add (element : Element) (quadKey : QuadKey) (order : Z) : M unit :=
  do! getBitmap quadKey in
  onHandle quadKey
    (fun h => setBitmapData
                (BitmapIndex.add (termsOf (payload element)) (Z.to_nat order) (bitmapData_ h)) h).

Fixpoint notifyAll (quadKey : QuadKey) (orders : list nat) (visitor : ElementVisitor)
  : M (list Element) :=
  match orders with
  | [] => ret []
  | order :: rest =>
      let! out := notify quadKey (Z.of_nat order) visitor in
      let! outs := notifyAll quadKey rest visitor in
      ret (out ++ outs)
  end.

Definition BitmapIndex_searchTile (query : Query) (quadKey : QuadKey)
  (visitor : ElementVisitor) : M (list Element) :=
  let! b := getBitmap quadKey in
  notifyAll quadKey
    (BitmapIndex.query b (tokenize (notTerms query)) (tokenize (andTerms query))
                       (tokenize (orTerms query)))
    visitor.

Fixpoint BitmapIndex_searchTiles (query : Query) (quadKeys : list QuadKey)
  (visitor : ElementVisitor) : M (list Element) :=
  match quadKeys with
  | [] => ret []
  | quadKey :: rest =>
      let! out := BitmapIndex_searchTile query quadKey visitor in
      let! outs := BitmapIndex_searchTiles query rest visitor in
      ret (out ++ outs)
  end.

(** Modelled from the spec: [BitmapIndex::search], over the tiles of the
    query's bounding box and range.  The match callback is [notify]. *)
Definition BitmapIndex_search (query : Query) (visitor : ElementVisitor) : M (list Element) :=
  BitmapIndex_searchTiles query (visitTileRange (boundingBox query) (range query)) visitor.

(** Modelled from the spec: [index/ElementVisitorFilter.hpp], an adapter
    that forwards to the wrapped visitor the elements that satisfy the
    predicate. *)
Definition ElementVisitorFilter (visitor : ElementVisitor) (pred : Element -> bool)
  : ElementVisitor :=
  fun element => if pred element then visitor element else [].

(** *** The operations of [PersistentElementStoreImpl] *)

Definition store (element : Element) (quadKey : QuadKey) : M unit :=
  let! quadKeyData := getQuadKeyData quadKey in
  let offset := u32 (dataFile quadKeyData) in
  let fileSize := indexFile quadKeyData in
  let order := u32 (fileSize / entryWidth) in
  (* write element index *)
  do! indexFile_seekEnd quadKey in
  do! indexFile_write quadKey (bytes_of sizeof_id (id element)) in
  do! indexFile_write quadKey (bytes_of sizeof_offset offset) in
  (* write element data *)
  do! dataFile_seekEnd quadKey in
  do! dataFile_write quadKey element in
  (* write element search data *)
  do! BitmapIndex_add element quadKey order in
  let bitmapPath := getFilePath quadKey bitmapFileExtension in
  do! QuadKeyData_getBitmap quadKey in
  do! onFs (overwrite bitmapPath []) in
  let! data := QuadKeyData_getBitmap quadKey in
  onFs (overwrite bitmapPath (BitmapStream_write data)).

Definition search_query (query : Query) (visitor : ElementVisitor)
  (cancelToken : CancellationToken) : M (list Element) :=
  let filter := ElementVisitorFilter visitor
                  (fun element => intersects element (boundingBox query)) in
  BitmapIndex_search query filter.

(** The loop of [search(quadKey, ...)]: [i] is the loop counter and [n]
    the number of iterations left. *)
Fixpoint search_loop (quadKey : QuadKey) (visitor : ElementVisitor)
  (cancelToken : CancellationToken) (i : nat) (n : nat) : M (list Element) :=
  match n with
  | O => ret []
  | S n' =>
      do! emit IsCancelled in
      if cancelToken i then ret []
      else
        let! entry := readIndexEntry quadKey in
        do! onHandle quadKey (setDataFile entry.2) in
        let! element := dataFile_read quadKey entry.1 in
        let! rest := search_loop quadKey visitor cancelToken (S i) n' in
        ret (visitor element ++ rest)
  end.

Definition search_quadKey (quadKey : QuadKey) (visitor : ElementVisitor)
  (cancelToken : CancellationToken) : M (list Element) :=
  let! quadKeyData := getQuadKeyData quadKey in
  let count := u32 (indexFile quadKeyData / entryWidth) in
  do! onHandle quadKey (setIndexFile 0) in
  search_loop quadKey visitor cancelToken 0 (Z.to_nat count).

Definition hasData (quadKey : QuadKey) : M bool :=
  gets (fun s => bool_decide (is_Some (files (fs s) !! getFilePath quadKey DataFileExtension))).

(** [std::remove] on [path], with [logEraseError] when it fails. *)
Definition removeOrLog (path : Path) : M unit :=
  let! failed := (fun s => Some ((remove path (fs s)).1,
                                 mkStore (remove path (fs s)).2 (cache_ s) (io s))) in
  if (failed : bool) then emit (CannotErase path) else ret tt.

(** [QuadKeyData::erase]; [closeAll] leaves the files as they are. *)
Definition closeAll (quadKey : QuadKey) : M unit := ret tt.

Definition QuadKeyData_erase (quadKey : QuadKey) : M unit :=
  do! closeAll quadKey in
  do! removeOrLog (getFilePath quadKey DataFileExtension) in
  do! removeOrLog (getFilePath quadKey IndexFileExtension) in
  removeOrLog (getFilePath quadKey bitmapFileExtension).

Definition erase_quadKey (quadKey : QuadKey) : M unit :=
  do! getQuadKeyData quadKey in
  do! QuadKeyData_erase quadKey in
  onCache LruCache.clear.

(** [erase(bbox, range)] throws [std::domain_error]; the result carries
    the exception and the store as the throw leaves it. *)
Inductive exception := domain_error (what : string).

Definition erase_range (bbox : BoundingBox) (range : LodRange)
  : PersistentElementStoreImpl -> (exception + unit) * PersistentElementStoreImpl :=
  fun s =>
    (inl (domain_error "Deletion by bounding box and lod range is not implemented."), s).

Definition flush : M unit := onCache LruCache.clear.

(** *** The public interface, [PersistentElementStore] *)

Definition save (element : Element) (quadKey : QuadKey) : M unit :=
  store element quadKey.

Definition search (notTerms andTerms orTerms : string) (bbox : BoundingBox)
  (range : LodRange) (visitor : ElementVisitor) (cancelToken : CancellationToken)
  : M (list Element) :=
  search_query (mkQuery notTerms andTerms orTerms bbox range) visitor cancelToken.

End Store.

(** ** A concrete set of collaborators

    A small instance of the collaborators, used to run the store on
    concrete inputs.  A payload holds tags and a position on a line; a
    bounding box is an interval.  Records and blobs are sequences of
    bit-strings: a bit is the byte 1 or 2, the byte 0 ends a bit-string and
    the byte 4 ends the sequence. *)
Module Toy.

Record feature := mkFeature { tags : list string; position : nat }.

Definition bits_of_ascii (a : Ascii.ascii) : list bool :=
  match a with
  | Ascii.Ascii b0 b1 b2 b3 b4 b5 b6 b7 => [b0; b1; b2; b3; b4; b5; b6; b7]
  end.

Fixpoint bits_of_string (s : string) : list bool :=
  match s with
  | EmptyString => []
  | String a rest => bits_of_ascii a ++ bits_of_string rest
  end.

Fixpoint string_of_bits (bits : list bool) : string :=
  match bits with
  | b0 :: b1 :: b2 :: b3 :: b4 :: b5 :: b6 :: b7 :: rest =>
      String (Ascii.Ascii b0 b1 b2 b3 b4 b5 b6 b7) (string_of_bits rest)
  | _ => EmptyString
  end.

Definition byte_of_bit (b : bool) : byte := if b then 2 else 1.

Definition encodeItem (bits : list bool) : list byte :=
  List.map byte_of_bit bits ++ [0].

Definition encodeItems (items : list (list bool)) : list byte :=
  List.concat (List.map encodeItem items) ++ [4].

(** One pass over the bytes: [done] holds the finished bit-strings,
    [cur] the one being read and [n] the number of bytes consumed. *)
Fixpoint decodeItems (bytes : list byte) (done : list (list bool)) (cur : list bool)
  (n : nat) : option (list (list bool) * nat) :=
  match bytes with
  | [] => None
  | b :: rest =>
      if decide (b = 1) then decodeItems rest done (cur ++ [false]) (S n)
      else if decide (b = 2) then decodeItems rest done (cur ++ [true]) (S n)
      else if decide (b = 0) then decodeItems rest (done ++ [cur]) [] (S n)
      else if decide (b = 4) then Some (done, S n)
      else None
  end.

Definition writeElement (p : feature) : list byte :=
  encodeItems (replicate (position p) true :: List.map bits_of_string (tags p)).

Definition readElement (bytes : list byte) : option (feature * nat) :=
  match decodeItems bytes [] [] 0 with
  | Some (pos :: ts, n) => Some (mkFeature (List.map string_of_bits ts) (length pos), n)
  | _ => None
  end.

Fixpoint pairUp (items : list (list bool)) : list (Term * list bool) :=
  match items with
  | k :: v :: rest => (string_of_bits k, v) :: pairUp rest
  | _ => []
  end.

Definition unpair (kvs : list (Term * list bool)) : list (list bool) :=
  List.concat (List.map (fun kv => [bits_of_string kv.1; kv.2]) kvs).

Definition writeBitmap (b : Bitmap) : list byte :=
  encodeItems (unpair (map_to_list b)).

Definition readBitmap (bytes : list byte) : Bitmap :=
  match decodeItems bytes [] [] 0 with
  | Some (items, _) => list_to_map (pairUp items)
  | None => ∅
  end.

(** A bounding box is an interval of positions; one level of detail
    holds one row of tiles, each ten positions wide. *)
Definition bbox : Type := nat * nat.
Definition lods : Type := nat * nat.

Definition inside (p : feature) (box : bbox) : bool :=
  (box.1 <=? position p)%nat && (position p <=? box.2)%nat.

Fixpoint words (cur : string) (s : string) : list Term :=
  match s with
  | EmptyString => match cur with EmptyString => [] | _ => [cur] end
  | String a rest =>
      if Ascii.eqb a " "%char
      then match cur with EmptyString => words EmptyString rest
           | _ => cur :: words EmptyString rest end
      else words (cur +:+ String a EmptyString) rest
  end.

Definition tilesIn (box : bbox) (r : lods) : list QuadKey :=
  List.flat_map
    (fun lod => List.map (fun x => mkQuadKey (Z.of_nat lod) (Z.of_nat x) 0)
                         (seq (box.1 / 10) (S (box.2 / 10) - box.1 / 10)))
    (seq r.1 (S r.2 - r.1)).

#[export] Instance collaborators : Collaborators := {|
  Payload := feature;
  BoundingBox := bbox;
  LodRange := lods;
  ElementStream_write := writeElement;
  ElementStream_read := readElement;
  BitmapStream_write := writeBitmap;
  BitmapStream_read := readBitmap;
  termsOf := tags;
  geometry_intersects := inside;
  tokenize := words EmptyString;
  visitTileRange := tilesIn
|}.

End Toy.

(** ** Vocabulary of the specifications *)

(** [wp m s Q]: run from [s], the computation [m] returns, and its result
    and final store satisfy [Q]. *)
Definition wp {A} (m : M A) (s : PersistentElementStoreImpl)
  (Q : A -> PersistentElementStoreImpl -> Prop) : Prop :=
  match m s with
  | Some (a, s') => Q a s'
  | None => False
  end.

Section Logs.

Context {C : Collaborators}.

(** The type of [Element::id] is [std::uint64_t]. *)
Definition validId (element : Element) : Prop := 0 <= id element < 2 ^ 64.

Definition indexEntry (id offset : Z) : list byte :=
  bytes_of sizeof_id id ++ bytes_of sizeof_offset offset.

Definition record (element : Element) : list byte :=
  ElementStream_write (payload element).

(** The two logs of a tile into which [elements] were stored in that
    order, the first of them at offset [base] of the data log. *)
Fixpoint indexLog (base : Z) (elements : list Element) : list byte :=
  match elements with
  | [] => []
  | element :: rest =>
      indexEntry (id element) base
      ++ indexLog (base + Z.of_nat (length (record element))) rest
  end.

Definition dataLog (elements : list Element) : list byte :=
  List.concat (List.map record elements).

(** The files of [quadKey] hold exactly [elements]. *)
Definition holds (quadKey : QuadKey) (elements : list Element)
  (s : PersistentElementStoreImpl) : Prop :=
  contents (fs s) (getFilePath quadKey DataFileExtension) = dataLog elements
  /\ contents (fs s) (getFilePath quadKey IndexFileExtension) = indexLog 0 elements.

(** The streams of the handle cached for [quadKey], if there is one, stand
    at the end of their files: the state in which the constructor of
    [QuadKeyData] and every write leave them. *)
Definition atEnd (quadKey : QuadKey) (s : PersistentElementStoreImpl) : Prop :=
  forall h, LruCache.peek quadKey (cache_ s) = Some h ->
    dataFile h = fileSize (fs s) (getFilePath quadKey DataFileExtension)
    /\ indexFile h = fileSize (fs s) (getFilePath quadKey IndexFileExtension).

(** The number of entries that a scan of [n] entries visits: the polls
    that answer [false] before the first that answers [true]. *)
Fixpoint visited (cancelToken : CancellationToken) (i : nat) (n : nat) : nat :=
  match n with
  | O => O
  | S n' => if cancelToken i then O else S (visited cancelToken (S i) n')
  end.

Definition neverCancelled : CancellationToken := fun _ => false.

(** The output of a visitor run over the output of the recording one. *)
Definition through (visitor : ElementVisitor)
  (r : option (list Element * PersistentElementStoreImpl))
  : option (list Element * PersistentElementStoreImpl) :=
  match r with
  | Some (out, s') => Some (flat_map visitor out, s')
  | None => None
  end.

(** [saveAll] stores the elements one after the other. *)
Fixpoint saveAll (elements : list Element) (quadKey : QuadKey) : M unit :=
  match elements with
  | [] => ret tt
  | element :: rest => do! save element quadKey in saveAll rest quadKey
  end.

(** The logs of [quadKey] after the constructor of [QuadKeyData] ran. *)
Definition openLogs (quadKey : QuadKey) (fsys : FileSystem) : FileSystem :=
  touch (getFilePath quadKey IndexFileExtension)
        (touch (getFilePath quadKey DataFileExtension) fsys).

(** What [getQuadKeyData] establishes: the handle returned is the one
    cached for the key; it is the handle cached before, or on a miss a new
    one whose streams stand at the end of the logs, which now exist. *)
Record got (quadKey : QuadKey) (s : PersistentElementStoreImpl) (h : QuadKeyData)
  (s' : PersistentElementStoreImpl) : Prop := {
  got_peek : LruCache.peek quadKey (cache_ s') = Some h;
  got_io : io s' = io s;
  got_maxSize : LruCache.maxSize_ (cache_ s') = LruCache.maxSize_ (cache_ s);
  got_others : forall k h', k <> quadKey ->
    LruCache.peek k (cache_ s') = Some h' -> LruCache.peek k (cache_ s) = Some h';
  got_case :
    match LruCache.peek quadKey (cache_ s) with
    | Some h0 => h = h0 /\ fs s' = fs s
    | None =>
        fs s' = openLogs quadKey (fs s)
        /\ h = mkQuadKeyData
                 (fileSize (fs s) (getFilePath quadKey DataFileExtension))
                 (fileSize (fs s) (getFilePath quadKey IndexFileExtension)) ∅
    end
}.

End Logs.

Section Views.

Context {C : Collaborators}.

(** The positions that [getQuadKeyData] finds for the two streams of
    [quadKey]: those of the cached handle, or the ends of the logs when a
    new handle is opened. *)
Definition dataPos (quadKey : QuadKey) (s : PersistentElementStoreImpl) : Z :=
  match LruCache.peek quadKey (cache_ s) with
  | Some h => dataFile h
  | None => fileSize (fs s) (getFilePath quadKey DataFileExtension)
  end.

Definition indexPos (quadKey : QuadKey) (s : PersistentElementStoreImpl) : Z :=
  match LruCache.peek quadKey (cache_ s) with
  | Some h => indexFile h
  | None => fileSize (fs s) (getFilePath quadKey IndexFileExtension)
  end.

(** The bitmap that a handle holding [data] yields on access. *)
Definition accessed (quadKey : QuadKey) (data : Bitmap) (fsys : FileSystem) : Bitmap :=
  if decide (data = ∅)
  then BitmapStream_read (contents fsys (getFilePath quadKey bitmapFileExtension))
  else data.

(** The bitmap that [getBitmap] yields for [quadKey]. *)
Definition bitmapOf (quadKey : QuadKey) (s : PersistentElementStoreImpl) : Bitmap :=
  accessed quadKey
    (match LruCache.peek quadKey (cache_ s) with
     | Some h => bitmapData_ h
     | None => ∅
     end) (fs s).

(** The events of a bitmap access on a handle holding [data]. *)
Definition accessEvents (quadKey : QuadKey) (data : Bitmap) : list IoEvent :=
  if decide (data = ∅) then [BitmapRead (getFilePath quadKey bitmapFileExtension)] else [].

(** The cache of [s'] is that of [s] except for the handle of [quadKey],
    which is now [h']. *)
Record handleIs (quadKey : QuadKey) (h' : QuadKeyData)
  (s s' : PersistentElementStoreImpl) : Prop := {
  handleIs_peek : LruCache.peek quadKey (cache_ s') = Some h';
  handleIs_maxSize : LruCache.maxSize_ (cache_ s') = LruCache.maxSize_ (cache_ s);
  handleIs_others : forall k, k <> quadKey ->
    LruCache.peek k (cache_ s') = LruCache.peek k (cache_ s)
}.

(** What [store] leaves behind: one more record and one more index entry,
    the handle at the end of both logs, and the updated bitmap both in the
    handle and on disk. *)
Record stored (element : Element) (quadKey : QuadKey)
  (s s' : PersistentElementStoreImpl) : Prop := {
  stored_data :
    files (fs s') !! getFilePath quadKey DataFileExtension
    = Some (contents (fs s) (getFilePath quadKey DataFileExtension) ++ record element);
  stored_index :
    files (fs s') !! getFilePath quadKey IndexFileExtension
    = Some (contents (fs s) (getFilePath quadKey IndexFileExtension)
            ++ indexEntry (id element) (u32 (dataPos quadKey s)));
  stored_bitmap :
    files (fs s') !! getFilePath quadKey bitmapFileExtension
    = Some (BitmapStream_write
              (BitmapIndex.add (termsOf (payload element))
                 (Z.to_nat (u32 (indexPos quadKey s / entryWidth)))
                 (bitmapOf quadKey s)));
  stored_handle :
    LruCache.peek quadKey (cache_ s')
    = Some (mkQuadKeyData
              (fileSize (fs s') (getFilePath quadKey DataFileExtension))
              (fileSize (fs s') (getFilePath quadKey IndexFileExtension))
              (BitmapIndex.add (termsOf (payload element))
                 (Z.to_nat (u32 (indexPos quadKey s / entryWidth)))
                 (bitmapOf quadKey s)));
  stored_files : forall p, p.1 <> quadKey -> files (fs s') !! p = files (fs s) !! p;
  stored_pinned : pinned (fs s') = pinned (fs s);
  stored_maxSize : LruCache.maxSize_ (cache_ s') = LruCache.maxSize_ (cache_ s);
  stored_others : forall k h, k <> quadKey ->
    LruCache.peek k (cache_ s') = Some h -> LruCache.peek k (cache_ s) = Some h
}.

End Views.

Section ScanVocabulary.

Context {C : Collaborators}.

(** The calls of [isCancelled()] during a scan of [n] entries: one before
    each entry visited, and the one that observes the cancellation. *)
Definition polls (cancelToken : CancellationToken) (n : nat) : nat :=
  Nat.min (S (visited cancelToken 0 n)) n.

(** The limits of the 32-bit fields: the data log and the number of
    entries stay below 2^32. *)
Definition withinLimits (elements : list Element) : Prop :=
  Z.of_nat (length (dataLog elements)) < 2 ^ 32
  /\ Z.of_nat (length elements) < 2 ^ 32.

End ScanVocabulary.

Section ScanResult.

Context {C : Collaborators}.

(** The index position of the handle of [quadKey] lies within the index
    log. *)
Definition inRange (quadKey : QuadKey) (s : PersistentElementStoreImpl) : Prop :=
  0 <= indexPos quadKey s <= fileSize (fs s) (getFilePath quadKey IndexFileExtension).

(** The number of entries that [search(quadKey, ...)] sets out to visit. *)
Definition scanCount (quadKey : QuadKey) (s : PersistentElementStoreImpl) : nat :=
  Z.to_nat (indexPos quadKey s / entryWidth).

(** What a scan of [quadKey] leaves behind when it visited [k] of the
    [elements] of the tile. *)
Record scanned (quadKey : QuadKey) (elements : list Element) (k : nat)
  (s s' : PersistentElementStoreImpl) : Prop := {
  scanned_contents : forall p, contents (fs s') p = contents (fs s) p;
  scanned_files : forall p, p.1 <> quadKey -> files (fs s') !! p = files (fs s) !! p;
  scanned_pinned : pinned (fs s') = pinned (fs s);
  scanned_maxSize : LruCache.maxSize_ (cache_ s') = LruCache.maxSize_ (cache_ s);
  scanned_others : forall k' h, k' <> quadKey ->
    LruCache.peek k' (cache_ s') = Some h -> LruCache.peek k' (cache_ s) = Some h;
  scanned_handle : exists h',
    LruCache.peek quadKey (cache_ s') = Some h'
    /\ indexFile h' = entryWidth * Z.of_nat k
    /\ dataFile h' = match k with
                     | O => dataPos quadKey s
                     | S _ => Z.of_nat (length (dataLog (take k elements)))
                     end
    /\ accessed quadKey (bitmapData_ h') (fs s') = bitmapOf quadKey s
}.

End ScanResult.

(** [wlp m s Q]: if [m] returns when run from [s], its result and final
    store satisfy [Q]. *)
Definition wlp {A} (m : M A) (s : PersistentElementStoreImpl)
  (Q : A -> PersistentElementStoreImpl -> Prop) : Prop :=
  forall a s', m s = Some (a, s') -> Q a s'.

(** The events from [s] to [s'] are reads of bitmap blobs only. *)
Definition readsOnly (s s' : PersistentElementStoreImpl) : Prop :=
  exists events, io s' = io s ++ events
    /\ Forall (fun event => exists path, event = BitmapRead path) events.

(** The number of calls of [isCancelled()] among the events. *)
Definition cancelPolls (events : list IoEvent) : nat :=
  length (List.filter (fun event => match event with IsCancelled => true | _ => false end)
                      events).

(** A tile and three elements to run the store on. *)
Module Example.

Import Toy.

Definition T : QuadKey := mkQuadKey 1 0 0.

Definition A : Element := mkElement 7 (mkFeature ["a"%string] 1).
Definition B : Element := mkElement 8 (mkFeature ["b"%string] 5).
Definition E : Element := mkElement 9 (mkFeature ["a"%string; "b"%string] 2).

(** A query for the term [a] over the whole of tile [T], and a query
    for any term over the part of [T] that holds [A] and [E] but not
    [B]. *)
Definition queryA : Query :=
  mkQuery EmptyString EmptyString "a" (0%nat, 9%nat) (1%nat, 1%nat).
Definition queryLeft : Query :=
  mkQuery EmptyString EmptyString EmptyString (0%nat, 3%nat) (1%nat, 1%nat).

(** A token that is cancelled when polled the second time. *)
Definition cancelledAtSecondPoll : CancellationToken := fun i => (i =? 1)%nat.

Definition exec {R} (m : M R) (s : PersistentElementStoreImpl)
  : PersistentElementStoreImpl :=
  match m s with
  | Some (_, s') => s'
  | None => s
  end.

(** [A] and [B] saved under [T] in a new store. *)
Definition twoSaved : PersistentElementStoreImpl :=
  exec (save B T) (exec (save A T) create).

(** Then a term query that decodes [A], the first entry. *)
Definition afterQuery : PersistentElementStoreImpl :=
  exec (search_query queryA callerVisitor neverCancelled) twoSaved.

(** Then [E] is saved. *)
Definition afterStore : PersistentElementStoreImpl :=
  exec (store E T) afterQuery.

(** Instead of the query, a full scan that is cancelled after its first
    entry; then [E] is saved. *)
Definition afterCancelledScan : PersistentElementStoreImpl :=
  exec (search_quadKey T callerVisitor cancelledAtSecondPoll) twoSaved.

Definition storedAfterScan : PersistentElementStoreImpl :=
  exec (store E T) afterCancelledScan.

(** A new store in which tile [T] was opened, and its bitmap accessed
    once and twice. *)
Definition opened : PersistentElementStoreImpl := exec (getQuadKeyData T) create.
Definition accessedOnce : PersistentElementStoreImpl := exec (getBitmap T) opened.
Definition accessedTwice : PersistentElementStoreImpl := exec (getBitmap T) accessedOnce.

(** [A], [B] and [E] saved under [T] in a new store, and the queries of
    the three kinds for the terms [a] and [b]. *)
Definition threeSaved : PersistentElementStoreImpl :=
  exec (save E T) twoSaved.

Definition queryAnd : Query :=
  mkQuery EmptyString "a b" EmptyString (0%nat, 9%nat) (1%nat, 1%nat).
Definition queryOr : Query :=
  mkQuery EmptyString EmptyString "a b" (0%nat, 9%nat) (1%nat, 1%nat).
Definition queryNot : Query :=
  mkQuery "b" EmptyString EmptyString (0%nat, 9%nat) (1%nat, 1%nat).

(** A store whose tile [T] has a data file that cannot be unlinked. *)
Definition pinnedStore : PersistentElementStoreImpl :=
  mkStore (mkFS {[getFilePath T DataFileExtension := record A]}
                {[getFilePath T DataFileExtension]})
          (LruCache.create 12) [].

Definition erasedPinned : PersistentElementStoreImpl :=
  exec (erase_quadKey T) pinnedStore.

(** The result of a computation, without the store. *)
Definition result {R} (m : M R) (s : PersistentElementStoreImpl) : option R :=
  fst <$> m s.

(** The identifiers and payloads of the elements that a computation
    delivers. *)
Definition delivered (m : M (list Element)) (s : PersistentElementStoreImpl)
  : option (list (Z * feature)) :=
  match m s with
  | Some (out, _) => Some (List.map (fun e => (id e, payload e)) out)
  | None => None
  end.

Definition a1 : Z * feature := (7, mkFeature ["a"%string] 1).
Definition b5 : Z * feature := (8, mkFeature ["b"%string] 5).
Definition ab2 : Z * feature := (9, mkFeature ["a"%string; "b"%string] 2).

(** The bit-vector of [term] in the handle cached for [T]. *)
Definition bitsOf (term : Term) (s : PersistentElementStoreImpl) : option (list bool) :=
  h ← LruCache.peek T (cache_ s); bitmapData_ h !! term.

End Example.

Section EraseVocabulary.

Context {C : Collaborators}.

(** [std::remove] fails on [path]: the file is missing or cannot be
    unlinked. *)
Definition removeFails (path : Path) (fsys : FileSystem) : bool :=
  (remove path fsys).1.

(** The lines that [QuadKeyData::erase] writes to [std::cerr]. *)
Definition eraseLog (quadKey : QuadKey) (fsys : FileSystem) : list IoEvent :=
  List.map CannotErase
    (List.filter (fun path => removeFails path fsys)
       [getFilePath quadKey DataFileExtension;
        getFilePath quadKey IndexFileExtension;
        getFilePath quadKey bitmapFileExtension]).

End EraseVocabulary.


(** ** Vocabulary of durability *)

(** [decides m s r Q]: run from [s], the computation [m] returns exactly
    when [r] is a result, it returns that result, and its final store
    satisfies [Q]. *)
Definition decides {A} (m : M A) (s : PersistentElementStoreImpl) (r : option A)
  (Q : PersistentElementStoreImpl -> Prop) : Prop :=
  match r with
  | Some a => wp m s (fun out s' => out = a /\ Q s')
  | None => m s = None
  end.

Section Durability.

Context {C : Collaborators}.

(** Every bitmap held in memory is the one that the blob of its tile
    holds. *)
Definition coherent (s : PersistentElementStoreImpl) : Prop :=
  forall k h, LruCache.peek k (cache_ s) = Some h ->
    bitmapData_ h <> ∅ ->
    bitmapData_ h = BitmapStream_read (contents (fs s) (getFilePath k bitmapFileExtension)).

(** From [s] to [s'] no file changed its contents and no handle changed
    its bitmap; handles may have been opened, moved or evicted. *)
Record undisturbed (s s' : PersistentElementStoreImpl) : Prop := {
  undisturbed_contents : forall p, contents (fs s') p = contents (fs s) p;
  undisturbed_maxSize : LruCache.maxSize_ (cache_ s') = LruCache.maxSize_ (cache_ s);
  undisturbed_bitmaps : forall k h', LruCache.peek k (cache_ s') = Some h' ->
    bitmapData_ h' = ∅
    \/ exists h, LruCache.peek k (cache_ s) = Some h /\ bitmapData_ h' = bitmapData_ h
}.

(** From [s] to [s'] no file changed its contents, and the bitmaps in
    memory still agree with the blobs. *)
Record settled (s s' : PersistentElementStoreImpl) : Prop := {
  settled_contents : forall p, contents (fs s') p = contents (fs s) p;
  settled_maxSize : LruCache.maxSize_ (cache_ s') = LruCache.maxSize_ (cache_ s);
  settled_coherent : coherent s'
}.

(** What the files of a tile hold at insertion order [order]: the index
    entry, and the element that it refers to. *)
Definition entryAt (fsys : FileSystem) (quadKey : QuadKey) (order : Z) : option (Z * Z) :=
  let bytes := contents fsys (getFilePath quadKey IndexFileExtension) in
  idBytes ← readAt bytes (order * entryWidth) sizeof_id;
  offsetBytes ← readAt bytes (order * entryWidth + Z.of_nat sizeof_id) sizeof_offset;
  Some (of_bytes idBytes, of_bytes offsetBytes).

Definition recordAt (fsys : FileSystem) (quadKey : QuadKey) (entry : Z * Z) : option Element :=
  if decide (0 <= entry.2) then
    match ElementStream_read
            (drop (Z.to_nat entry.2) (contents fsys (getFilePath quadKey DataFileExtension))) with
    | Some (p, _) => Some (mkElement entry.1 p)
    | None => None
    end
  else None.

Definition elementAt (fsys : FileSystem) (quadKey : QuadKey) (order : Z) : option Element :=
  entry ← entryAt fsys quadKey order; recordAt fsys quadKey entry.

Fixpoint elementsAt (fsys : FileSystem) (quadKey : QuadKey) (orders : list nat)
  (visitor : ElementVisitor) : option (list Element) :=
  match orders with
  | [] => Some []
  | order :: rest =>
      element ← elementAt fsys quadKey (Z.of_nat order);
      outs ← elementsAt fsys quadKey rest visitor;
      Some (visitor element ++ outs)
  end.

(** The answer to a term query that the files determine. *)
Definition tileMatches (fsys : FileSystem) (query : Query) (quadKey : QuadKey)
  (visitor : ElementVisitor) : option (list Element) :=
  elementsAt fsys quadKey
    (BitmapIndex.query
       (BitmapStream_read (contents fsys (getFilePath quadKey bitmapFileExtension)))
       (tokenize (notTerms query)) (tokenize (andTerms query)) (tokenize (orTerms query)))
    visitor.

Fixpoint tilesMatches (fsys : FileSystem) (query : Query) (quadKeys : list QuadKey)
  (visitor : ElementVisitor) : option (list Element) :=
  match quadKeys with
  | [] => Some []
  | quadKey :: rest =>
      out ← tileMatches fsys query quadKey visitor;
      outs ← tilesMatches fsys query rest visitor;
      Some (out ++ outs)
  end.

Definition queryResult (fsys : FileSystem) (query : Query) (visitor : ElementVisitor)
  : option (list Element) :=
  tilesMatches fsys query (visitTileRange (boundingBox query) (range query))
    (ElementVisitorFilter visitor (fun element => intersects element (boundingBox query))).

(** The stores that the public operations produce from a store opened on
    any directory. *)
Inductive reachable : PersistentElementStoreImpl -> Prop :=
| reachable_create fsys :
    reachable (mkStore fsys (LruCache.create 12) [])
| reachable_save element quadKey s s' :
    reachable s -> save element quadKey s = Some (tt, s') -> reachable s'
| reachable_search nots ands ors bbox lodRange visitor cancelToken s out s' :
    reachable s ->
    search nots ands ors bbox lodRange visitor cancelToken s = Some (out, s') ->
    reachable s'
| reachable_scan quadKey visitor cancelToken s out s' :
    reachable s -> search_quadKey quadKey visitor cancelToken s = Some (out, s') ->
    reachable s'
| reachable_hasData quadKey s b s' :
    reachable s -> hasData quadKey s = Some (b, s') -> reachable s'
| reachable_erase quadKey s s' :
    reachable s -> erase_quadKey quadKey s = Some (tt, s') -> reachable s'
| reachable_erase_range bbox lodRange s :
    reachable s -> reachable (erase_range bbox lodRange s).2
| reachable_flush s s' :
    reachable s -> flush s = Some (tt, s') -> reachable s'.

End Durability.

(** ** Vocabulary of composed operations *)

Section Composition.

Context {C : Collaborators}.

(** [saveEach] stores each element under the tile that is paired with
    it, one after the other. *)
Fixpoint saveEach (items : list (Element * QuadKey)) : M unit :=
  match items with
  | [] => ret tt
  | item :: rest => do! save item.1 item.2 in saveEach rest
  end.

(** Every path reads the same bytes in [s'] as in [s]; a missing file
    reads as an empty one. *)
Definition sameContents (s s' : PersistentElementStoreImpl) : Prop :=
  forall p, contents (fs s') p = contents (fs s) p.

(** The number of whole entries in the index log of [quadKey]. *)
Definition entryCount (quadKey : QuadKey) (s : PersistentElementStoreImpl) : Z :=
  fileSize (fs s) (getFilePath quadKey IndexFileExtension) / entryWidth.

(** Every index log consists of whole entries. *)
Definition wholeEntries (s : PersistentElementStoreImpl) : Prop :=
  forall quadKey,
    fileSize (fs s) (getFilePath quadKey IndexFileExtension) mod entryWidth = 0.

(** The bitmap of [quadKey] has bit [i] of term [t] set exactly when the
    [i]-th of [es] carries [t]. *)
Definition indexed (quadKey : QuadKey) (es : list Element)
  (s : PersistentElementStoreImpl) : Prop :=
  forall t i,
    BitmapIndex.bit (bitmapOf quadKey s) t i = true
    <-> exists e, es !! i = Some e /\ t ∈ termsOf (payload e).

End Composition.

(** * Properties *)

(** ** Fixed-width integers *)

Lemma length_bytes_of (n : nat) (x : Z) : length (bytes_of n x) = n.
Proof. revert x; induction n as [|n IH]; intros x; simpl; [done | by rewrite IH]. Qed.

Lemma of_bytes_bytes_of (n : nat) (x : Z) :
  0 <= x < 256 ^ Z.of_nat n -> of_bytes (bytes_of n x) = x.
Proof.
  revert x; induction n as [|n IH]; intros x Hx.
  - simpl in *. lia.
  - cbn [bytes_of of_bytes]. rewrite IH.
    + pose proof (Z.div_mod x 256). lia.
    + rewrite Nat2Z.inj_succ, Z.pow_succ_r in Hx by lia.
      split; [apply Z.div_pos; lia | apply Z.div_lt_upper_bound; lia].
Qed.

Lemma u32_small (x : Z) : 0 <= x < 2 ^ 32 -> u32 x = x.
Proof. intros Hx. unfold u32, wrap. by apply Z.mod_small. Qed.

Lemma readAt_app (pre bs post : list byte) :
  readAt (pre ++ bs ++ post) (Z.of_nat (length pre)) (length bs) = Some bs.
Proof.
  unfold readAt. rewrite decide_True.
  - rewrite Nat2Z.id, drop_app_length, take_app_length. done.
  - rewrite !length_app. lia.
Qed.

Lemma readAt_at (bs pre mid post : list byte) (pos : Z) (n : nat) :
  bs = pre ++ mid ++ post -> pos = Z.of_nat (length pre) -> n = length mid ->
  readAt bs pos n = Some mid.
Proof. intros -> -> ->. apply readAt_app. Qed.

(** ** The cache *)

Section CacheFacts.

Import LruCache.

Implicit Types (c : LruCache.t) (k : QuadKey) (h v : QuadKeyData).

Lemma find_without_ne k k' (l : list (QuadKey * QuadKeyData)) :
  k <> k' ->
  List.find (fun kv => bool_decide (kv.1 = k')) (without k l)
  = List.find (fun kv => bool_decide (kv.1 = k')) l.
Proof.
  intros Hne. induction l as [|[k0 v0] l IH]; [done|].
  unfold without in *. simpl.
  destruct (decide (k0 = k)) as [->|Hk0].
  - rewrite (bool_decide_eq_true_2 (k = k)) by done. simpl.
    rewrite (bool_decide_eq_false_2 (k = k')) by done. exact IH.
  - rewrite (bool_decide_eq_false_2 (k0 = k)) by done. simpl.
    case_bool_decide; [done | exact IH].
Qed.

Lemma find_take_Some {A} (p : A -> bool) (n : nat) (l : list A) (x : A) :
  List.find p (take n l) = Some x -> List.find p l = Some x.
Proof.
  revert n; induction l as [|a l IH]; intros [|n]; simpl; try done.
  destruct (p a); [done | apply IH].
Qed.

Lemma peek_update_eq k f c : peek k (update k f c) = f <$> peek k c.
Proof.
  unfold peek, update. simpl. induction (itemsList_ c) as [|[k0 v0] l IH]; [done|].
  simpl. destruct (decide (k0 = k)) as [->|Hk0].
  - rewrite (bool_decide_eq_true_2 (k = k)) by done. simpl.
    by rewrite (bool_decide_eq_true_2 (k = k)).
  - rewrite (bool_decide_eq_false_2 (k0 = k)) by done. simpl.
    rewrite (bool_decide_eq_false_2 (k0 = k)) by done. exact IH.
Qed.

Lemma peek_update_ne k k' f c : k <> k' -> peek k' (update k f c) = peek k' c.
Proof.
  intros Hne. unfold peek, update. simpl.
  induction (itemsList_ c) as [|[k0 v0] l IH]; [done|].
  simpl. destruct (decide (k0 = k)) as [->|Hk0].
  - rewrite (bool_decide_eq_true_2 (k = k)) by done. simpl.
    rewrite !(bool_decide_eq_false_2 (k = k')) by done. exact IH.
  - rewrite (bool_decide_eq_false_2 (k0 = k)) by done. simpl.
    case_bool_decide; [done | exact IH].
Qed.

Lemma LruCache_exists_peek k c : exists_ k c = true <-> is_Some (peek k c).
Proof. unfold exists_. apply bool_decide_eq_true. Qed.

Lemma LruCache_exists_false_peek k c : exists_ k c = false <-> peek k c = None.
Proof.
  unfold exists_. rewrite bool_decide_eq_false, <- eq_None_not_Some. done.
Qed.

(** Moving an entry to the front changes no lookup. *)
Lemma get_Some k c v :
  peek k c = Some v ->
  exists c', get k c = Some (v, c')
    /\ maxSize_ c' = maxSize_ c
    /\ forall k', peek k' c' = peek k' c.
Proof.
  intros Hp. unfold get. rewrite Hp. eexists; split; [done|]. split; [done|].
  intros k'. unfold peek at 1. simpl.
  destruct (decide (k = k')) as [<-|Hne].
  - by rewrite bool_decide_eq_true_2.
  - rewrite bool_decide_eq_false_2 by done. by rewrite find_without_ne.
Qed.

Lemma peek_put_eq k v c : (0 < maxSize_ c)%nat -> peek k (put k v c) = Some v.
Proof.
  intros Hn. unfold peek, put. simpl.
  destruct (maxSize_ c) as [|n]; [lia|]. simpl.
  by rewrite bool_decide_eq_true_2.
Qed.

(** Another key either keeps its entry or was evicted. *)
Lemma peek_put_ne k k' v c h :
  k <> k' -> peek k' (put k v c) = Some h -> peek k' c = Some h.
Proof.
  intros Hne. unfold peek, put. simpl. intros Hf.
  destruct (List.find _ (take _ _)) as [[k0 v0]|] eqn:Hfind; [|done].
  apply find_take_Some in Hfind. simpl in Hfind.
  rewrite bool_decide_eq_false_2 in Hfind by done.
  rewrite find_without_ne in Hfind by done. rewrite Hfind. exact Hf.
Qed.

End CacheFacts.

(** ** Rules for [wp] *)

Lemma wp_mono {A} (m : M A) s (Q Q' : A -> PersistentElementStoreImpl -> Prop) :
  wp m s Q -> (forall a s', Q a s' -> Q' a s') -> wp m s Q'.
Proof. unfold wp. destruct (m s) as [[a s']|]; [eauto | done]. Qed.

Lemma wp_bind {A B} (m : M A) (k : A -> M B) s Q :
  wp m s (fun a s' => wp (k a) s' Q) -> wp (bind m k) s Q.
Proof. unfold wp, bind. by destruct (m s) as [[a s']|]. Qed.

Lemma wp_ret {A} (a : A) s (Q : A -> PersistentElementStoreImpl -> Prop) :
  Q a s -> wp (ret a) s Q.
Proof. done. Qed.

(** ** File-system facts *)

Lemma contents_touch p q fsys : contents (touch p fsys) q = contents fsys q.
Proof.
  unfold contents, touch. destruct (files fsys !! p) eqn:Hp; [done|]. simpl.
  destruct (decide (p = q)) as [<-|Hne].
  - by rewrite lookup_insert_eq, Hp.
  - by rewrite lookup_insert_ne.
Qed.

Lemma files_touch_ne p q fsys : p <> q -> files (touch p fsys) !! q = files fsys !! q.
Proof.
  intros Hne. unfold touch. destruct (files fsys !! p); [done|]. simpl.
  by rewrite lookup_insert_ne.
Qed.

Lemma files_touch_eq p fsys : is_Some (files (touch p fsys) !! p).
Proof.
  unfold touch. destruct (files fsys !! p) eqn:Hp; [by rewrite Hp|]. simpl.
  rewrite lookup_insert_eq. eauto.
Qed.

Lemma pinned_touch p fsys : pinned (touch p fsys) = pinned fsys.
Proof. unfold touch. by destruct (files fsys !! p). Qed.

Lemma fileSize_touch p q fsys : fileSize (touch p fsys) q = fileSize fsys q.
Proof. unfold fileSize. by rewrite contents_touch. Qed.

Lemma contents_append_eq p bs fsys : contents (append p bs fsys) p = contents fsys p ++ bs.
Proof. unfold contents at 1, append. simpl. by rewrite lookup_insert_eq. Qed.

Lemma contents_append_ne p q bs fsys : p <> q -> contents (append p bs fsys) q = contents fsys q.
Proof. intros Hne. unfold contents, append. simpl. by rewrite lookup_insert_ne. Qed.

Lemma contents_overwrite_eq p bs fsys : contents (overwrite p bs fsys) p = bs.
Proof. unfold contents, overwrite. simpl. by rewrite lookup_insert_eq. Qed.

Lemma contents_overwrite_ne p q bs fsys :
  p <> q -> contents (overwrite p bs fsys) q = contents fsys q.
Proof. intros Hne. unfold contents, overwrite. simpl. by rewrite lookup_insert_ne. Qed.

Lemma files_append_eq p bs fsys : files (append p bs fsys) !! p = Some (contents fsys p ++ bs).
Proof. unfold append. simpl. by rewrite lookup_insert_eq. Qed.

Lemma files_append_ne p q bs fsys : p <> q -> files (append p bs fsys) !! q = files fsys !! q.
Proof. intros Hne. unfold append. simpl. by rewrite lookup_insert_ne. Qed.

Lemma files_overwrite_eq p bs fsys : files (overwrite p bs fsys) !! p = Some bs.
Proof. unfold overwrite. simpl. by rewrite lookup_insert_eq. Qed.

Lemma files_overwrite_ne p q bs fsys : p <> q -> files (overwrite p bs fsys) !! q = files fsys !! q.
Proof. intros Hne. unfold overwrite. simpl. by rewrite lookup_insert_ne. Qed.

Lemma contents_files p bs fsys : files fsys !! p = Some bs -> contents fsys p = bs.
Proof. intros H. unfold contents. by rewrite H. Qed.

(** ** Opening a tile *)

Section OpenFacts.

Context {C : Collaborators}.

Implicit Types (s : PersistentElementStoreImpl) (quadKey : QuadKey).

Lemma getQuadKeyData_got quadKey s :
  (0 < LruCache.maxSize_ (cache_ s))%nat ->
  wp (getQuadKeyData quadKey) s (got quadKey s).
Proof.
  intros Hcap. unfold wp, getQuadKeyData, bind, gets.
  destruct (LruCache.exists_ quadKey (cache_ s)) eqn:Hex.
  - apply LruCache_exists_peek in Hex as [h0 Hh0].
    destruct (get_Some _ _ _ Hh0) as (c' & Hget & Hmax & Hpeek).
    unfold lift. rewrite Hget. simpl.
    split; simpl; try done.
    + by rewrite Hpeek.
    + intros k h' _. by rewrite Hpeek.
    + by rewrite Hh0.
  - apply LruCache_exists_false_peek in Hex.
    simpl.
    set (fs1 := touch _ (touch _ _)).
    set (h := mkQuadKeyData _ _ _).
    pose proof (peek_put_eq quadKey h (cache_ s) Hcap) as Hput.
    destruct (get_Some _ _ _ Hput) as (c' & Hget & Hmax & Hpeek).
    unfold lift. simpl. rewrite Hget. simpl.
    split; simpl; try done.
    + by rewrite Hpeek.
    + intros k h' Hne. rewrite Hpeek. by apply peek_put_ne.
    + rewrite Hex. split; [done|]. subst h fs1.
      by rewrite !fileSize_touch.
Qed.

End OpenFacts.

(** ** Steps on the handle of a tile *)

Section HandleFacts.

Context {C : Collaborators}.

Implicit Types (s : PersistentElementStoreImpl) (quadKey : QuadKey) (h : QuadKeyData).

Lemma handleIs_refl quadKey h s :
  LruCache.peek quadKey (cache_ s) = Some h -> handleIs quadKey h s s.
Proof. by split. Qed.

Lemma handleIs_trans quadKey h1 h2 s0 s1 s2 :
  handleIs quadKey h1 s0 s1 -> handleIs quadKey h2 s1 s2 -> handleIs quadKey h2 s0 s2.
Proof.
  intros [? ? H1] [? ? H2]. split; [done | congruence |].
  intros k Hk. by rewrite H2, H1.
Qed.

Lemma handleIs_cache_eq quadKey h s s' :
  cache_ s' = cache_ s -> LruCache.peek quadKey (cache_ s) = Some h -> handleIs quadKey h s s'.
Proof. intros Hc Hp. split; by rewrite Hc. Qed.

Lemma wp_handle quadKey h s Q :
  LruCache.peek quadKey (cache_ s) = Some h -> Q h s -> wp (handle quadKey) s Q.
Proof. intros Hp HQ. unfold wp, handle, lift. by rewrite Hp. Qed.

Lemma wp_onHandle quadKey f h s (Q : unit -> PersistentElementStoreImpl -> Prop) :
  LruCache.peek quadKey (cache_ s) = Some h ->
  (forall s', fs s' = fs s -> io s' = io s -> handleIs quadKey (f h) s s' -> Q tt s') ->
  wp (onHandle quadKey f) s Q.
Proof.
  intros Hp HQ. unfold wp, onHandle, onCache, modify. apply HQ; try done.
  split; simpl.
  - by rewrite peek_update_eq, Hp.
  - done.
  - intros k Hk. by apply peek_update_ne.
Qed.

Lemma wp_onFs f s (Q : unit -> PersistentElementStoreImpl -> Prop) :
  (forall s', fs s' = f (fs s) -> io s' = io s -> cache_ s' = cache_ s -> Q tt s') ->
  wp (onFs f) s Q.
Proof. intros HQ. unfold wp, onFs, modify. by apply HQ. Qed.

Lemma wp_emit e s (Q : unit -> PersistentElementStoreImpl -> Prop) :
  (forall s', fs s' = fs s -> io s' = io s ++ [e] -> cache_ s' = cache_ s -> Q tt s') ->
  wp (emit e) s Q.
Proof. intros HQ. unfold wp, emit, modify. by apply HQ. Qed.

Lemma wp_lift {A} (o : option A) a s (Q : A -> PersistentElementStoreImpl -> Prop) :
  o = Some a -> Q a s -> wp (lift o) s Q.
Proof. intros -> HQ. done. Qed.

Lemma wp_gets {A} (f : PersistentElementStoreImpl -> A) s Q :
  Q (f s) s -> wp (gets f) s Q.
Proof. done. Qed.

Lemma QuadKeyData_getBitmap_spec quadKey h s :
  LruCache.peek quadKey (cache_ s) = Some h ->
  wp (QuadKeyData_getBitmap quadKey) s (fun b s' =>
    b = accessed quadKey (bitmapData_ h) (fs s)
    /\ fs s' = fs s
    /\ io s' = io s ++ accessEvents quadKey (bitmapData_ h)
    /\ handleIs quadKey (setBitmapData b h) s s').
Proof.
  intros Hp. unfold QuadKeyData_getBitmap, accessed, accessEvents.
  apply wp_bind, (wp_handle _ h); [done|].
  destruct (decide (bitmapData_ h = ∅)) as [He|Hne].
  - apply wp_bind, wp_gets, wp_bind, wp_emit. intros s1 Hfs1 Hio1 Hc1.
    apply wp_bind, (wp_onHandle _ _ h); [by rewrite Hc1|].
    intros s2 Hfs2 Hio2 [Hpk Hmax Hoth]. apply wp_ret.
    split; [done|]. split; [congruence|]. split; [congruence|].
    split; [exact Hpk | congruence |].
    intros k Hk. rewrite Hoth by done. by rewrite Hc1.
  - apply wp_ret. rewrite app_nil_r. split; [done|]. do 2 (split; [done|]).
    apply handleIs_refl. rewrite Hp. by destruct h.
Qed.

End HandleFacts.

(** ** The bitmap index *)

Section BitmapFacts.

Import BitmapIndex.

Lemma length_setBit order bits : length (setBit order bits) = Nat.max (length bits) (S order).
Proof. unfold setBit. rewrite length_insert, length_app, length_replicate. lia. Qed.

Lemma setBit_lookup order bits : setBit order bits !! order = Some true.
Proof.
  unfold setBit. apply list_lookup_insert_eq.
  rewrite length_app, length_replicate. lia.
Qed.

Lemma setBit_idemp order bits : setBit order (setBit order bits) = setBit order bits.
Proof.
  unfold setBit at 1. rewrite length_setBit.
  replace (S order - Nat.max (length bits) (S order))%nat with 0%nat by lia.
  simpl. rewrite app_nil_r. unfold setBit. apply list_insert_insert_eq.
Qed.

Lemma length_cover order bits : length (cover order bits) = Nat.max (length bits) (S order).
Proof. unfold cover. rewrite length_app, length_replicate. lia. Qed.

Lemma cover_setBit order bits : cover order (setBit order bits) = setBit order bits.
Proof.
  unfold cover. rewrite length_setBit.
  replace (S order - Nat.max (length bits) (S order))%nat with 0%nat by lia.
  apply app_nil_r.
Qed.

Lemma foldl_addTerm_lookup terms order (b : Bitmap) t :
  foldl (addTerm order) b terms !! t
  = if decide (t ∈ terms) then Some (setBit order (default [] (b !! t))) else b !! t.
Proof.
  revert b. induction terms as [|t0 terms IH]; intros b; simpl.
  - done.
  - rewrite IH. unfold addTerm.
    destruct (decide (t = t0)) as [->|Hne].
    + rewrite lookup_insert_eq. simpl. rewrite setBit_idemp.
      rewrite (decide_True (P := t0 ∈ t0 :: terms)) by apply list_elem_of_here.
      by destruct (decide (t0 ∈ terms)).
    + rewrite lookup_insert_ne by done.
      destruct (decide (t ∈ terms)) as [Hin|Hnin].
      * rewrite decide_True; [done | by apply list_elem_of_further].
      * rewrite decide_False; [done|]. rewrite elem_of_cons. tauto.
Qed.

Lemma add_lookup terms order (b : Bitmap) t :
  add terms order b !! t
  = if decide (t ∈ terms) then Some (setBit order (default [] (b !! t)))
    else cover order <$> b !! t.
Proof.
  unfold add. rewrite lookup_fmap, foldl_addTerm_lookup.
  destruct (decide (t ∈ terms)); [|done]. simpl. by rewrite cover_setBit.
Qed.

Lemma add_empty_inv terms order (b : Bitmap) : add terms order b = ∅ -> terms = [] /\ b = ∅.
Proof.
  intros He. destruct terms as [|t terms].
  { split; [done|]. unfold add in He. simpl in He. by apply fmap_empty_inv in He. }
  assert (add (t :: terms) order b !! t = None) as Hl by (by rewrite He).
  rewrite add_lookup, decide_True in Hl; [done | apply list_elem_of_here].
Qed.

End BitmapFacts.

(** ** What [store] does *)

Section StoreFacts.

Context {C : Collaborators}.

Implicit Types (s : PersistentElementStoreImpl) (quadKey : QuadKey) (h : QuadKeyData).

Lemma got_contents quadKey s h s' p :
  got quadKey s h s' -> contents (fs s') p = contents (fs s) p.
Proof.
  intros [_ _ _ _ Hcase]. destruct (LruCache.peek quadKey (cache_ s)).
  - destruct Hcase as [_ ->]. done.
  - destruct Hcase as [-> _]. unfold openLogs. by rewrite !contents_touch.
Qed.

Lemma got_files quadKey s h s' p :
  got quadKey s h s' ->
  p <> getFilePath quadKey DataFileExtension ->
  p <> getFilePath quadKey IndexFileExtension ->
  files (fs s') !! p = files (fs s) !! p.
Proof.
  intros [_ _ _ _ Hcase] Hd Hi. destruct (LruCache.peek quadKey (cache_ s)).
  - destruct Hcase as [_ ->]. done.
  - destruct Hcase as [-> _]. unfold openLogs. by rewrite !files_touch_ne.
Qed.

Lemma got_pinned quadKey s h s' : got quadKey s h s' -> pinned (fs s') = pinned (fs s).
Proof.
  intros [_ _ _ _ Hcase]. destruct (LruCache.peek quadKey (cache_ s)).
  - destruct Hcase as [_ ->]. done.
  - destruct Hcase as [-> _]. unfold openLogs. by rewrite !pinned_touch.
Qed.

Lemma got_positions quadKey s h s' :
  got quadKey s h s' ->
  dataFile h = dataPos quadKey s /\ indexFile h = indexPos quadKey s
  /\ accessed quadKey (bitmapData_ h) (fs s') = bitmapOf quadKey s.
Proof.
  intros Hg. pose proof (got_contents _ _ _ _ (getFilePath quadKey bitmapFileExtension) Hg) as Hc.
  destruct Hg as [_ _ _ _ Hcase]. unfold dataPos, indexPos, bitmapOf, accessed in *.
  rewrite Hc. destruct (LruCache.peek quadKey (cache_ s)).
  - by destruct Hcase as [-> _].
  - by destruct Hcase as [_ ->].
Qed.

Lemma wp_getQuadKeyData_hit quadKey h s Q :
  LruCache.peek quadKey (cache_ s) = Some h ->
  (forall s', fs s' = fs s -> io s' = io s -> handleIs quadKey h s s' -> Q h s') ->
  wp (getQuadKeyData quadKey) s Q.
Proof.
  intros Hp HQ. unfold wp, getQuadKeyData, bind, gets.
  assert (LruCache.exists_ quadKey (cache_ s) = true) as ->.
  { apply LruCache_exists_peek. by rewrite Hp. }
  destruct (get_Some _ _ _ Hp) as (c' & Hget & Hmax & Hpeek).
  unfold lift. rewrite Hget. simpl. apply HQ; try done.
  split; simpl; [by rewrite Hpeek | done | by intros k _].
Qed.

Lemma wp_indexFile_seekEnd quadKey h s (Q : unit -> PersistentElementStoreImpl -> Prop) :
  LruCache.peek quadKey (cache_ s) = Some h ->
  (forall s', fs s' = fs s -> io s' = io s ->
     handleIs quadKey
       (setIndexFile (fileSize (fs s) (getFilePath quadKey IndexFileExtension)) h) s s' ->
     Q tt s') ->
  wp (indexFile_seekEnd quadKey) s Q.
Proof.
  intros Hp HQ. unfold indexFile_seekEnd. apply wp_bind, wp_gets.
  by apply (wp_onHandle _ _ h).
Qed.

Lemma wp_dataFile_seekEnd quadKey h s (Q : unit -> PersistentElementStoreImpl -> Prop) :
  LruCache.peek quadKey (cache_ s) = Some h ->
  (forall s', fs s' = fs s -> io s' = io s ->
     handleIs quadKey
       (setDataFile (fileSize (fs s) (getFilePath quadKey DataFileExtension)) h) s s' ->
     Q tt s') ->
  wp (dataFile_seekEnd quadKey) s Q.
Proof.
  intros Hp HQ. unfold dataFile_seekEnd. apply wp_bind, wp_gets.
  by apply (wp_onHandle _ _ h).
Qed.

Lemma wp_indexFile_write quadKey bytes h s (Q : unit -> PersistentElementStoreImpl -> Prop) :
  LruCache.peek quadKey (cache_ s) = Some h ->
  (forall s', fs s' = append (getFilePath quadKey IndexFileExtension) bytes (fs s) ->
     io s' = io s ->
     handleIs quadKey
       (setIndexFile (fileSize (fs s') (getFilePath quadKey IndexFileExtension)) h) s s' ->
     Q tt s') ->
  wp (indexFile_write quadKey bytes) s Q.
Proof.
  intros Hp HQ. unfold indexFile_write. apply wp_bind, wp_onFs. intros s1 Hfs1 Hio1 Hc1.
  apply (wp_indexFile_seekEnd _ h); [by rewrite Hc1|].
  intros s2 Hfs2 Hio2 [Hpk Hmax Hoth]. apply HQ; [congruence | congruence |].
  rewrite Hfs2. split; [done | congruence |]. intros k Hk. rewrite Hoth by done. by rewrite Hc1.
Qed.

Lemma wp_dataFile_write quadKey element h s (Q : unit -> PersistentElementStoreImpl -> Prop) :
  LruCache.peek quadKey (cache_ s) = Some h ->
  (forall s', fs s' = append (getFilePath quadKey DataFileExtension) (record element) (fs s) ->
     io s' = io s ->
     handleIs quadKey
       (setDataFile (fileSize (fs s') (getFilePath quadKey DataFileExtension)) h) s s' ->
     Q tt s') ->
  wp (dataFile_write quadKey element) s Q.
Proof.
  intros Hp HQ. unfold dataFile_write. apply wp_bind, wp_onFs. intros s1 Hfs1 Hio1 Hc1.
  apply (wp_dataFile_seekEnd _ h); [by rewrite Hc1|].
  intros s2 Hfs2 Hio2 [Hpk Hmax Hoth]. apply HQ; [by rewrite Hfs2, Hfs1 | congruence |].
  rewrite Hfs2. split; [done | congruence |]. intros k Hk. rewrite Hoth by done. by rewrite Hc1.
Qed.

Lemma store_spec `{!CollaboratorsLaws C} element quadKey s :
  (0 < LruCache.maxSize_ (cache_ s))%nat ->
  wp (store element quadKey) s (fun _ s' => stored element quadKey s s').
Proof.
  intros Hcap. unfold store.
  apply wp_bind. eapply wp_mono; [by apply getQuadKeyData_got|]. intros h1 s1 Hg.
  destruct (got_positions _ _ _ _ Hg) as (Hd & Hi & Hb).
  pose proof (got_peek _ _ _ _ Hg) as Hp1.
  apply wp_bind, (wp_indexFile_seekEnd _ h1); [done|]. intros s2 Hfs2 Hio2 H2.
  eapply wp_bind, wp_indexFile_write; [exact (handleIs_peek _ _ _ _ H2)|].
  intros s3 Hfs3 Hio3 H3.
  eapply wp_bind, wp_indexFile_write; [exact (handleIs_peek _ _ _ _ H3)|].
  intros s4 Hfs4 Hio4 H4.
  eapply wp_bind, wp_dataFile_seekEnd; [exact (handleIs_peek _ _ _ _ H4)|].
  intros s5 Hfs5 Hio5 H5.
  eapply wp_bind, wp_dataFile_write; [exact (handleIs_peek _ _ _ _ H5)|].
  intros s6 Hfs6 Hio6 H6.
  unfold BitmapIndex_add, getBitmap.
  eapply wp_bind, wp_bind, wp_bind, wp_getQuadKeyData_hit; [exact (handleIs_peek _ _ _ _ H6)|].
  intros s7 Hfs7 Hio7 H7.
  eapply wp_mono; [apply QuadKeyData_getBitmap_spec; exact (handleIs_peek _ _ _ _ H7)|].
  intros b1 s8 (Hb1 & Hfs8 & Hio8 & H8).
  eapply wp_onHandle; [exact (handleIs_peek _ _ _ _ H8)|].
  intros s9 Hfs9 Hio9 H9.
  apply wp_bind.
  eapply wp_mono; [apply QuadKeyData_getBitmap_spec; exact (handleIs_peek _ _ _ _ H9)|].
  intros b3 s10 (Hb3 & Hfs10 & Hio10 & H10).
  apply wp_bind, wp_onFs. intros s11 Hfs11 Hio11 Hc11.
  apply wp_bind.
  eapply wp_mono; [apply QuadKeyData_getBitmap_spec; rewrite Hc11;
                   exact (handleIs_peek _ _ _ _ H10)|].
  intros b4 s12 (Hb4 & Hfs12 & Hio12 & H12).
  apply wp_onFs. intros s13 Hfs13 Hio13 Hc13.
  assert ((getFilePath quadKey DataFileExtension) <> (getFilePath quadKey IndexFileExtension) /\ (getFilePath quadKey DataFileExtension) <> (getFilePath quadKey bitmapFileExtension) /\ (getFilePath quadKey IndexFileExtension) <> (getFilePath quadKey bitmapFileExtension)) as (Hdi & Hdb & Hib) by done.
  (* the file system after the two logs were written *)
  assert (fs s6 = append (getFilePath quadKey DataFileExtension) (record element)
                    (append (getFilePath quadKey IndexFileExtension) (bytes_of sizeof_offset (u32 (dataFile h1)))
                       (append (getFilePath quadKey IndexFileExtension) (bytes_of sizeof_id (id element)) (fs s1)))) as Hfs
    by congruence.
  assert (contents (fs s6) (getFilePath quadKey bitmapFileExtension) = contents (fs s1) (getFilePath quadKey bitmapFileExtension)) as Hcb.
  { rewrite Hfs. by rewrite !contents_append_ne. }
  (* the bitmap in memory *)
  set (B := BitmapIndex.add (termsOf (payload element))
              (Z.to_nat (u32 (indexPos quadKey s / entryWidth))) (bitmapOf quadKey s)).
  assert (b1 = bitmapOf quadKey s) as Hb1'.
  { rewrite Hb1, <- Hb. unfold accessed. rewrite Hfs7, Hcb. by destruct h1. }
  assert (b3 = B) as Hb3'.
  { rewrite Hb3. unfold accessed. simpl. rewrite Hi, Hb1'. fold B.
    destruct (decide (B = ∅)) as [HB|HB]; [|done].
    rewrite HB. apply add_empty_inv in HB as [_ HB].
    rewrite Hfs9, Hfs8, Hfs7, Hcb.
    revert HB. rewrite <- Hb. unfold accessed.
    destruct (decide (bitmapData_ h1 = ∅)); [done | tauto]. }
  assert (b4 = B) as Hb4'.
  { rewrite Hb4. unfold accessed. simpl. rewrite Hb3'.
    destruct (decide (B = ∅)) as [HB|HB]; [|done].
    rewrite Hfs11, contents_overwrite_eq, HB.
    apply BitmapStream_read_nil. }
  assert (fs s13 = overwrite (getFilePath quadKey bitmapFileExtension) (BitmapStream_write B) (overwrite (getFilePath quadKey bitmapFileExtension) [] (fs s6))) as Hfin
    by congruence.
  (* the cache *)
  pose proof (handleIs_trans _ _ _ _ _ _ H2 H3) as Hh.
  pose proof (handleIs_trans _ _ _ _ _ _ Hh H4) as Hh4.
  pose proof (handleIs_trans _ _ _ _ _ _ Hh4 H5) as Hh5.
  pose proof (handleIs_trans _ _ _ _ _ _ Hh5 H6) as Hh6.
  pose proof (handleIs_trans _ _ _ _ _ _ Hh6 H7) as Hh7.
  pose proof (handleIs_trans _ _ _ _ _ _ Hh7 H8) as Hh8.
  pose proof (handleIs_trans _ _ _ _ _ _ Hh8 H9) as Hh9.
  pose proof (handleIs_trans _ _ _ _ _ _ Hh9 H10) as Hh10.
  pose proof (handleIs_trans _ _ _ _ _ _ Hh10
                (handleIs_cache_eq _ _ _ _ Hc11 (handleIs_peek _ _ _ _ H10))) as Hh11.
  pose proof (handleIs_trans _ _ _ _ _ _ Hh11 H12) as Hh12.
  pose proof (handleIs_trans _ _ _ _ _ _ Hh12
                (handleIs_cache_eq _ _ _ _ Hc13 (handleIs_peek _ _ _ _ H12))) as Hh13.
  clear Hh Hh4 Hh5 Hh6 Hh7 Hh8 Hh9 Hh10 Hh11 Hh12.
  destruct Hh13 as [Hpk Hmax Hoth].
  split.
  - rewrite Hfin, !files_overwrite_ne, Hfs, files_append_eq by done.
    rewrite !contents_append_ne by done. by rewrite (got_contents _ _ _ _ _ Hg).
  - rewrite Hfin, !files_overwrite_ne, Hfs, files_append_ne, files_append_eq by done.
    rewrite contents_append_eq, <- app_assoc, (got_contents _ _ _ _ _ Hg), Hd. done.
  - rewrite Hfin, files_overwrite_eq. done.
  - rewrite Hpk, Hb4'. unfold setBitmapData, setDataFile, setIndexFile. simpl. f_equal. f_equal.
    + unfold fileSize. rewrite Hfin, !contents_overwrite_ne by done. done.
    + unfold fileSize. rewrite Hfin, !contents_overwrite_ne by done.
      rewrite Hfs, contents_append_ne by done. by rewrite Hfs4, Hfs3, Hfs2.
  - intros [k ext] Hk. simpl in Hk.
    rewrite Hfin, !files_overwrite_ne, Hfs, !files_append_ne by (unfold getFilePath; congruence).
    apply (got_files _ _ _ _ _ Hg); unfold getFilePath; congruence.
  - rewrite Hfin. simpl. rewrite Hfs. simpl. apply (got_pinned _ _ _ _ Hg).
  - rewrite Hmax. apply (got_maxSize _ _ _ _ Hg).
  - intros k h Hk Hpeek. rewrite Hoth in Hpeek by done.
    by apply (got_others _ _ _ _ Hg).
Qed.

End StoreFacts.

(** ** The logs of a tile *)

Section LogFacts.

Context {C : Collaborators}.

Implicit Types (s : PersistentElementStoreImpl) (quadKey : QuadKey) (h : QuadKeyData).
Implicit Types (es : list Element) (e : Element).

Lemma length_indexEntry i off : length (indexEntry i off) = 12%nat.
Proof. unfold indexEntry. by rewrite length_app, !length_bytes_of. Qed.

Lemma length_indexLog base es : Z.of_nat (length (indexLog base es)) = entryWidth * Z.of_nat (length es).
Proof.
  revert base; induction es as [|e es IH]; intros base; cbn [indexLog].
  - unfold entryWidth. simpl. lia.
  - rewrite length_app, length_indexEntry, Nat2Z.inj_add, IH. cbn [length]. unfold entryWidth, sizeof_id, sizeof_offset. lia.
Qed.

Lemma dataLog_app es1 es2 : dataLog (es1 ++ es2) = dataLog es1 ++ dataLog es2.
Proof. unfold dataLog. by rewrite List.map_app, List.concat_app. Qed.

Lemma dataLog_cons e es : dataLog (e :: es) = record e ++ dataLog es.
Proof. done. Qed.

Lemma indexLog_app base es1 es2 :
  indexLog base (es1 ++ es2)
  = indexLog base es1 ++ indexLog (base + Z.of_nat (length (dataLog es1))) es2.
Proof.
  revert base; induction es1 as [|e es1 IH]; intros base; cbn [indexLog app].
  - simpl. by rewrite Z.add_0_r.
  - rewrite IH, <- app_assoc. do 3 f_equal.
    rewrite dataLog_cons, length_app. lia.
Qed.

Lemma readIndexEntry_spec quadKey h s (pre post : list byte) (i off : Z) :
  LruCache.peek quadKey (cache_ s) = Some h ->
  contents (fs s) (getFilePath quadKey IndexFileExtension) = pre ++ indexEntry i off ++ post ->
  indexFile h = Z.of_nat (length pre) ->
  0 <= i < 2 ^ 64 -> 0 <= off < 2 ^ 32 ->
  wp (readIndexEntry quadKey) s (fun r s' =>
    r = (i, off) /\ fs s' = fs s /\ io s' = io s
    /\ handleIs quadKey (setIndexFile (Z.of_nat (length pre) + entryWidth) h) s s').
Proof.
  intros Hp Hc Hpos Hi Hoff. unfold readIndexEntry.
  apply wp_bind, (wp_handle _ h); [done|].
  apply wp_bind, wp_gets. rewrite Hc, Hpos. unfold indexEntry.
  pose proof (length_bytes_of sizeof_id i) as Hla.
  pose proof (length_bytes_of sizeof_offset off) as Hlb.
  apply wp_bind, (wp_lift _ (bytes_of sizeof_id i)).
  { apply (readAt_at _ pre _ (bytes_of sizeof_offset off ++ post)); [|done..].
    by rewrite <- app_assoc. }
  apply wp_bind, (wp_lift _ (bytes_of sizeof_offset off)).
  { apply (readAt_at _ (pre ++ bytes_of sizeof_id i) _ post); [| |done].
    - by rewrite <- !app_assoc.
    - rewrite length_app, Hla. lia. }
  eapply wp_bind, wp_onHandle; [done|]. intros s' Hfs Hio Hh. apply wp_ret.
  rewrite !of_bytes_bytes_of by (unfold sizeof_id, sizeof_offset; lia). done.
Qed.

Lemma dataFile_read_spec `{!CollaboratorsLaws C} quadKey h s (pre post : list byte) e i :
  LruCache.peek quadKey (cache_ s) = Some h ->
  contents (fs s) (getFilePath quadKey DataFileExtension) = pre ++ record e ++ post ->
  dataFile h = Z.of_nat (length pre) ->
  wp (dataFile_read quadKey i) s (fun r s' =>
    r = mkElement i (payload e) /\ fs s' = fs s /\ io s' = io s
    /\ handleIs quadKey
         (setDataFile (Z.of_nat (length pre) + Z.of_nat (length (record e))) h) s s').
Proof.
  intros Hp Hc Hpos. unfold dataFile_read.
  apply wp_bind, (wp_handle _ h); [done|].
  apply wp_bind, wp_gets. rewrite Hc, Hpos.
  rewrite decide_True by lia.
  rewrite Nat2Z.id, drop_app_length. unfold record. rewrite ElementStream_read_write.
  eapply wp_bind, wp_onHandle; [done|]. intros s' Hfs Hio Hh. by apply wp_ret.
Qed.

Lemma length_dataLog_prefix es1 es2 :
  Z.of_nat (length (dataLog es1)) <= Z.of_nat (length (dataLog (es1 ++ es2))).
Proof. rewrite dataLog_app, length_app. lia. Qed.

(** The loop of the scan, run for [length es2] iterations from entry
    [length es1] of a tile that holds [es1 ++ es2 ++ es3]: it delivers the
    entries of [es2] up to the first cancelled poll and polls once per
    iteration. *)
Lemma search_loop_spec `{!CollaboratorsLaws C} quadKey visitor cancelToken es3 es2 :
  forall es1 i s h,
  LruCache.peek quadKey (cache_ s) = Some h ->
  contents (fs s) (getFilePath quadKey DataFileExtension) = dataLog (es1 ++ es2 ++ es3) ->
  contents (fs s) (getFilePath quadKey IndexFileExtension) = indexLog 0 (es1 ++ es2 ++ es3) ->
  indexFile h = entryWidth * Z.of_nat (length es1) ->
  Forall validId es2 ->
  Z.of_nat (length (dataLog (es1 ++ es2 ++ es3))) < 2 ^ 32 ->
  wp (search_loop quadKey visitor cancelToken i (length es2)) s (fun out s' =>
    let k := visited cancelToken i (length es2) in
    out = flat_map visitor (take k es2)
    /\ fs s' = fs s
    /\ io s' = io s ++ replicate (Nat.min (S k) (length es2)) IsCancelled
    /\ exists h', handleIs quadKey h' s s'
         /\ bitmapData_ h' = bitmapData_ h
         /\ indexFile h' = entryWidth * Z.of_nat (length es1 + k)
         /\ dataFile h' = match k with
                          | O => dataFile h
                          | S _ => Z.of_nat (length (dataLog (es1 ++ take k es2)))
                          end).
Proof.
  induction es2 as [|e es2 IH]; intros es1 i s h Hp Hd Hi Hpos Hids Hlim.
  - simpl. apply wp_ret. rewrite app_nil_r, Nat.add_0_r.
    do 3 (split; [done|]). exists h. split; [by apply handleIs_refl | done].
  - cbn [length search_loop visited].
    apply wp_bind, wp_emit. intros s1 Hfs1 Hio1 Hc1.
    destruct (cancelToken i) eqn:Htok.
    { apply wp_ret. simpl. rewrite Nat.add_0_r.
      split; [done|]. split; [done|]. split; [done|].
      exists h. split; [by apply handleIs_cache_eq | done]. }
    apply Forall_cons in Hids as [Hid Hids].
    pose proof (length_dataLog_prefix es1 ((e :: es2) ++ es3)) as Hle.
    apply wp_bind.
    eapply wp_mono.
    { apply (readIndexEntry_spec quadKey h s1 (indexLog 0 es1)
               (indexLog (0 + Z.of_nat (length (dataLog es1)) + Z.of_nat (length (record e)))
                         (es2 ++ es3))
               (id e) (Z.of_nat (length (dataLog es1)))).
      - by rewrite Hc1.
      - rewrite Hfs1, Hi, indexLog_app. done.
      - rewrite length_indexLog. done.
      - exact Hid.
      - lia. }
    intros entry s2 (-> & Hfs2 & Hio2 & H2). cbn [fst snd].
    eapply wp_bind, wp_onHandle; [exact (handleIs_peek _ _ _ _ H2)|].
    intros s3 Hfs3 Hio3 H3.
    apply wp_bind.
    eapply wp_mono.
    { eapply (dataFile_read_spec quadKey _ s3 (dataLog es1) (dataLog (es2 ++ es3)) e (id e)).
      - exact (handleIs_peek _ _ _ _ H3).
      - rewrite Hfs3, Hfs2, Hfs1, Hd, dataLog_app. done.
      - done. }
    intros element s4 (-> & Hfs4 & Hio4 & H4).
    apply wp_bind.
    eapply wp_mono.
    { eapply (IH (es1 ++ [e]) (S i) s4 _ (handleIs_peek _ _ _ _ H4)).
      - rewrite <- app_assoc, Hfs4, Hfs3, Hfs2, Hfs1. exact Hd.
      - rewrite <- app_assoc, Hfs4, Hfs3, Hfs2, Hfs1. exact Hi.
      - simpl. rewrite length_indexLog, length_app. simpl. unfold entryWidth. lia.
      - exact Hids.
      - rewrite <- app_assoc. exact Hlim. }
    cbv zeta. intros rest s5 (-> & Hfs5 & Hio5 & h' & H5 & Hbm & Hidx & Hdat).
    apply wp_ret.
    set (k := visited cancelToken (S i) (length es2)) in *.
    split; [by destruct e|].
    split; [congruence|].
    split.
    { rewrite Hio5, Hio4, Hio3, Hio2, Hio1, <- app_assoc. done. }
    exists h'. split; [|split; [|split]].
    + pose proof (handleIs_cache_eq quadKey h s s1 Hc1 Hp) as H1.
      exact (handleIs_trans _ _ _ _ _ _
               (handleIs_trans _ _ _ _ _ _
                  (handleIs_trans _ _ _ _ _ _ (handleIs_trans _ _ _ _ _ _ H1 H2) H3) H4) H5).
    + rewrite Hbm. done.
    + rewrite Hidx, length_app. simpl. f_equal. lia.
    + rewrite Hdat. destruct k.
      * cbn [take dataFile setDataFile].
        rewrite dataLog_app, dataLog_cons, !length_app. simpl. lia.
      * rewrite <- app_assoc. done.
Qed.

End LogFacts.

(** ** Scanning a tile *)

Section ScanFacts.

Context {C : Collaborators} `{!CollaboratorsLaws C}.

Implicit Types (s : PersistentElementStoreImpl) (quadKey : QuadKey) (h : QuadKeyData).
Implicit Types (es : list Element) (e : Element).

Lemma holds_fileSize_index quadKey es s :
  holds quadKey es s ->
  fileSize (fs s) (getFilePath quadKey IndexFileExtension) = entryWidth * Z.of_nat (length es).
Proof. intros [_ Hi]. unfold fileSize. by rewrite Hi, length_indexLog. Qed.

Lemma holds_fileSize_data quadKey es s :
  holds quadKey es s ->
  fileSize (fs s) (getFilePath quadKey DataFileExtension) = Z.of_nat (length (dataLog es)).
Proof. intros [Hd _]. unfold fileSize. by rewrite Hd. Qed.

Lemma scanCount_le quadKey es s :
  holds quadKey es s -> inRange quadKey s -> (scanCount quadKey s <= length es)%nat.
Proof.
  intros Hh [H0 Hle]. unfold scanCount.
  rewrite (holds_fileSize_index _ _ _ Hh) in Hle. change entryWidth with 12 in *.
  apply Nat2Z.inj_le. rewrite Z2Nat.id by (apply Z.div_pos; lia).
  apply Z.div_le_upper_bound; lia.
Qed.

Lemma search_quadKey_spec quadKey visitor cancelToken es s :
  (0 < LruCache.maxSize_ (cache_ s))%nat ->
  holds quadKey es s -> inRange quadKey s ->
  Forall validId es -> withinLimits es ->
  wp (search_quadKey quadKey visitor cancelToken) s (fun out s' =>
    let c := scanCount quadKey s in
    let k := visited cancelToken 0 c in
    out = flat_map visitor (take k es)
    /\ io s' = io s ++ replicate (Nat.min (S k) c) IsCancelled
    /\ scanned quadKey es k s s').
Proof.
  intros Hcap Hh Hr Hids [Hlim Hcnt].
  pose proof (scanCount_le _ _ _ Hh Hr) as Hc.
  destruct Hh as [Hd Hi]. unfold search_quadKey.
  apply wp_bind. eapply wp_mono; [by apply getQuadKeyData_got|]. intros h1 s1 Hg.
  destruct (got_positions _ _ _ _ Hg) as (Hdp & Hip & Hb).
  assert (u32 (indexFile h1 / entryWidth) = Z.of_nat (scanCount quadKey s)) as Hu.
  { rewrite Hip. unfold scanCount. destruct Hr as [H0 _].
    assert (0 <= indexPos quadKey s / entryWidth) by (apply Z.div_pos; [lia | done]).
    rewrite Z2Nat.id by done. apply u32_small. split; [done|].
    apply Nat2Z.inj_le in Hc. unfold scanCount in Hc. rewrite Z2Nat.id in Hc by done. lia. }
  rewrite Hu, Nat2Z.id.
  eapply wp_bind, wp_onHandle; [exact (got_peek _ _ _ _ Hg)|]. intros s2 Hfs2 Hio2 H2.
  set (c := scanCount quadKey s) in *.
  assert (length (take c es) = c) as Hlen by (rewrite length_take; lia).
  rewrite <- Hlen at 1.
  eapply wp_mono.
  { eapply (search_loop_spec quadKey visitor cancelToken (drop c es) (take c es) [] 0%nat s2 _
              (handleIs_peek _ _ _ _ H2)).
    - simpl. rewrite take_drop, Hfs2, (got_contents _ _ _ _ _ Hg). exact Hd.
    - simpl. rewrite take_drop, Hfs2, (got_contents _ _ _ _ _ Hg). exact Hi.
    - simpl. change entryWidth with 12. lia.
    - rewrite <- (take_drop c es) in Hids. by apply Forall_app in Hids as [? _].
    - simpl. rewrite take_drop. exact Hlim. }
  cbv zeta. rewrite Hlen. intros out s3 (-> & Hfs3 & Hio3 & h' & H3 & Hbm & Hidx & Hdat).
  set (k := visited cancelToken 0 c) in *.
  assert (k <= c)%nat as Hk.
  { subst k. clear. generalize 0%nat. induction c as [|c IH]; intros i; simpl; [lia|].
    destruct (cancelToken i); [lia|]. specialize (IH (S i)). lia. }
  split.
  { f_equal. rewrite take_take. f_equal. lia. }
  split; [by rewrite Hio3, Hio2, (got_io _ _ _ _ Hg)|].
  split.
  - intros p. rewrite Hfs3, Hfs2. apply (got_contents _ _ _ _ _ Hg).
  - intros [k' ext] Hk'. simpl in Hk'. rewrite Hfs3, Hfs2.
    apply (got_files _ _ _ _ _ Hg); unfold getFilePath; congruence.
  - rewrite Hfs3, Hfs2. apply (got_pinned _ _ _ _ Hg).
  - rewrite (handleIs_maxSize _ _ _ _ H3), (handleIs_maxSize _ _ _ _ H2).
    apply (got_maxSize _ _ _ _ Hg).
  - intros k' h Hk' Hpk.
    rewrite (handleIs_others _ _ _ _ H3), (handleIs_others _ _ _ _ H2) in Hpk by done.
    by apply (got_others _ _ _ _ Hg).
  - exists h'. split; [exact (handleIs_peek _ _ _ _ H3)|].
    split; [by rewrite Hidx|]. split.
    + rewrite Hdat. simpl app. rewrite take_take, Nat.min_l by exact Hk.
      destruct k; [exact Hdp | done].
    + rewrite Hbm, Hfs3, Hfs2. exact Hb.
Qed.

Lemma atEnd_positions quadKey s :
  atEnd quadKey s ->
  dataPos quadKey s = fileSize (fs s) (getFilePath quadKey DataFileExtension)
  /\ indexPos quadKey s = fileSize (fs s) (getFilePath quadKey IndexFileExtension).
Proof.
  unfold atEnd, dataPos, indexPos. intros Hat.
  destruct (LruCache.peek quadKey (cache_ s)) as [h|]; [by apply Hat | done].
Qed.

Lemma atEnd_inRange quadKey s : atEnd quadKey s -> inRange quadKey s.
Proof.
  intros Hat. destruct (atEnd_positions _ _ Hat) as [_ Hi]. unfold inRange.
  rewrite Hi. unfold fileSize. lia.
Qed.

Lemma atEnd_scanCount quadKey es s :
  holds quadKey es s -> atEnd quadKey s -> scanCount quadKey s = length es.
Proof.
  intros Hh Hat. destruct (atEnd_positions _ _ Hat) as [_ Hi]. unfold scanCount.
  rewrite Hi, (holds_fileSize_index _ _ _ Hh), Z.mul_comm, Z.div_mul by done.
  apply Nat2Z.id.
Qed.

Lemma visited_never i n : visited neverCancelled i n = n.
Proof. revert i; induction n as [|n IH]; intros i; simpl; [done | by rewrite IH]. Qed.

Lemma flat_map_callerVisitor es : flat_map callerVisitor es = es.
Proof. induction es as [|e es IH]; simpl; [done | by rewrite IH]. Qed.

(** Saving into a tile whose handle stands at the end of the logs. *)
Lemma save_holds quadKey es e s :
  (0 < LruCache.maxSize_ (cache_ s))%nat ->
  holds quadKey es s -> atEnd quadKey s ->
  Z.of_nat (length (dataLog es)) < 2 ^ 32 ->
  wp (save e quadKey) s (fun _ s' =>
    holds quadKey (es ++ [e]) s' /\ atEnd quadKey s' /\ stored e quadKey s s').
Proof.
  intros Hcap Hh Hat Hlim. unfold save.
  eapply wp_mono; [by apply store_spec|]. intros [] s' Hst.
  destruct (atEnd_positions _ _ Hat) as [Hdp _].
  pose proof (holds_fileSize_data _ _ _ Hh) as Hsize.
  destruct Hh as [Hd Hi].
  split; [|split; [|done]].
  - split.
    + rewrite (contents_files _ _ _ (stored_data _ _ _ _ Hst)), Hd, dataLog_app.
      unfold dataLog at 3. simpl. by rewrite app_nil_r.
    + rewrite (contents_files _ _ _ (stored_index _ _ _ _ Hst)), Hi, indexLog_app.
      cbn [indexLog]. rewrite app_nil_r, Hdp, Hsize, u32_small; [done | lia].
  - intros h Hpk. rewrite (stored_handle _ _ _ _ Hst) in Hpk.
    apply (inj Some) in Hpk. by rewrite <- Hpk.
Qed.

Lemma saveAll_holds quadKey elements :
  forall es s,
  (0 < LruCache.maxSize_ (cache_ s))%nat ->
  holds quadKey es s -> atEnd quadKey s ->
  Z.of_nat (length (dataLog (es ++ elements))) < 2 ^ 32 ->
  wp (saveAll elements quadKey) s (fun _ s' =>
    holds quadKey (es ++ elements) s' /\ atEnd quadKey s'
    /\ LruCache.maxSize_ (cache_ s') = LruCache.maxSize_ (cache_ s)).
Proof.
  induction elements as [|e elements IH]; intros es s Hcap Hh Hat Hlim.
  - simpl. apply wp_ret. by rewrite app_nil_r.
  - cbn [saveAll]. apply wp_bind.
    pose proof (length_dataLog_prefix es (e :: elements)) as Hle.
    eapply wp_mono; [apply (save_holds quadKey es e s); [done..|lia]|].
    intros [] s1 (Hh1 & Hat1 & Hst).
    pose proof (stored_maxSize _ _ _ _ Hst) as Hmax.
    eapply wp_mono.
    { apply (IH (es ++ [e]) s1); [lia | done | done |]. by rewrite <- app_assoc. }
    intros [] s2 (Hh2 & Hat2 & Hmax2). rewrite <- app_assoc in Hh2.
    split; [done|]. split; [done | congruence].
Qed.

(** The round trip where the handle of the tile stands at the end of its
    logs: after [save(E, T)] a full scan of [T] delivers [E], identifier
    and payload; and elements saved one after the other under [T] are
    delivered by the full scan in that order, after the elements that the
    tile held before. *)
Theorem save_then_scan_delivers_in_order quadKey old elements s :
  (0 < LruCache.maxSize_ (cache_ s))%nat ->
  holds quadKey old s -> atEnd quadKey s ->
  Forall validId (old ++ elements) -> withinLimits (old ++ elements) ->
  wp (do! saveAll elements quadKey in
      search_quadKey quadKey callerVisitor neverCancelled) s
     (fun out _ => out = old ++ elements /\ forall e, e ∈ elements -> e ∈ out).
Proof.
  intros Hcap Hh Hat Hids Hlim. apply wp_bind.
  eapply wp_mono; [apply (saveAll_holds quadKey elements old s); [done..|apply Hlim]|].
  intros [] s1 (Hh1 & Hat1 & Hmax).
  eapply wp_mono.
  { apply (search_quadKey_spec quadKey callerVisitor neverCancelled (old ++ elements) s1);
      [lia | done | by apply atEnd_inRange | done | done]. }
  cbv zeta. intros out s2 (-> & _ & _).
  rewrite (atEnd_scanCount _ _ _ Hh1 Hat1), visited_never, flat_map_callerVisitor.
  rewrite firstn_all. split; [done|]. intros e He. apply elem_of_app. by right.
Qed.

End ScanFacts.

(** ** The concrete collaborators satisfy the laws *)

Module ToyFacts.

Import Toy.

Lemma string_of_bits_of_string (s : string) : string_of_bits (bits_of_string s) = s.
Proof. induction s as [|a s IH]; [done|]. destruct a. simpl. by rewrite IH. Qed.

Lemma decodeItems_bits (bits : list bool) :
  forall rest done cur n,
  decodeItems (List.map byte_of_bit bits ++ rest) done cur n
  = decodeItems rest done (cur ++ bits) (n + length bits).
Proof.
  induction bits as [|b bits IH]; intros rest done cur n; simpl.
  - by rewrite app_nil_r, Nat.add_0_r.
  - destruct b; simpl; rewrite IH, <- app_assoc; simpl; f_equal; lia.
Qed.

Lemma decodeItems_items (items : list (list bool)) :
  forall rest done n,
  decodeItems (List.concat (List.map encodeItem items) ++ rest) done [] n
  = decodeItems rest (done ++ items) [] (n + length (List.concat (List.map encodeItem items))).
Proof.
  induction items as [|bits items IH]; intros rest done n; simpl.
  - by rewrite app_nil_r, Nat.add_0_r.
  - unfold encodeItem at 1 3. rewrite <- !app_assoc, decodeItems_bits. simpl.
    rewrite IH, <- app_assoc. simpl. f_equal.
    rewrite !length_app, length_map. simpl. lia.
Qed.

Lemma decodeItems_encodeItems (items : list (list bool)) (rest : list byte) :
  decodeItems (encodeItems items ++ rest) [] [] 0 = Some (items, length (encodeItems items)).
Proof.
  unfold encodeItems. rewrite <- app_assoc, decodeItems_items. simpl.
  rewrite length_app. simpl. do 2 f_equal. lia.
Qed.

Lemma readElement_writeElement (p : feature) (rest : list byte) :
  readElement (writeElement p ++ rest) = Some (p, length (writeElement p)).
Proof.
  unfold readElement, writeElement. rewrite decodeItems_encodeItems.
  destruct p as [ts pos]. simpl. rewrite length_replicate. do 3 f_equal.
  induction ts as [|t ts IH]; simpl; [done|]. by rewrite string_of_bits_of_string, IH.
Qed.

Lemma pairUp_unpair (kvs : list (Term * list bool)) : pairUp (unpair kvs) = kvs.
Proof.
  induction kvs as [|[k v] kvs IH]; [done|]. unfold unpair in *. simpl.
  by rewrite string_of_bits_of_string, IH.
Qed.

Lemma readBitmap_writeBitmap (b : Bitmap) : readBitmap (writeBitmap b) = b.
Proof.
  unfold readBitmap, writeBitmap.
  rewrite <- (app_nil_r (encodeItems _)), decodeItems_encodeItems, pairUp_unpair.
  apply list_to_map_to_list.
Qed.

#[export] Instance laws : CollaboratorsLaws Toy.collaborators.
Proof.
  split.
  - exact readElement_writeElement.
  - exact readBitmap_writeBitmap.
  - done.
Qed.

End ToyFacts.

(** ** Events of a term query *)

Section QueryEvents.

Context {C : Collaborators}.

Implicit Types (s : PersistentElementStoreImpl) (quadKey : QuadKey).

Lemma wlp_bind {A B} (m : M A) (k : A -> M B) s Q :
  wlp m s (fun a s' => wlp (k a) s' Q) -> wlp (bind m k) s Q.
Proof.
  unfold wlp, bind. intros H b s'' Hb.
  destruct (m s) as [[a s']|] eqn:Hm; [|done]. by eapply H.
Qed.

Lemma wlp_mono {A} (m : M A) s (Q Q' : A -> PersistentElementStoreImpl -> Prop) :
  wlp m s Q -> (forall a s', Q a s' -> Q' a s') -> wlp m s Q'.
Proof. unfold wlp. eauto. Qed.

Lemma readsOnly_refl s s' : io s' = io s -> readsOnly s s'.
Proof. intros H. exists []. by rewrite app_nil_r. Qed.

Lemma readsOnly_trans s1 s2 s3 : readsOnly s1 s2 -> readsOnly s2 s3 -> readsOnly s1 s3.
Proof.
  intros (e1 & H1 & F1) (e2 & H2 & F2). exists (e1 ++ e2).
  split; [by rewrite H2, H1, app_assoc | by apply Forall_app].
Qed.

Lemma readsOnly_cancelPolls s s' : readsOnly s s' -> cancelPolls (io s') = cancelPolls (io s).
Proof.
  intros (events & -> & Hall). unfold cancelPolls.
  rewrite List.filter_app, length_app.
  induction Hall as [|event events [path ->] _ IH]; simpl; [lia | exact IH].
Qed.

Lemma getQuadKeyData_io quadKey s :
  wlp (getQuadKeyData quadKey) s (fun _ s' => io s' = io s).
Proof.
  intros h s'. unfold getQuadKeyData, QuadKeyData_open, bind, gets, lift, onCache, onFs,
    modify, ret.
  intros H. repeat case_match; simplify_eq; done.
Qed.

Lemma QuadKeyData_getBitmap_io quadKey s :
  wlp (QuadKeyData_getBitmap quadKey) s (fun _ s' => readsOnly s s').
Proof.
  intros b s'. unfold QuadKeyData_getBitmap, handle, bind, gets, lift, emit, onHandle,
    onCache, modify, ret.
  intros H. repeat case_match; simplify_eq.
  - eexists [_]. simpl. split; [done|]. repeat constructor. eauto.
  - by apply readsOnly_refl.
Qed.

Lemma getBitmap_io quadKey s : wlp (getBitmap quadKey) s (fun _ s' => readsOnly s s').
Proof.
  unfold getBitmap. apply wlp_bind.
  eapply wlp_mono; [apply getQuadKeyData_io|]. intros ? s1 Hio1.
  eapply wlp_mono; [apply QuadKeyData_getBitmap_io|]. intros b s2 H2.
  exact (readsOnly_trans _ _ _ (readsOnly_refl _ _ Hio1) H2).
Qed.

Lemma notify_io quadKey order visitor s :
  wlp (notify quadKey order visitor) s (fun _ s' => io s' = io s).
Proof.
  unfold notify. apply wlp_bind.
  eapply wlp_mono; [apply getQuadKeyData_io|]. intros ? s1 Hio1.
  intros out s'. unfold readIndexEntry, dataFile_read, handle, bind, gets, lift, onHandle,
    onCache, modify, ret, fail.
  intros H. repeat case_match; simplify_eq; done.
Qed.

Lemma notifyAll_io quadKey orders visitor :
  forall s, wlp (notifyAll quadKey orders visitor) s (fun _ s' => io s' = io s).
Proof.
  induction orders as [|order orders IH]; intros s; simpl.
  - intros out s' H. by inversion H.
  - apply wlp_bind. eapply wlp_mono; [apply notify_io|]. intros out s1 Hio1.
    apply wlp_bind. eapply wlp_mono; [apply IH|]. intros outs s2 Hio2.
    intros r s' H. inversion H; subst. congruence.
Qed.

Lemma BitmapIndex_searchTiles_io query visitor quadKeys :
  forall s, wlp (BitmapIndex_searchTiles query quadKeys visitor) s (fun _ s' => readsOnly s s').
Proof.
  induction quadKeys as [|quadKey quadKeys IH]; intros s; simpl.
  - intros out s' H. inversion H; subst. by apply readsOnly_refl.
  - apply wlp_bind. unfold BitmapIndex_searchTile. apply wlp_bind.
    eapply wlp_mono; [apply getBitmap_io|]. intros b s1 H1.
    eapply wlp_mono; [apply notifyAll_io|]. intros out s2 Hio2.
    apply wlp_bind. eapply wlp_mono; [apply IH|]. intros outs s3 H3.
    intros r s' H. inversion H; subst.
    exact (readsOnly_trans _ _ _ H1 (readsOnly_trans _ _ _ (readsOnly_refl _ _ Hio2) H3)).
Qed.

Lemma search_query_io query visitor cancelToken s :
  wlp (search_query query visitor cancelToken) s (fun _ s' => readsOnly s s').
Proof. unfold search_query, BitmapIndex_search. apply BitmapIndex_searchTiles_io. Qed.

End QueryEvents.

(** ** Cancellation *)

Section Cancellation.

Context {C : Collaborators} `{!CollaboratorsLaws C}.

Lemma visited_spec cancelToken n :
  forall i,
  (forall j, (j < visited cancelToken i n)%nat -> cancelToken (i + j)%nat = false)
  /\ ((visited cancelToken i n < n)%nat ->
      cancelToken (i + visited cancelToken i n)%nat = true).
Proof.
  induction n as [|n IH]; intros i; simpl.
  - split; intros; lia.
  - destruct (cancelToken i) eqn:Htok.
    + split; [intros; lia | intros _; by rewrite Nat.add_0_r].
    + destruct (IH (S i)) as [IH1 IH2]. split.
      * intros [|j] Hj; [by rewrite Nat.add_0_r|].
        replace (i + S j)%nat with (S i + j)%nat by lia. apply IH1. lia.
      * intros Hlt. replace (i + S (visited cancelToken (S i) n))%nat
          with (S i + visited cancelToken (S i) n)%nat by lia.
        apply IH2. lia.
Qed.

(** C7: the full scan polls the token once per iteration, before the entry
    is read; it delivers the entries that precede the first poll that
    observes the cancellation and none after it.  The term query takes the
    token and never polls it: its result is the same for every token. *)
Theorem scan_polls_per_entry_query_never_polls quadKey visitor cancelToken es s :
  (0 < LruCache.maxSize_ (cache_ s))%nat ->
  holds quadKey es s -> inRange quadKey s ->
  Forall validId es -> withinLimits es ->
  let c := scanCount quadKey s in
  let k := visited cancelToken 0 c in
  wp (search_quadKey quadKey visitor cancelToken) s (fun out s' =>
      out = flat_map visitor (take k es)
      /\ io s' = io s ++ replicate (polls cancelToken c) IsCancelled)
  /\ (forall j, (j < k)%nat -> cancelToken j = false)
  /\ ((k < c)%nat -> cancelToken k = true /\ polls cancelToken c = S k)
  /\ (k = c -> polls cancelToken c = c)
  /\ (forall query v tok1 tok2 s0,
        search_query query v tok1 s0 = search_query query v tok2 s0)
  /\ (forall query v tok s0,
        wlp (search_query query v tok) s0
            (fun _ s1 => cancelPolls (io s1) = cancelPolls (io s0))).
Proof.
  intros Hcap Hh Hr Hids Hlim c k.
  destruct (visited_spec cancelToken c 0) as [Hfalse Htrue]. fold k in Hfalse, Htrue.
  split; [|split; [|split; [|split; [|split]]]].
  - eapply wp_mono; [by apply search_quadKey_spec|].
    cbv zeta. intros out s' (Hout & Hio & _). done.
  - exact Hfalse.
  - intros Hlt. split; [by apply Htrue|]. unfold polls. fold k. lia.
  - intros Heq. unfold polls. fold k. lia.
  - done.
  - intros query v tok s0. eapply wlp_mono; [apply search_query_io|].
    intros out s1 Hreads. by apply readsOnly_cancelPolls.
Qed.

End Cancellation.

(** ** The geometric filter *)

Section Filter.

Context {C : Collaborators}.

Implicit Types (s : PersistentElementStoreImpl) (quadKey : QuadKey).

Lemma notify_through quadKey order visitor s :
  notify quadKey order visitor s = through visitor (notify quadKey order callerVisitor s).
Proof.
  unfold through, notify, bind, ret.
  repeat (case_match; simplify_eq/=; try done). by rewrite app_nil_r.
Qed.

Lemma notifyAll_through quadKey visitor orders :
  forall s, notifyAll quadKey orders visitor s
            = through visitor (notifyAll quadKey orders callerVisitor s).
Proof.
  induction orders as [|order orders IH]; intros s; [done|].
  cbn [notifyAll]. unfold bind, ret. rewrite notify_through. unfold through at 1.
  destruct (notify quadKey (Z.of_nat order) callerVisitor s) as [[out s1]|]; [|done].
  rewrite IH. unfold through.
  destruct (notifyAll quadKey orders callerVisitor s1) as [[outs s2]|]; [|done].
  by rewrite flat_map_app.
Qed.

Lemma BitmapIndex_searchTiles_through query visitor quadKeys :
  forall s, BitmapIndex_searchTiles query quadKeys visitor s
            = through visitor (BitmapIndex_searchTiles query quadKeys callerVisitor s).
Proof.
  induction quadKeys as [|quadKey quadKeys IH]; intros s; [done|].
  cbn [BitmapIndex_searchTiles]. unfold BitmapIndex_searchTile, bind, ret.
  destruct (getBitmap quadKey s) as [[b s1]|]; [|done].
  rewrite notifyAll_through. unfold through at 1.
  destruct (notifyAll quadKey _ callerVisitor s1) as [[out s2]|]; [|done].
  rewrite IH. unfold through.
  destruct (BitmapIndex_searchTiles query quadKeys callerVisitor s2) as [[outs s3]|]; [|done].
  by rewrite flat_map_app.
Qed.

Lemma flat_map_ElementVisitorFilter visitor pred (es : list Element) :
  flat_map (ElementVisitorFilter visitor pred) es = flat_map visitor (List.filter pred es).
Proof.
  induction es as [|e es IH]; [done|]. simpl. unfold ElementVisitorFilter at 1.
  destruct (pred e); simpl; by rewrite IH.
Qed.

(** C4: the term query hands to the caller's visitor exactly the candidates
    of the bitmap query that intersect the bounding box of the query: a
    candidate outside the box is never forwarded and a candidate that
    intersects it always is. *)
Theorem term_query_forwards_intersecting_candidates query visitor cancelToken s :
  search_query query visitor cancelToken s
  = through visitor
      (match BitmapIndex_search query callerVisitor s with
       | Some (candidates, s') =>
           Some (List.filter (fun e => intersects e (boundingBox query)) candidates, s')
       | None => None
       end)
  /\ match BitmapIndex_search query callerVisitor s with
     | Some (candidates, s') =>
         exists delivered,
           search_query query callerVisitor cancelToken s = Some (delivered, s')
           /\ forall e, e ∈ delivered
                <-> e ∈ candidates /\ intersects e (boundingBox query) = true
     | None => search_query query callerVisitor cancelToken s = None
     end.
Proof.
  assert (forall v, search_query query v cancelToken s
    = through v
        (match BitmapIndex_search query callerVisitor s with
         | Some (candidates, s') =>
             Some (List.filter (fun e => intersects e (boundingBox query)) candidates, s')
         | None => None
         end)) as Heq.
  { intros v. unfold search_query, BitmapIndex_search.
    rewrite BitmapIndex_searchTiles_through.
    destruct (BitmapIndex_searchTiles query _ callerVisitor s) as [[candidates s']|]; [|done].
    simpl. by rewrite flat_map_ElementVisitorFilter. }
  split; [apply Heq|].
  rewrite (Heq callerVisitor).
  destruct (BitmapIndex_search query callerVisitor s) as [[candidates s']|]; [|done].
  simpl. eexists. split; [done|]. intros e.
  rewrite flat_map_callerVisitor, list_elem_of_In, filter_In, <- list_elem_of_In. done.
Qed.

End Filter.

(** ** Operations that leave the store as it is *)

Section Frames.

Context {C : Collaborators}.

Implicit Types (s : PersistentElementStoreImpl) (quadKey : QuadKey).

(** C6: [erase(boundingBox, lodRange)] throws the "not implemented" error
    for every bounding box and range, and the store it leaves is the store
    it was called on: files, cache and events are unchanged. *)
Theorem erase_range_throws_and_changes_nothing (bbox : BoundingBox) (lodRange : LodRange) s :
  exists what,
    fst (erase_range bbox lodRange s) = inl (domain_error what)
    /\ what = "Deletion by bounding box and lod range is not implemented."%string
    /\ snd (erase_range bbox lodRange s) = s
    /\ fs (snd (erase_range bbox lodRange s)) = fs s
    /\ cache_ (snd (erase_range bbox lodRange s)) = cache_ s
    /\ io (snd (erase_range bbox lodRange s)) = io s.
Proof. eexists. by repeat split. Qed.

(** C10: [hasData] reports whether the data file exists and returns the
    store unchanged: no file is created and the cache keeps its entries
    and their order.  The cache-miss path of [getQuadKeyData], by
    contrast, creates the logs of a tile that has none. *)
Theorem hasData_changes_nothing quadKey s :
  hasData quadKey s
  = Some (bool_decide (is_Some (files (fs s) !! getFilePath quadKey DataFileExtension)), s)
  /\ ((0 < LruCache.maxSize_ (cache_ s))%nat ->
      LruCache.peek quadKey (cache_ s) = None ->
      files (fs s) !! getFilePath quadKey DataFileExtension = None ->
      wp (getQuadKeyData quadKey) s (fun _ s' =>
        files (fs s') !! getFilePath quadKey DataFileExtension = Some []
        /\ is_Some (files (fs s') !! getFilePath quadKey IndexFileExtension)
        /\ is_Some (LruCache.peek quadKey (cache_ s')))).
Proof.
  split; [done|]. intros Hcap Hmiss Hnone.
  eapply wp_mono; [by apply getQuadKeyData_got|]. intros h s' Hg.
  pose proof (got_peek _ _ _ _ Hg) as Hpk.
  destruct Hg as [_ _ _ _ Hcase]. rewrite Hmiss in Hcase. destruct Hcase as [-> _].
  unfold openLogs. split; [|split].
  - rewrite files_touch_ne by done. unfold touch. rewrite Hnone. simpl.
    by rewrite lookup_insert_eq.
  - apply files_touch_eq.
  - by rewrite Hpk.
Qed.

End Frames.

(** ** The lazily loaded bitmap *)

Section LazyBitmap.

Context {C : Collaborators}.

Implicit Types (s : PersistentElementStoreImpl) (quadKey : QuadKey) (h : QuadKeyData).

Lemma getBitmap_hit_spec quadKey h s :
  LruCache.peek quadKey (cache_ s) = Some h ->
  wp (getBitmap quadKey) s (fun b s' =>
    b = accessed quadKey (bitmapData_ h) (fs s)
    /\ fs s' = fs s
    /\ io s' = io s ++ accessEvents quadKey (bitmapData_ h)
    /\ handleIs quadKey (setBitmapData b h) s s').
Proof.
  intros Hp. unfold getBitmap.
  eapply wp_bind, wp_getQuadKeyData_hit; [done|]. intros s1 Hfs1 Hio1 H1.
  eapply wp_mono; [apply QuadKeyData_getBitmap_spec; exact (handleIs_peek _ _ _ _ H1)|].
  intros b s2 (Hb & Hfs2 & Hio2 & H2).
  split; [by rewrite Hb, Hfs1|]. split; [congruence|]. split; [congruence|].
  exact (handleIs_trans _ _ _ _ _ _ H1 H2).
Qed.

(** C8 (as amended): an access to the bitmap of a cached handle reads the
    blob from disk exactly when the copy in memory is empty.  Once an
    access has produced a bitmap that is not empty, the next access
    returns the copy in memory without reading the blob, and adding terms
    never empties it. *)
Theorem bitmap_read_while_memory_copy_empty quadKey h s :
  LruCache.peek quadKey (cache_ s) = Some h ->
  wp (getBitmap quadKey) s (fun b s' =>
    fs s' = fs s
    /\ (bitmapData_ h = ∅ ->
        b = BitmapStream_read (contents (fs s) (getFilePath quadKey bitmapFileExtension))
        /\ io s' = io s ++ [BitmapRead (getFilePath quadKey bitmapFileExtension)])
    /\ (bitmapData_ h <> ∅ -> b = bitmapData_ h /\ io s' = io s)
    /\ (b <> ∅ ->
        wp (getBitmap quadKey) s' (fun b' s'' => b' = b /\ io s'' = io s' /\ fs s'' = fs s')
        /\ forall terms order, BitmapIndex.add terms order b <> ∅)).
Proof.
  intros Hp. eapply wp_mono; [by apply getBitmap_hit_spec|].
  intros b s' (Hb & Hfs & Hio & Hh). unfold accessed, accessEvents in *.
  split; [done|]. split; [|split].
  - intros He. rewrite decide_True in Hb by done. by rewrite decide_True in Hio.
  - intros Hne. rewrite decide_False in Hb by done. rewrite decide_False in Hio by done.
    by rewrite app_nil_r in Hio.
  - intros Hb'. split.
    + eapply wp_mono; [apply getBitmap_hit_spec; exact (handleIs_peek _ _ _ _ Hh)|].
      intros b' s'' (Hb2 & Hfs2 & Hio2 & _). unfold accessed, accessEvents in *.
      simpl in Hb2, Hio2. rewrite decide_False in Hb2 by done.
      rewrite decide_False in Hio2 by done. by rewrite app_nil_r in Hio2.
    + intros terms order Hadd. by apply add_empty_inv in Hadd as [_ ?].
Qed.

End LazyBitmap.

(** ** Erasing a tile *)

Section Erase.

Context {C : Collaborators}.

Implicit Types (s : PersistentElementStoreImpl) (quadKey : QuadKey) (fsys : FileSystem).

Lemma files_remove_ne p q fsys : p <> q -> files (remove p fsys).2 !! q = files fsys !! q.
Proof.
  intros Hne. unfold remove. destruct (files fsys !! p); [|done].
  destruct (decide (p ∈ pinned fsys)); [done|]. simpl. by rewrite lookup_delete_ne.
Qed.

Lemma files_remove_eq p fsys :
  files (remove p fsys).2 !! p = if removeFails p fsys then files fsys !! p else None.
Proof.
  unfold removeFails, remove. destruct (files fsys !! p) eqn:Hp; simpl; [|done].
  destruct (decide (p ∈ pinned fsys)); simpl; [done|]. by rewrite lookup_delete_eq.
Qed.

Lemma pinned_remove p fsys : pinned (remove p fsys).2 = pinned fsys.
Proof.
  unfold remove. destruct (files fsys !! p); [|done]. by destruct (decide (p ∈ pinned fsys)).
Qed.

Lemma removeFails_remove_ne p q fsys :
  p <> q -> removeFails q (remove p fsys).2 = removeFails q fsys.
Proof.
  intros Hne. unfold removeFails, remove at 1 3.
  rewrite files_remove_ne, pinned_remove by done.
  destruct (files fsys !! q); [|done]. by destruct (decide (q ∈ pinned fsys)).
Qed.

Lemma removeFails_unpinned p fsys : p ∉ pinned fsys -> removeFails p fsys = true -> files fsys !! p = None.
Proof.
  unfold removeFails, remove. intros Hp. destruct (files fsys !! p); [|done].
  by rewrite decide_False.
Qed.

Lemma wp_removeOrLog path s (Q : unit -> PersistentElementStoreImpl -> Prop) :
  (forall s', fs s' = (remove path (fs s)).2 ->
     io s' = io s ++ (if removeFails path (fs s) then [CannotErase path] else []) ->
     cache_ s' = cache_ s -> Q tt s') ->
  wp (removeOrLog path) s Q.
Proof.
  intros HQ. unfold wp, removeOrLog, bind, removeFails in *.
  destruct (remove path (fs s)).1 eqn:Hf; simpl.
  - apply HQ; simpl; by rewrite ?Hf.
  - apply HQ; simpl; rewrite ?Hf, ?app_nil_r; done.
Qed.

(** A scan of a tile that has no handle and an empty or absent index log
    visits nothing and leaves the two logs in place, empty when they were
    absent. *)
Lemma search_quadKey_empty quadKey visitor cancelToken s :
  (0 < LruCache.maxSize_ (cache_ s))%nat ->
  LruCache.peek quadKey (cache_ s) = None ->
  contents (fs s) (getFilePath quadKey IndexFileExtension) = [] ->
  wp (search_quadKey quadKey visitor cancelToken) s (fun out s' =>
    out = [] /\ io s' = io s /\ fs s' = openLogs quadKey (fs s)).
Proof.
  intros Hcap Hmiss Hempty. unfold search_quadKey.
  apply wp_bind. eapply wp_mono; [by apply getQuadKeyData_got|]. intros h s1 Hg.
  pose proof (got_peek _ _ _ _ Hg) as Hpk. pose proof (got_io _ _ _ _ Hg) as Hio.
  destruct Hg as [_ _ _ _ Hcase]. rewrite Hmiss in Hcase. destruct Hcase as [Hfs ->].
  unfold fileSize at 2. rewrite Hempty. simpl.
  eapply wp_bind, wp_onHandle; [exact Hpk|]. intros s2 Hfs2 Hio2 _. apply wp_ret.
  split; [done|]. split; congruence.
Qed.

(** C5 (as amended): [erase(T)] returns normally and tries to delete each
    of the three files of [T]; every file that can be unlinked is gone
    afterwards, every failure is logged with its path and stops nothing,
    and the cache is cleared.  When the data file could be deleted,
    [hasData(T)] is false afterwards; when the data file and the index
    file could be deleted, a later full scan of [T] delivers nothing and
    leaves two empty logs, as for a new tile. *)
Theorem erase_is_best_effort quadKey s :
  (0 < LruCache.maxSize_ (cache_ s))%nat ->
  wp (erase_quadKey quadKey) s (fun _ s' =>
    exists opened,
      (opened = fs s \/ opened = openLogs quadKey (fs s))
      /\ io s' = io s ++ eraseLog quadKey opened
      /\ (forall ext, files (fs s') !! getFilePath quadKey ext
                      = if removeFails (getFilePath quadKey ext) opened
                        then files opened !! getFilePath quadKey ext else None)
      /\ (forall ext, getFilePath quadKey ext ∉ pinned (fs s) ->
                      files (fs s') !! getFilePath quadKey ext = None)
      /\ (forall p, p.1 <> quadKey -> files (fs s') !! p = files (fs s) !! p)
      /\ LruCache.itemsList_ (cache_ s') = []
      /\ (getFilePath quadKey DataFileExtension ∉ pinned (fs s) ->
          hasData quadKey s' = Some (false, s'))
      /\ (getFilePath quadKey DataFileExtension ∉ pinned (fs s) ->
          getFilePath quadKey IndexFileExtension ∉ pinned (fs s) ->
          forall visitor cancelToken,
            wp (search_quadKey quadKey visitor cancelToken) s' (fun out s'' =>
              out = [] /\ io s'' = io s'
              /\ files (fs s'') !! getFilePath quadKey DataFileExtension = Some []
              /\ files (fs s'') !! getFilePath quadKey IndexFileExtension = Some []))).
Proof.
  intros Hcap. unfold erase_quadKey.
  apply wp_bind. eapply wp_mono; [by apply getQuadKeyData_got|]. intros h s1 Hg.
  unfold QuadKeyData_erase, closeAll.
  apply wp_bind, wp_bind, wp_ret.
  apply wp_bind, wp_removeOrLog. intros s2 Hfs2 Hio2 Hc2.
  apply wp_bind, wp_removeOrLog. intros s3 Hfs3 Hio3 Hc3.
  apply wp_removeOrLog. intros s4 Hfs4 Hio4 Hc4.
  unfold wp, onCache, modify. simpl.
  set (dpath := getFilePath quadKey DataFileExtension) in *.
  set (ipath := getFilePath quadKey IndexFileExtension) in *.
  set (bpath := getFilePath quadKey bitmapFileExtension) in *.
  assert (dpath <> ipath /\ dpath <> bpath /\ ipath <> bpath) as (Hdi & Hdb & Hib) by done.
  assert (forall ext, files (fs s4) !! getFilePath quadKey ext
                      = if removeFails (getFilePath quadKey ext) (fs s1)
                        then files (fs s1) !! getFilePath quadKey ext else None) as Hfiles.
  { intros ext. rewrite Hfs4, Hfs3, Hfs2. destruct ext.
    - fold ipath. rewrite files_remove_ne, files_remove_eq by done.
      rewrite removeFails_remove_ne, files_remove_ne by done. done.
    - fold dpath. rewrite !files_remove_ne by done. apply files_remove_eq.
    - fold bpath. rewrite files_remove_eq.
      rewrite !removeFails_remove_ne, !files_remove_ne by done. done. }
  assert (pinned (fs s1) = pinned (fs s)) as Hpin by apply (got_pinned _ _ _ _ Hg).
  assert (forall ext, getFilePath quadKey ext ∉ pinned (fs s) ->
                      files (fs s4) !! getFilePath quadKey ext = None) as Hgone.
  { intros ext Hext. rewrite Hfiles.
    destruct (removeFails (getFilePath quadKey ext) (fs s1)) eqn:Hf; [|done].
    apply removeFails_unpinned; [by rewrite Hpin | done]. }
  exists (fs s1). split; [|split; [|split; [|split; [|split; [|split; [|split]]]]]].
  - destruct Hg as [_ _ _ _ Hcase]. destruct (LruCache.peek quadKey (cache_ s)).
    + left. by destruct Hcase.
    + right. by destruct Hcase.
  - rewrite Hio4, Hio3, Hio2, (got_io _ _ _ _ Hg), Hfs3, Hfs2, <- !app_assoc. f_equal.
    unfold eraseLog. fold dpath ipath bpath. simpl.
    rewrite !removeFails_remove_ne by done.
    destruct (removeFails dpath (fs s1)), (removeFails ipath (fs s1)),
      (removeFails bpath (fs s1)); done.
  - exact Hfiles.
  - exact Hgone.
  - intros [k ext] Hk. simpl in Hk. rewrite Hfs4, Hfs3, Hfs2.
    rewrite !files_remove_ne by (unfold dpath, ipath, bpath, getFilePath; congruence).
    apply (got_files _ _ _ _ _ Hg); unfold getFilePath; congruence.
  - done.
  - subst dpath ipath bpath. intros Hd. unfold hasData, gets. simpl.
    rewrite (Hgone DataFileExtension Hd). rewrite bool_decide_eq_false_2; [done|].
    by intros [? ?].
  - subst dpath ipath bpath. intros Hd Hi visitor cancelToken.
    eapply wp_mono.
    { apply search_quadKey_empty; simpl.
      - rewrite Hc4, Hc3, Hc2. by rewrite (got_maxSize _ _ _ _ Hg).
      - done.
      - unfold contents. simpl. by rewrite (Hgone IndexFileExtension Hi). }
    intros out s5 (-> & Hio5 & Hfs5). simpl in Hfs5.
    split; [done|]. split; [done|]. rewrite Hfs5. unfold openLogs.
    split.
    + rewrite files_touch_ne by done. unfold touch.
      rewrite (Hgone DataFileExtension Hd). simpl. by rewrite lookup_insert_eq.
    + unfold touch at 1. rewrite files_touch_ne by done.
      rewrite (Hgone IndexFileExtension Hi). simpl. by rewrite lookup_insert_eq.
Qed.

End Erase.

(** ** The bitmap after a store *)

Section BitmapAfterStore.

Context {C : Collaborators} `{!CollaboratorsLaws C}.

Implicit Types (s : PersistentElementStoreImpl) (quadKey : QuadKey).

(** The bitmap after a store into a tile whose handle stands at the end
    of its logs: the bit-vector of every term of the stored element has
    the bit at the insertion order of the new entry set, every bit-vector
    of the tile is at least as long as the new entry count, and the blob
    on disk has been rewritten from the bitmap in memory and reads back
    as it. *)
Theorem store_sets_term_bits_and_rewrites_blob element quadKey s :
  (0 < LruCache.maxSize_ (cache_ s))%nat ->
  atEnd quadKey s ->
  fileSize (fs s) (getFilePath quadKey IndexFileExtension) / entryWidth < 2 ^ 32 ->
  let order := Z.to_nat (fileSize (fs s) (getFilePath quadKey IndexFileExtension) / entryWidth) in
  wp (store element quadKey) s (fun _ s' =>
    exists h',
      LruCache.peek quadKey (cache_ s') = Some h'
      /\ fileSize (fs s') (getFilePath quadKey IndexFileExtension) / entryWidth
         = Z.of_nat order + 1
      /\ (forall t, t ∈ termsOf (payload element) ->
            exists bits, bitmapData_ h' !! t = Some bits
              /\ (order < length bits)%nat /\ bits !! order = Some true)
      /\ (forall t bits, bitmapData_ h' !! t = Some bits ->
            (Z.of_nat order + 1 <= Z.of_nat (length bits)))
      /\ files (fs s') !! getFilePath quadKey bitmapFileExtension
         = Some (BitmapStream_write (bitmapData_ h'))
      /\ BitmapStream_read (contents (fs s') (getFilePath quadKey bitmapFileExtension))
         = bitmapData_ h').
Proof.
  intros Hcap Hat Hlim order.
  eapply wp_mono; [by apply store_spec|]. intros [] s' Hst.
  destruct (atEnd_positions _ _ Hat) as [_ Hip].
  pose proof (stored_handle _ _ _ _ Hst) as Hh. pose proof (stored_bitmap _ _ _ _ Hst) as Hb.
  pose proof (stored_index _ _ _ _ Hst) as Hi.
  assert (0 <= fileSize (fs s) (getFilePath quadKey IndexFileExtension) / entryWidth) as Hpos.
  { apply Z.div_pos; [unfold fileSize; lia | done]. }
  rewrite Hip, u32_small in Hh, Hb by lia. fold order in Hh, Hb.
  eexists. split; [exact Hh|]. simpl.
  split; [|split; [|split; [|split]]].
  - unfold fileSize at 1. rewrite (contents_files _ _ _ Hi), length_app, length_indexEntry.
    unfold order. rewrite Z2Nat.id by done. unfold fileSize.
    rewrite Nat2Z.inj_add. change (Z.of_nat 12) with (1 * entryWidth).
    by rewrite Z.div_add.
  - intros t Ht. eexists. rewrite add_lookup, decide_True by done.
    split; [done|]. split; [|apply setBit_lookup].
    rewrite length_setBit. lia.
  - intros t bits. rewrite add_lookup.
    destruct (decide (t ∈ termsOf (payload element))).
    + intros [= <-]. rewrite length_setBit. lia.
    + destruct (bitmapOf quadKey s !! t) as [bits0|]; [|done].
      intros [= <-]. rewrite length_cover. lia.
  - exact Hb.
  - rewrite (contents_files _ _ _ Hb). apply BitmapStream_read_write.
Qed.

End BitmapAfterStore.


(** ** What the files determine *)

Section Disk.

Context {C : Collaborators}.

Implicit Types (s : PersistentElementStoreImpl) (quadKey : QuadKey) (h : QuadKeyData).

Lemma wp_Some {A} (m : M A) s Q a s' : wp m s Q -> m s = Some (a, s') -> Q a s'.
Proof. unfold wp. intros H Hm. by rewrite Hm in H. Qed.

Lemma decides_wlp {A} (m : M A) s r Q : decides m s r Q -> wlp m s (fun _ s' => Q s').
Proof.
  unfold decides, wlp. intros H a s' Hm. destruct r as [a0|]; [|congruence].
  by destruct (wp_Some _ _ _ _ _ H Hm).
Qed.

Lemma decides_result {A} (m : M A) s r Q : decides m s r Q -> fst <$> m s = r.
Proof.
  unfold decides, wp. destruct r as [a|]; [|by intros ->].
  destruct (m s) as [[out s']|]; [|done]. by intros [-> _].
Qed.

Lemma decides_bind {A B} (m : M A) (k : A -> M B) s r (kr : A -> option B)
  (Q Q' : PersistentElementStoreImpl -> Prop) :
  decides m s r Q ->
  (forall a s', r = Some a -> Q s' -> decides (k a) s' (kr a) Q') ->
  decides (bind m k) s (r ≫= kr) Q'.
Proof.
  unfold decides. intros Hm Hk. destruct r as [a|]; unfold mbind, option_bind.
  - unfold wp, bind in *. destruct (m s) as [[out s1]|]; [|done].
    destruct Hm as [-> HQ]. specialize (Hk a s1 eq_refl HQ).
    destruct (kr a); [exact Hk | by rewrite Hk].
  - unfold bind. by rewrite Hm.
Qed.

Lemma decides_mono {A} (m : M A) s r (Q Q' : PersistentElementStoreImpl -> Prop) :
  decides m s r Q -> (forall s', Q s' -> Q' s') -> decides m s r Q'.
Proof.
  unfold decides. destruct r; [|done]. intros H HQ.
  eapply wp_mono; [exact H|]. intros out s' [-> ?]. eauto.
Qed.

Lemma decides_wp {A} (m : M A) s (f : A) (Q : PersistentElementStoreImpl -> Prop) :
  wp m s (fun out s' => out = f /\ Q s') -> decides m s (Some f) Q.
Proof. done. Qed.

Lemma undisturbed_refl s : undisturbed s s.
Proof. split; [done | done |]. intros k h' Hpk. right. eauto. Qed.

Lemma undisturbed_trans s1 s2 s3 : undisturbed s1 s2 -> undisturbed s2 s3 -> undisturbed s1 s3.
Proof.
  intros [Hc1 Hm1 Hb1] [Hc2 Hm2 Hb2]. split.
  - intros p. by rewrite Hc2, Hc1.
  - congruence.
  - intros k h3 Hpk. destruct (Hb2 k h3 Hpk) as [He | (h2 & Hpk2 & Heq)]; [by left|].
    destruct (Hb1 k h2 Hpk2) as [He | (h1 & Hpk1 & Heq1)].
    + left. congruence.
    + right. exists h1. split; [done | congruence].
Qed.

Lemma undisturbed_coherent s s' : coherent s -> undisturbed s s' -> coherent s'.
Proof.
  intros Hco [Hc _ Hb] k h' Hpk Hne. rewrite Hc.
  destruct (Hb k h' Hpk) as [He | (h & Hpk0 & Heq)]; [done|].
  rewrite Heq. apply Hco; [done | by rewrite <- Heq].
Qed.

Lemma undisturbed_settled s s' : coherent s -> undisturbed s s' -> settled s s'.
Proof.
  intros Hco Hu. split; [apply Hu | apply Hu | by eapply undisturbed_coherent].
Qed.

Lemma settled_trans s1 s2 s3 : settled s1 s2 -> settled s2 s3 -> settled s1 s3.
Proof.
  intros [Hc1 Hm1 _] [Hc2 Hm2 Hco]. split; [|congruence|done].
  intros p. by rewrite Hc2, Hc1.
Qed.

Lemma got_undisturbed quadKey s h s' : got quadKey s h s' -> undisturbed s s'.
Proof.
  intros Hg. split.
  - intros p. apply (got_contents _ _ _ _ _ Hg).
  - apply (got_maxSize _ _ _ _ Hg).
  - intros k h' Hpk. destruct (decide (k = quadKey)) as [->|Hne].
    + rewrite (got_peek _ _ _ _ Hg) in Hpk. apply (inj Some) in Hpk. subst h'.
      destruct Hg as [_ _ _ _ Hcase]. destruct (LruCache.peek quadKey (cache_ s)) as [h0|].
      * destruct Hcase as [-> _]. right. eauto.
      * destruct Hcase as [_ ->]. by left.
    + right. exists h'. split; [|done]. by apply (got_others _ _ _ _ Hg).
Qed.

Lemma handleIs_undisturbed quadKey h h' s s' :
  LruCache.peek quadKey (cache_ s) = Some h ->
  handleIs quadKey h' s s' ->
  bitmapData_ h' = bitmapData_ h ->
  fs s' = fs s ->
  undisturbed s s'.
Proof.
  intros Hp [Hpk Hmax Hoth] Hbm Hfs. split.
  - intros p. by rewrite Hfs.
  - done.
  - intros k h2 Hpk2. right. destruct (decide (k = quadKey)) as [->|Hne].
    + exists h. split; [done|]. congruence.
    + exists h2. split; [|done]. by rewrite <- Hoth.
Qed.

Lemma decides_bind_wp {A B} (m : M A) (k : A -> M B) s (r : option B) Q
  (Q' : PersistentElementStoreImpl -> Prop) :
  wp m s Q -> (forall a s', Q a s' -> decides (k a) s' r Q') -> decides (bind m k) s r Q'.
Proof.
  unfold decides, wp, bind. intros Hm Hk. destruct (m s) as [[a s1]|]; [|done].
  specialize (Hk a s1 Hm). by destruct r.
Qed.

Lemma decides_onHandle {B} quadKey f h (k : unit -> M B) s (r : option B)
  (Q' : PersistentElementStoreImpl -> Prop) :
  LruCache.peek quadKey (cache_ s) = Some h ->
  (forall s', fs s' = fs s -> io s' = io s -> handleIs quadKey (f h) s s' ->
     decides (k tt) s' r Q') ->
  decides (bind (onHandle quadKey f) k) s r Q'.
Proof.
  intros Hp Hk.
  apply (decides_bind_wp _ _ _ _
           (fun _ s' => fs s' = fs s /\ io s' = io s /\ handleIs quadKey (f h) s s')).
  - by eapply wp_onHandle.
  - intros [] s' (? & ? & ?). by apply Hk.
Qed.

Lemma wp_wlp {A} (m : M A) s Q : wp m s Q -> wlp m s Q.
Proof. intros H a s' Hm. by eapply wp_Some. Qed.

Lemma readIndexEntry_decides quadKey h s :
  LruCache.peek quadKey (cache_ s) = Some h ->
  decides (readIndexEntry quadKey) s
    (let bytes := contents (fs s) (getFilePath quadKey IndexFileExtension) in
     idBytes ← readAt bytes (indexFile h) sizeof_id;
     offsetBytes ← readAt bytes (indexFile h + Z.of_nat sizeof_id) sizeof_offset;
     Some (of_bytes idBytes, of_bytes offsetBytes))
    (fun s' => fs s' = fs s /\ io s' = io s
               /\ handleIs quadKey (setIndexFile (indexFile h + entryWidth) h) s s').
Proof.
  intros Hp. cbv zeta. unfold decides, readIndexEntry.
  destruct (readAt _ (indexFile h) sizeof_id) as [idBytes|] eqn:Hid; simpl;
    [destruct (readAt _ (indexFile h + Z.of_nat sizeof_id) sizeof_offset)
       as [offsetBytes|] eqn:Hoff; simpl|].
  - apply wp_bind, (wp_handle _ h); [done|]. apply wp_bind, wp_gets.
    apply wp_bind, (wp_lift _ idBytes); [done|].
    apply wp_bind, (wp_lift _ offsetBytes); [done|].
    eapply wp_bind, wp_onHandle; [done|]. intros s' Hfs Hio Hh. by apply wp_ret.
  - unfold bind, handle, lift, gets. rewrite Hp. simpl. rewrite Hid. simpl. by rewrite Hoff.
  - unfold bind, handle, lift, gets. rewrite Hp. simpl. by rewrite Hid.
Qed.

Lemma dataFile_read_decides quadKey h i s :
  LruCache.peek quadKey (cache_ s) = Some h ->
  decides (dataFile_read quadKey i) s (recordAt (fs s) quadKey (i, dataFile h))
    (fun s' => fs s' = fs s /\ io s' = io s
               /\ exists n, handleIs quadKey (setDataFile (dataFile h + n) h) s s').
Proof.
  intros Hp. unfold decides, recordAt, dataFile_read. simpl.
  destruct (decide (0 <= dataFile h)) as [Hpos|Hneg];
    [destruct (ElementStream_read _) as [[p n]|] eqn:Hread|].
  - apply wp_bind, (wp_handle _ h); [done|]. apply wp_bind, wp_gets.
    rewrite decide_True by done. rewrite Hread.
    eapply wp_bind, wp_onHandle; [done|]. intros s' Hfs Hio Hh. apply wp_ret.
    split; [done|]. split; [done|]. split; [done|]. eauto.
  - unfold bind, handle, lift, gets. rewrite Hp. simpl.
    rewrite decide_True by done. by rewrite Hread.
  - unfold bind, handle, lift, gets. rewrite Hp. simpl. by rewrite decide_False.
Qed.

Lemma entryAt_ext fsys fsys' quadKey order :
  (forall p, contents fsys' p = contents fsys p) ->
  entryAt fsys' quadKey order = entryAt fsys quadKey order.
Proof. intros H. unfold entryAt. by rewrite H. Qed.

Lemma recordAt_ext fsys fsys' quadKey entry :
  (forall p, contents fsys' p = contents fsys p) ->
  recordAt fsys' quadKey entry = recordAt fsys quadKey entry.
Proof. intros H. unfold recordAt. by rewrite H. Qed.

Lemma elementAt_ext fsys fsys' quadKey order :
  (forall p, contents fsys' p = contents fsys p) ->
  elementAt fsys' quadKey order = elementAt fsys quadKey order.
Proof.
  intros H. unfold elementAt. rewrite (entryAt_ext _ _ _ _ H).
  destruct (entryAt fsys quadKey order); [|done]. simpl. by apply recordAt_ext.
Qed.

Lemma elementsAt_ext fsys fsys' quadKey orders visitor :
  (forall p, contents fsys' p = contents fsys p) ->
  elementsAt fsys' quadKey orders visitor = elementsAt fsys quadKey orders visitor.
Proof.
  intros H. induction orders as [|order orders IH]; [done|]. simpl.
  by rewrite (elementAt_ext _ _ _ _ H), IH.
Qed.

Lemma tilesMatches_ext fsys fsys' query quadKeys visitor :
  (forall p, contents fsys' p = contents fsys p) ->
  tilesMatches fsys' query quadKeys visitor = tilesMatches fsys query quadKeys visitor.
Proof.
  intros H. induction quadKeys as [|quadKey quadKeys IH]; [done|]. simpl.
  unfold tileMatches. by rewrite (elementsAt_ext _ _ _ _ _ H), H, IH.
Qed.

(** [notify] delivers the element that the files hold at [order], and
    fails when they hold none. *)
Lemma notify_decides quadKey order visitor s :
  (0 < LruCache.maxSize_ (cache_ s))%nat ->
  decides (notify quadKey order visitor) s
    (visitor <$> elementAt (fs s) quadKey order) (undisturbed s).
Proof.
  intros Hcap. unfold notify.
  eapply decides_bind_wp; [by apply getQuadKeyData_got|]. intros h1 s1 Hg.
  pose proof (got_undisturbed _ _ _ _ Hg) as Hu1.
  eapply decides_onHandle; [exact (got_peek _ _ _ _ Hg)|]. intros s2 Hfs2 Hio2 H2.
  assert (visitor <$> elementAt (fs s) quadKey order
          = entryAt (fs s2) quadKey order
              ≫= (fun entry => visitor <$> recordAt (fs s2) quadKey entry)) as ->.
  { unfold elementAt. rewrite Hfs2.
    rewrite (entryAt_ext _ _ _ _ (undisturbed_contents _ _ Hu1)).
    destruct (entryAt (fs s) quadKey order) as [entry|]; [|done]. simpl.
    by rewrite (recordAt_ext _ _ _ _ (undisturbed_contents _ _ Hu1)). }
  eapply decides_bind.
  { apply (readIndexEntry_decides quadKey _ s2 (handleIs_peek _ _ _ _ H2)). }
  intros [i off] s3 _ (Hfs3 & Hio3 & H3).
  eapply decides_onHandle; [exact (handleIs_peek _ _ _ _ H3)|]. intros s4 Hfs4 Hio4 H4.
  cbn [fst snd].
  assert (visitor <$> recordAt (fs s2) quadKey (i, off)
          = recordAt (fs s4) quadKey (i, off) ≫= (fun element => Some (visitor element))) as ->.
  { rewrite Hfs4, Hfs3. by destruct (recordAt (fs s2) quadKey (i, off)). }
  eapply decides_bind.
  { apply (dataFile_read_decides quadKey _ i s4 (handleIs_peek _ _ _ _ H4)). }
  intros element s5 _ (Hfs5 & Hio5 & n & H5). apply decides_wp, wp_ret. split; [done|].
  eapply undisturbed_trans; [exact Hu1|].
  eapply (handleIs_undisturbed quadKey h1 _ s1 s5 (got_peek _ _ _ _ Hg)).
  - exact (handleIs_trans _ _ _ _ _ _
             (handleIs_trans _ _ _ _ _ _ (handleIs_trans _ _ _ _ _ _ H2 H3) H4) H5).
  - done.
  - congruence.
Qed.

Lemma notifyAll_decides quadKey visitor orders :
  forall s, (0 < LruCache.maxSize_ (cache_ s))%nat ->
  decides (notifyAll quadKey orders visitor) s
    (elementsAt (fs s) quadKey orders visitor) (undisturbed s).
Proof.
  induction orders as [|order orders IH]; intros s Hcap.
  - apply decides_wp, wp_ret. split; [done | apply undisturbed_refl].
  - cbn [notifyAll elementsAt].
    replace (element ← elementAt (fs s) quadKey (Z.of_nat order);
             outs ← elementsAt (fs s) quadKey orders visitor;
             Some (visitor element ++ outs))
      with ((visitor <$> elementAt (fs s) quadKey (Z.of_nat order))
              ≫= (fun out => outs ← elementsAt (fs s) quadKey orders visitor;
                             Some (out ++ outs)))
      by (by destruct (elementAt (fs s) quadKey (Z.of_nat order))).
    eapply decides_bind; [by apply notify_decides|].
    intros out s1 _ Hu1.
    rewrite <- (elementsAt_ext _ _ _ _ _ (undisturbed_contents _ _ Hu1)).
    eapply decides_bind.
    { apply IH. rewrite (undisturbed_maxSize _ _ Hu1). exact Hcap. }
    intros outs s2 _ Hu2. apply decides_wp, wp_ret. split; [done|].
    by eapply undisturbed_trans.
Qed.

Lemma settled_refl s : coherent s -> settled s s.
Proof. by split. Qed.

(** An access to the bitmap of a tile yields what the blob holds. *)
Lemma getBitmap_settles quadKey s :
  (0 < LruCache.maxSize_ (cache_ s))%nat -> coherent s ->
  wp (getBitmap quadKey) s (fun b s' =>
    b = BitmapStream_read (contents (fs s) (getFilePath quadKey bitmapFileExtension))
    /\ settled s s').
Proof.
  intros Hcap Hco. unfold getBitmap.
  apply wp_bind. eapply wp_mono; [by apply getQuadKeyData_got|]. intros h1 s1 Hg.
  pose proof (got_undisturbed _ _ _ _ Hg) as Hu1.
  pose proof (undisturbed_coherent _ _ Hco Hu1) as Hco1.
  pose proof (got_peek _ _ _ _ Hg) as Hpk1.
  eapply wp_mono; [by apply QuadKeyData_getBitmap_spec|].
  intros b s2 (Hb & Hfs2 & Hio2 & [Hpk2 Hmax2 Hoth2]).
  assert (b = BitmapStream_read (contents (fs s1) (getFilePath quadKey bitmapFileExtension)))
    as Hb'.
  { rewrite Hb. unfold accessed. destruct (decide (bitmapData_ h1 = ∅)); [done|].
    by apply Hco1. }
  split; [by rewrite Hb', (undisturbed_contents _ _ Hu1)|].
  split.
  - intros p. rewrite Hfs2. apply (undisturbed_contents _ _ Hu1).
  - rewrite Hmax2. apply (undisturbed_maxSize _ _ Hu1).
  - intros k h Hpk Hne. rewrite Hfs2. destruct (decide (k = quadKey)) as [->|Hk].
    + rewrite Hpk2 in Hpk. apply (inj Some) in Hpk. subst h. simpl. exact Hb'.
    + rewrite Hoth2 in Hpk by done. by apply Hco1.
Qed.

Lemma BitmapIndex_searchTiles_decides query visitor quadKeys :
  forall s, (0 < LruCache.maxSize_ (cache_ s))%nat -> coherent s ->
  decides (BitmapIndex_searchTiles query quadKeys visitor) s
    (tilesMatches (fs s) query quadKeys visitor) (settled s).
Proof.
  induction quadKeys as [|quadKey quadKeys IH]; intros s Hcap Hco.
  - apply decides_wp, wp_ret. split; [done | by apply settled_refl].
  - cbn [BitmapIndex_searchTiles tilesMatches]. unfold BitmapIndex_searchTile, tileMatches.
    eapply decides_bind.
    { eapply decides_bind_wp; [by apply getBitmap_settles|].
      intros b s1 [-> Hs1].
      rewrite <- (elementsAt_ext _ _ _ _ _ (settled_contents _ _ Hs1)).
      eapply decides_mono.
      - apply notifyAll_decides. rewrite (settled_maxSize _ _ Hs1). exact Hcap.
      - intros s2 Hu2. exact (settled_trans _ _ _ Hs1
                                (undisturbed_settled _ _ (settled_coherent _ _ Hs1) Hu2)). }
    intros out s2 _ Hs2.
    rewrite <- (tilesMatches_ext _ _ _ _ _ (settled_contents _ _ Hs2)).
    eapply decides_bind.
    { apply IH; [rewrite (settled_maxSize _ _ Hs2); exact Hcap | apply Hs2]. }
    intros outs s3 _ Hs3. apply decides_wp, wp_ret. split; [done|].
    by eapply settled_trans.
Qed.

(** The term query returns what the files determine, whatever the cache
    holds, as long as the bitmaps in memory agree with the blobs. *)
Lemma search_query_decides query visitor cancelToken s :
  (0 < LruCache.maxSize_ (cache_ s))%nat -> coherent s ->
  decides (search_query query visitor cancelToken) s
    (queryResult (fs s) query visitor) (settled s).
Proof.
  intros Hcap Hco. unfold search_query, BitmapIndex_search, queryResult.
  by apply BitmapIndex_searchTiles_decides.
Qed.

(** The full scan changes no file and no bitmap. *)
Lemma search_loop_undisturbed quadKey visitor cancelToken n :
  forall i s h,
  LruCache.peek quadKey (cache_ s) = Some h ->
  wlp (search_loop quadKey visitor cancelToken i n) s (fun _ s' =>
    fs s' = fs s
    /\ exists h', handleIs quadKey h' s s' /\ bitmapData_ h' = bitmapData_ h).
Proof.
  induction n as [|n IH]; intros i s h Hp.
  - intros out s' Hret. inversion Hret; subst. split; [done|].
    exists h. split; [by apply handleIs_refl | done].
  - cbn [search_loop].
    apply wlp_bind, wp_wlp, wp_emit. intros s1 Hfs1 Hio1 Hc1.
    pose proof (handleIs_cache_eq quadKey h s s1 Hc1 Hp) as H1.
    destruct (cancelToken i).
    { intros out s' Hret. inversion Hret; subst. split; [done|]. eauto. }
    apply wlp_bind.
    eapply wlp_mono; [apply (decides_wlp _ _ _ _
                               (readIndexEntry_decides quadKey h s1 (handleIs_peek _ _ _ _ H1)))|].
    intros entry s2 (Hfs2 & Hio2 & H2).
    apply wlp_bind, wp_wlp. eapply wp_onHandle; [exact (handleIs_peek _ _ _ _ H2)|].
    intros s3 Hfs3 Hio3 H3.
    apply wlp_bind.
    eapply wlp_mono; [apply (decides_wlp _ _ _ _
                               (dataFile_read_decides quadKey _ entry.1 s3
                                  (handleIs_peek _ _ _ _ H3)))|].
    intros element s4 (Hfs4 & Hio4 & m & H4).
    apply wlp_bind.
    eapply wlp_mono; [apply (IH (S i) s4 _ (handleIs_peek _ _ _ _ H4))|].
    intros rest s5 (Hfs5 & h' & H5 & Hbm).
    intros out s' Hret. inversion Hret; subst.
    split; [congruence|]. exists h'. split; [|by rewrite Hbm].
    exact (handleIs_trans _ _ _ _ _ _
             (handleIs_trans _ _ _ _ _ _
                (handleIs_trans _ _ _ _ _ _ (handleIs_trans _ _ _ _ _ _ H1 H2) H3) H4) H5).
Qed.

Lemma search_quadKey_undisturbed quadKey visitor cancelToken s :
  (0 < LruCache.maxSize_ (cache_ s))%nat ->
  wlp (search_quadKey quadKey visitor cancelToken) s (fun _ s' => undisturbed s s').
Proof.
  intros Hcap. unfold search_quadKey.
  apply wlp_bind, wp_wlp. eapply wp_mono; [by apply getQuadKeyData_got|]. intros h1 s1 Hg.
  apply wlp_bind, wp_wlp. eapply wp_onHandle; [exact (got_peek _ _ _ _ Hg)|].
  intros s2 Hfs2 Hio2 H2.
  eapply wlp_mono; [apply (search_loop_undisturbed _ _ _ _ _ s2 _ (handleIs_peek _ _ _ _ H2))|].
  intros out s3 (Hfs3 & h' & H3 & Hbm).
  eapply undisturbed_trans; [exact (got_undisturbed _ _ _ _ Hg)|].
  eapply (handleIs_undisturbed quadKey h1 h' s1 s3 (got_peek _ _ _ _ Hg)).
  - exact (handleIs_trans _ _ _ _ _ _ H2 H3).
  - by rewrite Hbm.
  - congruence.
Qed.

End Disk.

(** ** Reachable stores and flush *)

Section Flush.

Context {C : Collaborators} `{!CollaboratorsLaws C}.

Implicit Types (s : PersistentElementStoreImpl) (quadKey : QuadKey).

Lemma peek_nil quadKey (c : LruCache.t) :
  LruCache.itemsList_ c = [] -> LruCache.peek quadKey c = None.
Proof. unfold LruCache.peek. by intros ->. Qed.

Lemma coherent_nil s : LruCache.itemsList_ (cache_ s) = [] -> coherent s.
Proof. intros Hnil k h Hpk. by rewrite peek_nil in Hpk. Qed.

Lemma stored_coherent element quadKey s s' :
  coherent s -> stored element quadKey s s' -> coherent s'.
Proof.
  intros Hco Hst k h Hpk Hne. destruct (decide (k = quadKey)) as [->|Hk].
  - rewrite (stored_handle _ _ _ _ Hst) in Hpk. apply (inj Some) in Hpk. subst h. simpl.
    rewrite (contents_files _ _ _ (stored_bitmap _ _ _ _ Hst)).
    by rewrite BitmapStream_read_write.
  - pose proof (stored_others _ _ _ _ Hst k h Hk Hpk) as Hpk0.
    unfold contents. rewrite (stored_files _ _ _ _ Hst) by done.
    by apply Hco.
Qed.

Lemma erase_quadKey_clears quadKey s :
  wlp (erase_quadKey quadKey) s (fun _ s' =>
    LruCache.itemsList_ (cache_ s') = []
    /\ ((0 < LruCache.maxSize_ (cache_ s))%nat ->
        LruCache.maxSize_ (cache_ s') = LruCache.maxSize_ (cache_ s))).
Proof.
  unfold erase_quadKey. intros r s' Hrun. unfold bind in Hrun.
  destruct (getQuadKeyData quadKey s) as [[h s1]|] eqn:Hget; [|done].
  destruct (QuadKeyData_erase quadKey s1) as [[[] s2]|] eqn:Her; [|done].
  unfold onCache, modify in Hrun. inversion Hrun; subst. simpl. split; [done|].
  intros Hcap.
  pose proof (wp_Some _ _ _ _ _ (getQuadKeyData_got quadKey s Hcap) Hget) as Hg.
  rewrite <- (got_maxSize _ _ _ _ Hg). f_equal.
  revert Her. unfold QuadKeyData_erase, closeAll, removeOrLog, bind, ret, emit, modify.
  intros Her. repeat case_match; simplify_eq; done.
Qed.

(** The stores that the operations produce keep the cache at its capacity
    of 12 and every bitmap in memory equal to its blob. *)
Lemma reachable_invariant s :
  reachable s -> LruCache.maxSize_ (cache_ s) = 12%nat /\ coherent s.
Proof.
  induction 1 as [fsys
                 | element quadKey s s' _ [Hmax Hco] Hrun
                 | nots ands ors bbox lodRange visitor cancelToken s out s' _ [Hmax Hco] Hrun
                 | quadKey visitor cancelToken s out s' _ [Hmax Hco] Hrun
                 | quadKey s b s' _ [Hmax Hco] Hrun
                 | quadKey s s' _ [Hmax Hco] Hrun
                 | bbox lodRange s _ [Hmax Hco]
                 | s s' _ [Hmax Hco] Hrun].
  - split; [done | by apply coherent_nil].
  - assert (0 < LruCache.maxSize_ (cache_ s))%nat as Hcap by lia.
    pose proof (wp_Some _ _ _ _ _ (store_spec element quadKey s Hcap) Hrun) as Hst.
    cbv beta in Hst. split; [by rewrite (stored_maxSize _ _ _ _ Hst) | by eapply stored_coherent].
  - assert (0 < LruCache.maxSize_ (cache_ s))%nat as Hcap by lia.
    pose proof (decides_wlp _ _ _ _ (search_query_decides _ visitor cancelToken s Hcap Hco)
                  _ _ Hrun) as Hs.
    cbv beta in Hs. split; [by rewrite (settled_maxSize _ _ Hs) | apply Hs].
  - assert (0 < LruCache.maxSize_ (cache_ s))%nat as Hcap by lia.
    pose proof (search_quadKey_undisturbed quadKey visitor cancelToken s Hcap _ _ Hrun) as Hu.
    cbv beta in Hu. split; [by rewrite (undisturbed_maxSize _ _ Hu) | by eapply undisturbed_coherent].
  - unfold hasData, gets in Hrun. by inversion Hrun; subst.
  - destruct (erase_quadKey_clears quadKey s _ _ Hrun) as [Hnil Hkeep].
    split; [rewrite Hkeep; [done | lia] | by apply coherent_nil].
  - done.
  - unfold flush, onCache, modify in Hrun. inversion Hrun; subst.
    split; [done | by apply coherent_nil].
Qed.

(** C9: [flush] clears the cache and changes no file.  In every store that
    the operations produce, a term query returns after the flush what it
    returned before, namely what the files determine; and for a tile
    whose logs hold [es], a full scan after the flush delivers all of
    [es], of which a scan before the flush delivered the first
    [scanCount] entries. *)
Theorem flush_keeps_stored_data s :
  reachable s ->
  wp flush s (fun _ s' =>
    fs s' = fs s /\ io s' = io s /\ LruCache.itemsList_ (cache_ s') = []
    /\ (forall query visitor cancelToken,
          fst <$> search_query query visitor cancelToken s'
          = fst <$> search_query query visitor cancelToken s
          /\ fst <$> search_query query visitor cancelToken s
             = queryResult (fs s) query visitor)
    /\ (forall quadKey es visitor,
          holds quadKey es s -> inRange quadKey s ->
          Forall validId es -> withinLimits es ->
          wp (search_quadKey quadKey visitor neverCancelled) s
             (fun out _ => out = flat_map visitor (take (scanCount quadKey s) es))
          /\ wp (search_quadKey quadKey visitor neverCancelled) s'
               (fun out _ => out = flat_map visitor es))).
Proof.
  intros Hreach. destruct (reachable_invariant s Hreach) as [Hmax Hco].
  assert (0 < LruCache.maxSize_ (cache_ s))%nat as Hcap by lia.
  unfold wp, flush, onCache, modify.
  set (s' := mkStore (fs s) (LruCache.clear (cache_ s)) (io s)).
  split; [done|]. split; [done|]. split; [done|]. split.
  - intros query visitor cancelToken.
    rewrite (decides_result _ _ _ _ (search_query_decides query visitor cancelToken s Hcap Hco)).
    split; [|done].
    apply (decides_result _ _ _ (settled s')).
    apply (search_query_decides query visitor cancelToken s'); [exact Hcap|].
    by apply coherent_nil.
  - intros quadKey es visitor Hh Hr Hids Hlim. split.
    + eapply wp_mono; [by apply search_quadKey_spec|].
      cbv zeta. intros out s1 (-> & _ & _). by rewrite visited_never.
    + assert (holds quadKey es s') as Hh' by exact Hh.
      assert (atEnd quadKey s') as Hat by (intros h Hpk; discriminate Hpk).
      eapply wp_mono.
      { apply (search_quadKey_spec quadKey visitor neverCancelled es s');
          [exact Hcap | done | by apply atEnd_inRange | done | done]. }
      cbv zeta. intros out s1 (-> & _ & _).
      by rewrite (atEnd_scanCount _ _ _ Hh' Hat), visited_never, firstn_all.
Qed.

End Flush.
(** ** Runs on concrete inputs *)

Module Runs.

Import Toy ToyFacts Example.

Lemma twoSaved_run :
  result (save A T) create = Some tt
  /\ result (save B T) (exec (save A T) create) = Some tt.
Proof. split; vm_compute; reflexivity. Qed.

Lemma twoSaved_holds : holds T [A; B] twoSaved.
Proof. split; vm_compute; reflexivity. Qed.

Lemma twoSaved_atEnd : atEnd T twoSaved.
Proof. intros h Hh. vm_compute in Hh. injection Hh as <-. split; vm_compute; reflexivity. Qed.

Lemma twoSaved_maxSize : (0 < LruCache.maxSize_ (cache_ twoSaved))%nat.
Proof. vm_compute. lia. Qed.

Lemma validId_examples : Forall validId [A; B].
Proof. repeat constructor; unfold validId; simpl; lia. Qed.

Lemma withinLimits_examples : withinLimits [A; B].
Proof. split; vm_compute; reflexivity. Qed.

Lemma save_then_scan_delivers_in_order_witness :
  wp (do! saveAll [A; B] T in search_quadKey T callerVisitor neverCancelled) create
     (fun out _ => out = [] ++ [A; B] /\ forall e, e ∈ [A; B] -> e ∈ out).
Proof.
  apply (save_then_scan_delivers_in_order T [] [A; B] create).
  - simpl. lia.
  - split; reflexivity.
  - intros h Hh. discriminate Hh.
  - exact validId_examples.
  - exact withinLimits_examples.
Defined.

(** C2, on concrete runs: [A] and [B] are saved under [T]; then a full
    scan is cancelled after its first entry, or a term query decodes [A];
    then [E] is saved.  In both runs the data log ends at 28 and the index
    log holds two entries when [E] is saved, but the entry written for [E]
    carries the offset 12 and [E] is indexed under the insertion order 1:
    both are the positions that the read left behind.  A full scan then
    delivers the payload of [B] under the identifier of [E]. *)
Theorem store_after_partial_read_uses_stale_positions :
  (delivered (search_quadKey T callerVisitor cancelledAtSecondPoll) twoSaved = Some [a1]
   /\ fileSize (fs afterCancelledScan) (getFilePath T DataFileExtension) = 28
   /\ fileSize (fs afterCancelledScan) (getFilePath T IndexFileExtension) / entryWidth = 2
   /\ dataPos T afterCancelledScan = 12
   /\ indexPos T afterCancelledScan / entryWidth = 1
   /\ result (store E T) afterCancelledScan = Some tt
   /\ drop 24 (contents (fs storedAfterScan) (getFilePath T IndexFileExtension))
      = indexEntry (id E) 12
   /\ bitsOf "a" storedAfterScan = Some [true; true]
   /\ bitsOf "b" storedAfterScan = Some [false; true]
   /\ delivered (search_quadKey T callerVisitor neverCancelled) storedAfterScan
      = Some [a1; b5; (id E, payload B)])
  /\ (delivered (search_query queryA callerVisitor neverCancelled) twoSaved = Some [a1]
      /\ fileSize (fs afterQuery) (getFilePath T DataFileExtension) = 28
      /\ fileSize (fs afterQuery) (getFilePath T IndexFileExtension) / entryWidth = 2
      /\ dataPos T afterQuery = 12
      /\ indexPos T afterQuery / entryWidth = 1
      /\ result (store E T) afterQuery = Some tt
      /\ drop 24 (contents (fs afterStore) (getFilePath T IndexFileExtension))
         = indexEntry (id E) 12
      /\ bitsOf "a" afterStore = Some [true; true]
      /\ bitsOf "b" afterStore = Some [false; true]
      /\ delivered (search_quadKey T callerVisitor neverCancelled) afterStore
         = Some [a1; b5; (id E, payload B)]).
Proof. repeat split; vm_compute; reflexivity. Qed.

Lemma store_sets_term_bits_and_rewrites_blob_witness :
  wp (store E T) twoSaved (fun _ s' =>
    exists h',
      LruCache.peek T (cache_ s') = Some h'
      /\ (forall t, t ∈ termsOf (payload E) ->
            exists bits, bitmapData_ h' !! t = Some bits
              /\ (2 < length bits)%nat /\ bits !! 2%nat = Some true)
      /\ BitmapStream_read (contents (fs s') (getFilePath T bitmapFileExtension))
         = bitmapData_ h').
Proof.
  assert (Z.to_nat (fileSize (fs twoSaved) (getFilePath T IndexFileExtension) / entryWidth)
          = 2%nat) as Horder by (vm_compute; reflexivity).
  eapply wp_mono.
  - apply (store_sets_term_bits_and_rewrites_blob E T twoSaved).
    + exact twoSaved_maxSize.
    + exact twoSaved_atEnd.
    + vm_compute. reflexivity.
  - cbv zeta. rewrite Horder. intros [] s' (h' & Hpk & _ & Hbits & _ & _ & Hread). eauto.
Defined.

(** C5 as stated does not hold: when the data file of [T] cannot be
    unlinked, [erase(T)] returns normally, logs the failure, and
    [hasData(T)] is still true. *)
Lemma erase_leaves_data_that_cannot_be_deleted :
  result (erase_quadKey T) pinnedStore = Some tt
  /\ result (hasData T) erasedPinned = Some true
  /\ io erasedPinned = [CannotErase (getFilePath T DataFileExtension);
                        CannotErase (getFilePath T bitmapFileExtension)].
Proof. repeat split; vm_compute; reflexivity. Qed.

Lemma erase_is_best_effort_witness :
  wp (erase_quadKey T) twoSaved (fun _ s' =>
    hasData T s' = Some (false, s') /\ LruCache.itemsList_ (cache_ s') = []).
Proof.
  eapply wp_mono; [apply (erase_is_best_effort T twoSaved); exact twoSaved_maxSize|].
  intros [] s' (opened & _ & _ & _ & _ & _ & Hcache & Hhas & _).
  split; [|done]. apply Hhas.
  replace (pinned (fs twoSaved)) with (∅ : gset Path) by (vm_compute; reflexivity).
  apply not_elem_of_empty.
Defined.

(** C8 as stated does not hold: the handle of a tile without terms keeps
    an empty bitmap in memory, and every access reads the blob again. *)
Lemma empty_bitmap_is_read_on_every_access :
  is_Some (result (getQuadKeyData T) create)
  /\ is_Some (result (getBitmap T) opened)
  /\ is_Some (result (getBitmap T) accessedOnce)
  /\ io opened = []
  /\ io accessedOnce = [BitmapRead (getFilePath T bitmapFileExtension)]
  /\ io accessedTwice = [BitmapRead (getFilePath T bitmapFileExtension);
                         BitmapRead (getFilePath T bitmapFileExtension)].
Proof. repeat split; vm_compute; eauto. Qed.

Lemma bitmap_read_while_memory_copy_empty_witness :
  exists h,
    LruCache.peek T (cache_ twoSaved) = Some h
    /\ wp (getBitmap T) twoSaved (fun b s' => b = bitmapData_ h /\ io s' = io twoSaved).
Proof.
  destruct (LruCache.peek T (cache_ twoSaved)) as [h|] eqn:Hpk;
    [|vm_compute in Hpk; discriminate Hpk].
  exists h. split; [done|].
  eapply wp_mono; [apply (bitmap_read_while_memory_copy_empty T h twoSaved Hpk)|].
  intros b s' (_ & _ & Hmem & _). apply Hmem.
  vm_compute in Hpk. injection Hpk as <-. vm_compute. discriminate.
Defined.

Lemma scan_polls_per_entry_query_never_polls_witness :
  wp (search_quadKey T callerVisitor cancelledAtSecondPoll) twoSaved (fun out s' =>
      out = [A] /\ io s' = io twoSaved ++ [IsCancelled; IsCancelled]).
Proof.
  pose proof (scan_polls_per_entry_query_never_polls T callerVisitor cancelledAtSecondPoll
                [A; B] twoSaved twoSaved_maxSize twoSaved_holds
                (atEnd_inRange _ _ twoSaved_atEnd) validId_examples withinLimits_examples)
    as [H _].
  eapply wp_mono; [exact H|]. intros out s' [-> ->].
  rewrite (atEnd_scanCount _ _ _ twoSaved_holds twoSaved_atEnd). done.
Defined.

Lemma hasData_changes_nothing_witness :
  hasData T create = Some (false, create)
  /\ wp (getQuadKeyData T) create (fun _ s' =>
       files (fs s') !! getFilePath T DataFileExtension = Some []).
Proof.
  destruct (hasData_changes_nothing T create) as [Hhas Hget].
  split; [exact Hhas|].
  eapply wp_mono; [apply Hget; [simpl; lia | reflexivity | reflexivity]|].
  by intros h s' (-> & _).
Defined.

(** The three queries of the spec on elements tagged [a], [b] and both,
    and a query whose box leaves [B] out. *)
Lemma boolean_queries_on_three_elements :
  delivered (search_query queryAnd callerVisitor neverCancelled) threeSaved = Some [ab2]
  /\ delivered (search_query queryOr callerVisitor neverCancelled) threeSaved
     = Some [a1; b5; ab2]
  /\ delivered (search_query queryNot callerVisitor neverCancelled) threeSaved = Some [a1]
  /\ delivered (BitmapIndex_search queryLeft callerVisitor) threeSaved = Some [a1; b5; ab2]
  /\ delivered (search_query queryLeft callerVisitor neverCancelled) threeSaved
     = Some [a1; ab2].
Proof. repeat split; vm_compute; reflexivity. Qed.

Lemma afterQuery_reachable : reachable afterQuery.
Proof.
  eapply (reachable_search (C := collaborators) EmptyString EmptyString "a"
            (0%nat, 9%nat) (1%nat, 1%nat)
            callerVisitor neverCancelled twoSaved [A] afterQuery);
    [|vm_compute; reflexivity].
  eapply (reachable_save B T (exec (save A T) create) twoSaved); [|vm_compute; reflexivity].
  eapply (reachable_save A T create); [|vm_compute; reflexivity].
  apply (reachable_create (mkFS ∅ ∅)).
Qed.

Lemma afterQuery_holds : holds T [A; B] afterQuery.
Proof. split; vm_compute; reflexivity. Qed.

Lemma afterQuery_inRange : inRange T afterQuery.
Proof.
  unfold inRange.
  replace (indexPos T afterQuery) with 12 by (vm_compute; reflexivity).
  replace (fileSize (fs afterQuery) (getFilePath T IndexFileExtension)) with 24
    by (vm_compute; reflexivity).
  lia.
Qed.

Lemma flush_keeps_stored_data_witness :
  wp flush afterQuery (fun _ s' =>
    fs s' = fs afterQuery
    /\ wp (search_quadKey T callerVisitor neverCancelled) afterQuery
         (fun out _ => out = [A])
    /\ wp (search_quadKey T callerVisitor neverCancelled) s'
         (fun out _ => out = [A; B])).
Proof.
  eapply wp_mono; [apply (flush_keeps_stored_data afterQuery afterQuery_reachable)|].
  intros [] s' (Hfs & _ & _ & _ & Hscan).
  destruct (Hscan T [A; B] callerVisitor afterQuery_holds afterQuery_inRange
              validId_examples withinLimits_examples) as [Hbefore Hafter].
  split; [exact Hfs|]. split.
  - eapply wp_mono; [exact Hbefore|]. intros out s1 ->.
    replace (scanCount T afterQuery) with 1%nat by (vm_compute; reflexivity). done.
  - exact Hafter.
Defined.

Lemma twoSaved_reachable : reachable twoSaved.
Proof.
  eapply (reachable_save B T (exec (save A T) create) twoSaved); [|vm_compute; reflexivity].
  eapply (reachable_save A T create); [|vm_compute; reflexivity].
  apply (reachable_create (mkFS ∅ ∅)).
Qed.

Lemma afterCancelledScan_reachable : reachable afterCancelledScan.
Proof.
  eapply (reachable_scan (C := collaborators) T callerVisitor cancelledAtSecondPoll
            twoSaved [A] afterCancelledScan);
    [exact twoSaved_reachable | vm_compute; reflexivity].
Qed.

(** C1, on concrete runs of the public operations.  [A] and [B] are saved
    under [T]; a full scan is cancelled after its first entry, or a term
    query decodes [A]; then [E] is saved and [T] is scanned in full.  The
    scan delivers three elements, the third with the identifier of [E]
    and the payload of [B]: [E] as it was saved is not among them.  And
    the full scan that follows the cancelled one without a save in
    between delivers [A] only: [B], saved before, is not delivered. *)
Theorem save_after_partial_read_is_not_read_back :
  (reachable afterCancelledScan
   /\ result (save E T) afterCancelledScan = Some tt
   /\ delivered (search_quadKey T callerVisitor neverCancelled) storedAfterScan
      = Some [a1; b5; (id E, payload B)]
   /\ ab2 ∉ [a1; b5; (id E, payload B)])
  /\ (reachable afterQuery
      /\ result (save E T) afterQuery = Some tt
      /\ delivered (search_quadKey T callerVisitor neverCancelled) afterStore
         = Some [a1; b5; (id E, payload B)])
  /\ (result (save B T) (exec (save A T) create) = Some tt
      /\ delivered (search_quadKey T callerVisitor neverCancelled) afterCancelledScan
         = Some [a1]
      /\ b5 ∉ [a1]).
Proof.
  split; [|split].
  - split; [exact afterCancelledScan_reachable|].
    split; [vm_compute; reflexivity|]. split; [vm_compute; reflexivity|].
    intros Hin. repeat (apply elem_of_cons in Hin as [Hin|Hin]; [discriminate Hin|]).
    by apply elem_of_nil in Hin.
  - split; [exact afterQuery_reachable|]. split; vm_compute; reflexivity.
  - split; [vm_compute; reflexivity|]. split; [vm_compute; reflexivity|].
    intros Hin. repeat (apply elem_of_cons in Hin as [Hin|Hin]; [discriminate Hin|]).
    by apply elem_of_nil in Hin.
Qed.

(** C3, on a concrete run of the public operations.  [A] and [B] are
    saved under [T], a full scan is cancelled after its first entry, and
    [E], which carries the terms [a] and [b], is stored.  The entry of [E]
    is the third of the index log, at insertion order 2, and the blob is
    rewritten from the bitmap in memory; but [store] passed the order 1
    to the bitmap index, the position that the scan left behind: bit 2 of
    neither term is set, both bit-vectors have length 2 with 3 entries in
    the tile, and the bit that was set is the one of [B].  A term query
    for [a] then delivers [A] and [B] and not [E]. *)
Theorem store_after_partial_read_sets_bit_of_older_entry :
  reachable afterCancelledScan
  /\ result (store E T) afterCancelledScan = Some tt
  /\ entryCount T afterCancelledScan = 2
  /\ indexPos T afterCancelledScan / entryWidth = 1
  /\ entryCount T storedAfterScan = 3
  /\ termsOf (payload E) = ["a"; "b"]%string
  /\ bitsOf "a" storedAfterScan = Some [true; true]
  /\ bitsOf "b" storedAfterScan = Some [false; true]
  /\ BitmapStream_read (contents (fs storedAfterScan) (getFilePath T bitmapFileExtension))
       !! "a"%string = Some [true; true]
  /\ BitmapStream_read (contents (fs storedAfterScan) (getFilePath T bitmapFileExtension))
       !! "b"%string = Some [false; true]
  /\ delivered (search_query queryA callerVisitor neverCancelled) storedAfterScan
     = Some [a1; b5].
Proof.
  split; [exact afterCancelledScan_reachable|].
  repeat split; vm_compute; reflexivity.
Qed.

End Runs.

(** * Further properties of the store *)

(** ** What [store] does to the logs in any state *)

Section Appends.

Context {C : Collaborators} `{!CollaboratorsLaws C}.

Implicit Types (s : PersistentElementStoreImpl) (quadKey : QuadKey).

(** X1: in any state [store] returns, and it only appends to the two
    logs of the tile: the data log grows by the record of the element,
    the index log by one entry of twelve bytes that holds the identifier
    and the position of the data stream truncated to 32 bits; the bytes
    that were there stay, and the files of other tiles are as before. *)
Theorem store_appends_to_both_logs element quadKey s :
  (0 < LruCache.maxSize_ (cache_ s))%nat ->
  wp (store element quadKey) s (fun _ s' =>
    contents (fs s') (getFilePath quadKey DataFileExtension)
    = contents (fs s) (getFilePath quadKey DataFileExtension)
      ++ ElementStream_write (payload element)
    /\ contents (fs s') (getFilePath quadKey IndexFileExtension)
       = contents (fs s) (getFilePath quadKey IndexFileExtension)
         ++ bytes_of 8 (id element) ++ bytes_of 4 (dataPos quadKey s mod 2 ^ 32)
    /\ fileSize (fs s') (getFilePath quadKey IndexFileExtension)
       = fileSize (fs s) (getFilePath quadKey IndexFileExtension) + 12
    /\ (forall p, p.1 <> quadKey -> files (fs s') !! p = files (fs s) !! p)
    /\ pinned (fs s') = pinned (fs s)).
Proof.
  intros Hcap. eapply wp_mono; [by apply store_spec|].
  intros [] s' [Hd Hi _ _ Hf Hp _ _].
  split; [by apply contents_files|]. split; [by apply contents_files|].
  split; [|done].
  unfold fileSize. rewrite (contents_files _ _ _ Hi), length_app, length_indexEntry. lia.
Qed.

End Appends.

(** ** Scans, saves and the stream positions between them *)

Section Positions.

Context {C : Collaborators} `{!CollaboratorsLaws C}.

Implicit Types (s : PersistentElementStoreImpl) (quadKey : QuadKey) (h : QuadKeyData).
Implicit Types (es : list Element) (e : Element).

Lemma visited_le cancelToken i n : (visited cancelToken i n <= n)%nat.
Proof.
  revert i; induction n as [|n IH]; intros i; simpl; [lia|].
  destruct (cancelToken i); [lia|]. specialize (IH (S i)). lia.
Qed.

Lemma scanned_holds quadKey es k s s' :
  holds quadKey es s -> scanned quadKey es k s s' -> holds quadKey es s'.
Proof. intros [Hd Hi] Hsc. split; by rewrite (scanned_contents _ _ _ _ _ Hsc). Qed.

Lemma scanned_indexPos quadKey es k s s' :
  scanned quadKey es k s s' -> indexPos quadKey s' = entryWidth * Z.of_nat k.
Proof.
  intros Hsc. destruct (scanned_handle _ _ _ _ _ Hsc) as (h' & Hpk & Hi & _).
  unfold indexPos. by rewrite Hpk.
Qed.

Lemma scanned_scanCount quadKey es k s s' :
  scanned quadKey es k s s' -> scanCount quadKey s' = k.
Proof.
  intros Hsc. unfold scanCount. rewrite (scanned_indexPos _ _ _ _ _ Hsc).
  rewrite Z.mul_comm, Z.div_mul by done. apply Nat2Z.id.
Qed.

Lemma scanned_inRange quadKey es k s s' :
  holds quadKey es s -> (k <= length es)%nat -> scanned quadKey es k s s' ->
  inRange quadKey s'.
Proof.
  intros Hh Hk Hsc. unfold inRange.
  rewrite (scanned_indexPos _ _ _ _ _ Hsc).
  rewrite (holds_fileSize_index _ _ _ (scanned_holds _ _ _ _ _ Hh Hsc)).
  change entryWidth with 12. lia.
Qed.

(** A scan that visited every entry leaves both streams at the end. *)
Lemma scanned_atEnd quadKey es s s' :
  holds quadKey es s -> atEnd quadKey s -> scanned quadKey es (length es) s s' ->
  atEnd quadKey s'.
Proof.
  intros Hh Hat Hsc h Hpk.
  pose proof (scanned_holds _ _ _ _ _ Hh Hsc) as Hh'.
  destruct (scanned_handle _ _ _ _ _ Hsc) as (h' & Hpk' & Hi & Hd & _).
  rewrite Hpk' in Hpk. apply (inj Some) in Hpk. subst h'.
  rewrite (holds_fileSize_index _ _ _ Hh'), (holds_fileSize_data _ _ _ Hh').
  split; [|done]. rewrite Hd. destruct (length es) eqn:Hlen.
  - destruct (atEnd_positions _ _ Hat) as [-> _].
    by rewrite (holds_fileSize_data _ _ _ Hh).
  - rewrite <- Hlen. by rewrite firstn_all.
Qed.

(** X3: the number of entries that a scan sets out to visit is the
    position of the index stream divided by the entry width, and a scan
    that is cancelled leaves that stream behind the last entry it
    visited.  So the scan that follows a scan cancelled after [k] entries
    delivers the first [k] elements only, although it is not cancelled
    itself. *)
Theorem scan_after_cancelled_scan_stops_early quadKey es visitor visitor' cancelToken s :
  (0 < LruCache.maxSize_ (cache_ s))%nat ->
  holds quadKey es s -> atEnd quadKey s ->
  Forall validId es -> withinLimits es ->
  wp (do! search_quadKey quadKey visitor cancelToken in
      search_quadKey quadKey visitor' neverCancelled) s
     (fun out _ => out = flat_map visitor' (take (visited cancelToken 0 (length es)) es)).
Proof.
  intros Hcap Hh Hat Hids Hlim. apply wp_bind.
  eapply wp_mono.
  { apply (search_quadKey_spec quadKey visitor cancelToken es s);
      [done | done | by apply atEnd_inRange | done | done]. }
  cbv zeta. rewrite (atEnd_scanCount _ _ _ Hh Hat).
  intros out1 s1 (_ & _ & Hsc).
  pose proof (visited_le cancelToken 0 (length es)) as Hk.
  eapply wp_mono.
  { apply (search_quadKey_spec quadKey visitor' neverCancelled es s1).
    - rewrite (scanned_maxSize _ _ _ _ _ Hsc). done.
    - by eapply scanned_holds.
    - by eapply scanned_inRange.
    - done.
    - done. }
  cbv zeta. rewrite (scanned_scanCount _ _ _ _ _ Hsc), visited_never.
  by intros out s2 (-> & _).
Qed.

(** X2: in a tile whose handle, if one is cached, has both streams at
    the end of the logs (as opening the tile and every save leave them),
    a scan that is not cancelled delivers every element and leaves both
    streams at the end again, where [store] expects them: elements saved
    after it are recorded with their true offset, and the next scan
    delivers the old elements followed by the new ones. *)
Theorem complete_scan_then_save_keeps_order quadKey es elements visitor s :
  (0 < LruCache.maxSize_ (cache_ s))%nat ->
  holds quadKey es s -> atEnd quadKey s ->
  Forall validId (es ++ elements) -> withinLimits (es ++ elements) ->
  wp (search_quadKey quadKey visitor neverCancelled) s (fun out s' =>
    out = flat_map visitor es
    /\ holds quadKey es s' /\ atEnd quadKey s'
    /\ wp (do! saveAll elements quadKey in
           search_quadKey quadKey callerVisitor neverCancelled) s'
          (fun out' _ => out' = es ++ elements)).
Proof.
  intros Hcap Hh Hat Hids Hlim.
  assert (Forall validId es) as Hids0 by (by apply Forall_app in Hids as [? _]).
  assert (withinLimits es) as Hlim0.
  { destruct Hlim as [Hl1 Hl2]. pose proof (length_dataLog_prefix es elements).
    rewrite length_app in Hl2. split; lia. }
  eapply wp_mono.
  { apply (search_quadKey_spec quadKey visitor neverCancelled es s);
      [done | done | by apply atEnd_inRange | done | done]. }
  cbv zeta. rewrite (atEnd_scanCount _ _ _ Hh Hat), visited_never, firstn_all.
  intros out s1 (-> & _ & Hsc).
  pose proof (scanned_holds _ _ _ _ _ Hh Hsc) as Hh1.
  pose proof (scanned_atEnd _ _ _ _ Hh Hat Hsc) as Hat1.
  pose proof (scanned_maxSize _ _ _ _ _ Hsc) as Hmax1.
  split; [done|]. split; [done|]. split; [done|].
  apply wp_bind.
  eapply wp_mono.
  { apply (saveAll_holds quadKey elements es s1); [lia | done | done | apply Hlim]. }
  intros [] s2 (Hh2 & Hat2 & Hmax2).
  eapply wp_mono.
  { apply (search_quadKey_spec quadKey callerVisitor neverCancelled (es ++ elements) s2);
      [lia | done | by apply atEnd_inRange | done | done]. }
  cbv zeta. intros out s3 (-> & _).
  by rewrite (atEnd_scanCount _ _ _ Hh2 Hat2), visited_never, flat_map_callerVisitor, firstn_all.
Qed.

Lemma stored_other_tile quadKey quadKey' element es s s' :
  quadKey' <> quadKey -> stored element quadKey' s s' ->
  holds quadKey es s -> atEnd quadKey s ->
  holds quadKey es s' /\ atEnd quadKey s'.
Proof.
  intros Hne Hst [Hd Hi] Hat.
  assert (forall ext, contents (fs s') (getFilePath quadKey ext)
                      = contents (fs s) (getFilePath quadKey ext)) as Hc.
  { intros ext. unfold contents. rewrite (stored_files _ _ _ _ Hst); [done|].
    simpl. congruence. }
  split; [split; by rewrite Hc|].
  intros h Hpk. unfold fileSize. rewrite !Hc.
  apply Hat. apply (stored_others _ _ _ _ Hst); [congruence | done].
Qed.

(** X7: for a tile whose handle, if one is cached, has both streams at
    the end of the logs: saving under other tiles, however many, leaves
    the tile as it is, its files keep their bytes, and its handle, if it
    is still cached, its positions.  A scan of the tile afterwards
    delivers what it held, also when its handle was evicted in between
    and is opened again. *)
Theorem saves_under_other_tiles_leave_tile_alone quadKey es items visitor s :
  (0 < LruCache.maxSize_ (cache_ s))%nat ->
  Forall (fun item => item.2 <> quadKey) items ->
  holds quadKey es s -> atEnd quadKey s ->
  Forall validId es -> withinLimits es ->
  wp (do! saveEach items in search_quadKey quadKey visitor neverCancelled) s
     (fun out s' => out = flat_map visitor es /\ holds quadKey es s').
Proof.
  intros Hcap Hitems Hh Hat Hids Hlim. apply wp_bind.
  assert (wp (saveEach items) s (fun _ s' =>
            holds quadKey es s' /\ atEnd quadKey s'
            /\ (0 < LruCache.maxSize_ (cache_ s'))%nat)) as Hsaves.
  { clear Hids Hlim. revert s Hcap Hh Hat.
    induction Hitems as [|[e q] items Hq _ IH]; intros s Hcap Hh Hat.
    - by apply wp_ret.
    - cbn [saveEach]. apply wp_bind. unfold save at 1.
      eapply wp_mono; [by apply store_spec|]. intros [] s1 Hst.
      destruct (stored_other_tile quadKey q e es s s1 Hq Hst Hh Hat) as [Hh1 Hat1].
      apply IH; [|done..]. by rewrite (stored_maxSize _ _ _ _ Hst). }
  eapply wp_mono; [exact Hsaves|]. intros [] s1 (Hh1 & Hat1 & Hcap1).
  eapply wp_mono.
  { apply (search_quadKey_spec quadKey visitor neverCancelled es s1);
      [done | done | by apply atEnd_inRange | done | done]. }
  cbv zeta. rewrite (atEnd_scanCount _ _ _ Hh1 Hat1), visited_never, firstn_all.
  intros out s2 (-> & _ & Hsc). split; [done|]. by eapply scanned_holds.
Qed.

(** X6: [flush] closes every handle, so the next operation opens the tile
    again with both streams at the end: whatever the positions were
    before, elements saved after a [flush] are recorded with their true
    offset and order, and a scan delivers the old elements followed by
    the new ones. *)
Theorem flush_then_save_records_true_positions quadKey es elements s :
  (0 < LruCache.maxSize_ (cache_ s))%nat ->
  holds quadKey es s ->
  Forall validId (es ++ elements) -> withinLimits (es ++ elements) ->
  wp (do! flush in
      do! saveAll elements quadKey in
      search_quadKey quadKey callerVisitor neverCancelled) s
     (fun out _ => out = es ++ elements).
Proof.
  intros Hcap Hh Hids Hlim. apply wp_bind. unfold flush, onCache, modify, wp at 1.
  set (s0 := mkStore (fs s) (LruCache.clear (cache_ s)) (io s)).
  assert (atEnd quadKey s0) as Hat0 by (intros h Hpk; discriminate Hpk).
  apply wp_bind.
  eapply wp_mono.
  { apply (saveAll_holds quadKey elements es s0); [done | done | done | apply Hlim]. }
  intros [] s1 (Hh1 & Hat1 & Hmax1).
  eapply wp_mono.
  { apply (search_quadKey_spec quadKey callerVisitor neverCancelled (es ++ elements) s1);
      [by rewrite Hmax1 | done | by apply atEnd_inRange | done | done]. }
  cbv zeta. intros out s2 (-> & _).
  by rewrite (atEnd_scanCount _ _ _ Hh1 Hat1), visited_never, flat_map_callerVisitor, firstn_all.
Qed.

End Positions.

(** ** Erasing a tile *)

Section EraseMore.

Context {C : Collaborators} `{!CollaboratorsLaws C}.

Implicit Types (s : PersistentElementStoreImpl) (quadKey : QuadKey) (fsys : FileSystem).
Implicit Types (es : list Element) (e : Element).

(** [erase(quadKey)]: the handle is looked up, which opens the logs when
    the tile is not cached; each of the three paths is removed or logged;
    the cache is cleared. *)
Lemma erase_quadKey_spec quadKey s :
  (0 < LruCache.maxSize_ (cache_ s))%nat ->
  wp (erase_quadKey quadKey) s (fun _ s' =>
    exists h s1,
      got quadKey s h s1
      /\ io s' = io s ++ eraseLog quadKey (fs s1)
      /\ (forall ext, files (fs s') !! getFilePath quadKey ext
                      = if removeFails (getFilePath quadKey ext) (fs s1)
                        then files (fs s1) !! getFilePath quadKey ext else None)
      /\ (forall p, p.1 <> quadKey -> files (fs s') !! p = files (fs s) !! p)
      /\ pinned (fs s') = pinned (fs s)
      /\ cache_ s' = LruCache.clear (cache_ s1)).
Proof.
  intros Hcap. unfold erase_quadKey.
  apply wp_bind. eapply wp_mono; [by apply getQuadKeyData_got|]. intros h s1 Hg.
  unfold QuadKeyData_erase, closeAll.
  apply wp_bind, wp_bind, wp_ret.
  apply wp_bind, wp_removeOrLog. intros s2 Hfs2 Hio2 Hc2.
  apply wp_bind, wp_removeOrLog. intros s3 Hfs3 Hio3 Hc3.
  apply wp_removeOrLog. intros s4 Hfs4 Hio4 Hc4.
  unfold wp, onCache, modify. simpl.
  assert (getFilePath quadKey DataFileExtension <> getFilePath quadKey IndexFileExtension
          /\ getFilePath quadKey DataFileExtension <> getFilePath quadKey bitmapFileExtension
          /\ getFilePath quadKey IndexFileExtension <> getFilePath quadKey bitmapFileExtension)
    as (Hdi & Hdb & Hib) by done.
  exists h, s1. split; [done|]. split; [|split; [|split; [|split]]].
  - rewrite Hio4, Hio3, Hio2, (got_io _ _ _ _ Hg), Hfs3, Hfs2, <- !app_assoc. f_equal.
    unfold eraseLog. simpl. rewrite !removeFails_remove_ne by done.
    destruct (removeFails (getFilePath quadKey DataFileExtension) (fs s1)),
      (removeFails (getFilePath quadKey IndexFileExtension) (fs s1)),
      (removeFails (getFilePath quadKey bitmapFileExtension) (fs s1)); done.
  - intros ext. rewrite Hfs4, Hfs3, Hfs2. destruct ext.
    + rewrite files_remove_ne, files_remove_eq by done.
      rewrite removeFails_remove_ne, files_remove_ne by done. done.
    + rewrite !files_remove_ne by done. apply files_remove_eq.
    + rewrite files_remove_eq.
      rewrite !removeFails_remove_ne, !files_remove_ne by done. done.
  - intros [k ext] Hk. simpl in Hk. rewrite Hfs4, Hfs3, Hfs2.
    rewrite !files_remove_ne by (unfold getFilePath; congruence).
    apply (got_files _ _ _ _ _ Hg); unfold getFilePath; congruence.
  - rewrite Hfs4, Hfs3, Hfs2, !pinned_remove. apply (got_pinned _ _ _ _ Hg).
  - by rewrite Hc4, Hc3, Hc2.
Qed.

(** X9: [erase] of a tile that has no open handle and no bitmap blob, as a
    tile that was never saved to: looking up the handle creates the two
    logs, which are then removed, and the removal of the blob fails, so
    exactly one line is logged, for the path of the blob.  No file of the
    tile is left. *)
Theorem erase_of_unsaved_tile_reports_missing_bitmap quadKey s :
  (0 < LruCache.maxSize_ (cache_ s))%nat ->
  LruCache.peek quadKey (cache_ s) = None ->
  files (fs s) !! getFilePath quadKey bitmapFileExtension = None ->
  getFilePath quadKey DataFileExtension ∉ pinned (fs s) ->
  getFilePath quadKey IndexFileExtension ∉ pinned (fs s) ->
  wp (erase_quadKey quadKey) s (fun _ s' =>
    io s' = io s ++ [CannotErase (getFilePath quadKey bitmapFileExtension)]
    /\ (forall ext, files (fs s') !! getFilePath quadKey ext = None)
    /\ LruCache.itemsList_ (cache_ s') = []).
Proof.
  intros Hcap Hmiss Hb Hd Hi.
  eapply wp_mono; [by apply erase_quadKey_spec|].
  intros [] s' (h & s1 & Hg & Hio & Hfiles & _ & _ & Hcache).
  pose proof (got_pinned _ _ _ _ Hg) as Hpin.
  assert (files (fs s1) !! getFilePath quadKey bitmapFileExtension = None) as Hb1.
  { by rewrite (got_files _ _ _ _ _ Hg). }
  destruct Hg as [_ _ _ _ Hcase]. rewrite Hmiss in Hcase. destruct Hcase as [Hfs1 _].
  assert (removeFails (getFilePath quadKey DataFileExtension) (fs s1) = false) as Hrd.
  { unfold removeFails, remove. rewrite Hpin.
    destruct (files (fs s1) !! getFilePath quadKey DataFileExtension) eqn:Hf.
    - by rewrite decide_False.
    - rewrite Hfs1 in Hf. unfold openLogs in Hf. rewrite files_touch_ne in Hf by done.
      by destruct (files_touch_eq (getFilePath quadKey DataFileExtension) (fs s)) as [? Hs];
        rewrite Hs in Hf. }
  assert (removeFails (getFilePath quadKey IndexFileExtension) (fs s1) = false) as Hri.
  { unfold removeFails, remove. rewrite Hpin.
    destruct (files (fs s1) !! getFilePath quadKey IndexFileExtension) eqn:Hf.
    - by rewrite decide_False.
    - rewrite Hfs1 in Hf. unfold openLogs in Hf.
      by destruct (files_touch_eq (getFilePath quadKey IndexFileExtension)
                     (touch (getFilePath quadKey DataFileExtension) (fs s))) as [? Hs];
        rewrite Hs in Hf. }
  assert (removeFails (getFilePath quadKey bitmapFileExtension) (fs s1) = true) as Hrb.
  { unfold removeFails, remove. by rewrite Hb1. }
  split; [|split].
  - rewrite Hio. unfold eraseLog. simpl. by rewrite Hrd, Hri, Hrb.
  - intros ext. rewrite Hfiles. destruct ext; by rewrite ?Hrd, ?Hri, ?Hrb.
  - by rewrite Hcache.
Qed.

(** X8: after [erase] a tile starts anew, whatever its files held and
    wherever its streams stood: when the two logs can be unlinked, the
    elements saved after the [erase] are the ones that a scan delivers,
    in the order in which they were saved. *)
Theorem erase_then_save_starts_anew quadKey elements s :
  (0 < LruCache.maxSize_ (cache_ s))%nat ->
  getFilePath quadKey DataFileExtension ∉ pinned (fs s) ->
  getFilePath quadKey IndexFileExtension ∉ pinned (fs s) ->
  Forall validId elements -> withinLimits elements ->
  wp (do! erase_quadKey quadKey in
      do! saveAll elements quadKey in
      search_quadKey quadKey callerVisitor neverCancelled) s
     (fun out _ => out = elements).
Proof.
  intros Hcap Hd Hi Hids Hlim. apply wp_bind.
  eapply wp_mono; [by apply erase_quadKey_spec|].
  intros [] s1 (h & s0 & Hg & _ & Hfiles & _ & _ & Hcache).
  pose proof (got_pinned _ _ _ _ Hg) as Hpin.
  assert (forall ext, getFilePath quadKey ext ∉ pinned (fs s) ->
                      contents (fs s1) (getFilePath quadKey ext) = []) as Hgone.
  { intros ext Hext. unfold contents. rewrite Hfiles.
    destruct (removeFails (getFilePath quadKey ext) (fs s0)) eqn:Hf; [|done].
    rewrite removeFails_unpinned; [done | by rewrite Hpin | done]. }
  assert (holds quadKey [] s1) as Hh1 by (split; by apply Hgone).
  assert (atEnd quadKey s1) as Hat1.
  { intros h1 Hpk. rewrite Hcache in Hpk. discriminate Hpk. }
  assert (LruCache.maxSize_ (cache_ s1) = LruCache.maxSize_ (cache_ s)) as Hmax1.
  { rewrite Hcache. simpl. apply (got_maxSize _ _ _ _ Hg). }
  apply wp_bind.
  eapply wp_mono.
  { apply (saveAll_holds quadKey elements [] s1); [lia | done | done | apply Hlim]. }
  intros [] s2 (Hh2 & Hat2 & Hmax2). simpl in Hh2.
  eapply wp_mono.
  { apply (search_quadKey_spec quadKey callerVisitor neverCancelled elements s2);
      [lia | done | by apply atEnd_inRange | done | done]. }
  cbv zeta. intros out s3 (-> & _).
  by rewrite (atEnd_scanCount _ _ _ Hh2 Hat2), visited_never, flat_map_callerVisitor, firstn_all.
Qed.

(** X10: [erase] of one tile clears the whole cache, so it closes the
    handles of every tile, while it touches the files of its own tile
    only.  A scan of another tile afterwards opens that tile again and
    delivers all its elements, wherever its streams stood before. *)
Theorem erase_closes_every_handle quadKey quadKey' es visitor s :
  (0 < LruCache.maxSize_ (cache_ s))%nat ->
  quadKey' <> quadKey ->
  holds quadKey es s -> Forall validId es -> withinLimits es ->
  wp (do! erase_quadKey quadKey' in
      search_quadKey quadKey visitor neverCancelled) s
     (fun out s' => out = flat_map visitor es /\ holds quadKey es s').
Proof.
  intros Hcap Hne [Hd Hi] Hids Hlim. apply wp_bind.
  eapply wp_mono; [by apply erase_quadKey_spec|].
  intros [] s1 (h & s0 & Hg & _ & _ & Hothers & _ & Hcache).
  assert (forall ext, contents (fs s1) (getFilePath quadKey ext)
                      = contents (fs s) (getFilePath quadKey ext)) as Hc.
  { intros ext. unfold contents. rewrite Hothers; [done | simpl; congruence]. }
  assert (holds quadKey es s1) as Hh1 by (split; by rewrite Hc).
  assert (atEnd quadKey s1) as Hat1.
  { intros h1 Hpk. rewrite Hcache in Hpk. discriminate Hpk. }
  eapply wp_mono.
  { apply (search_quadKey_spec quadKey visitor neverCancelled es s1);
      [|done | by apply atEnd_inRange | done | done].
    rewrite Hcache. simpl. by rewrite (got_maxSize _ _ _ _ Hg). }
  cbv zeta. rewrite (atEnd_scanCount _ _ _ Hh1 Hat1), visited_never, firstn_all.
  intros out s2 (-> & _ & Hsc). split; [done|]. by eapply scanned_holds.
Qed.

End EraseMore.

(** ** Random access by insertion order *)

Section RandomAccess.

Context {C : Collaborators} `{!CollaboratorsLaws C}.

Implicit Types (s : PersistentElementStoreImpl) (quadKey : QuadKey) (fsys : FileSystem).
Implicit Types (es : list Element) (e : Element).

(** The files of a tile that holds [es] determine the element at each
    insertion order below [length es]. *)
Lemma holds_elementAt quadKey es i e s :
  holds quadKey es s -> Forall validId es ->
  Z.of_nat (length (dataLog es)) < 2 ^ 32 ->
  es !! i = Some e ->
  elementAt (fs s) quadKey (Z.of_nat i) = Some e.
Proof.
  intros [Hd Hi] Hids Hlim Hlook.
  pose proof (take_drop_middle es i e Hlook) as Hes.
  pose proof (lookup_lt_Some _ _ _ Hlook) as Hlt.
  set (es1 := take i es) in *. set (es3 := drop (S i) es) in *.
  assert (length es1 = i) as Hlen1 by (unfold es1; rewrite length_take; lia).
  assert (validId e) as Hid.
  { rewrite Forall_forall in Hids. apply Hids. by eapply list_elem_of_lookup_2. }
  set (off := Z.of_nat (length (dataLog es1))).
  assert (0 <= off < 2 ^ 32) as Hoff.
  { unfold off. rewrite <- Hes in Hlim. pose proof (length_dataLog_prefix es1 (e :: es3)). lia. }
  assert (contents (fs s) (getFilePath quadKey IndexFileExtension)
          = indexLog 0 es1 ++ indexEntry (id e) off
              ++ indexLog (off + Z.of_nat (length (record e))) es3) as Hi'.
  { rewrite Hi, <- Hes, indexLog_app. cbn [indexLog]. by rewrite Z.add_0_l. }
  assert (Z.of_nat (length (indexLog 0 es1)) = Z.of_nat i * entryWidth) as Hpos.
  { rewrite length_indexLog, Hlen1. lia. }
  unfold elementAt, entryAt. rewrite Hi'. unfold indexEntry.
  rewrite (readAt_at _ (indexLog 0 es1) (bytes_of sizeof_id (id e))
             (bytes_of sizeof_offset off ++ indexLog (off + Z.of_nat (length (record e))) es3)
             (Z.of_nat i * entryWidth) sizeof_id);
    [|by rewrite <- app_assoc | by rewrite Hpos | by rewrite length_bytes_of].
  cbn [mbind option_bind].
  rewrite (readAt_at _ (indexLog 0 es1 ++ bytes_of sizeof_id (id e))
             (bytes_of sizeof_offset off) (indexLog (off + Z.of_nat (length (record e))) es3)
             (Z.of_nat i * entryWidth + Z.of_nat sizeof_id) sizeof_offset);
    [|by rewrite <- !app_assoc
     |rewrite length_app, length_bytes_of; unfold sizeof_id in *; lia
     |by rewrite length_bytes_of].
  cbn [mbind option_bind].
  rewrite !of_bytes_bytes_of by (unfold validId in Hid; unfold sizeof_id, sizeof_offset; lia).
  unfold recordAt. cbn [fst snd]. rewrite decide_True by lia.
  rewrite Hd, <- Hes, dataLog_app, dataLog_cons. unfold off.
  rewrite Nat2Z.id, drop_app_length. unfold record.
  rewrite ElementStream_read_write. by destruct e.
Qed.

(** X5: [notify] seeks the index stream to [order * 12] before it reads,
    so it delivers to the visitor the element stored at that insertion
    order wherever the two streams stood before, and it changes the
    contents of no file. *)
Theorem notify_delivers_entry_wherever_streams_stand quadKey es i e visitor s :
  (0 < LruCache.maxSize_ (cache_ s))%nat ->
  holds quadKey es s -> Forall validId es -> withinLimits es ->
  es !! i = Some e ->
  wp (notify quadKey (Z.of_nat i) visitor) s (fun out s' =>
    out = visitor e /\ sameContents s s' /\ holds quadKey es s').
Proof.
  intros Hcap Hh Hids [Hlim _] Hlook.
  pose proof (notify_decides quadKey (Z.of_nat i) visitor s Hcap) as Hdec.
  rewrite (holds_elementAt _ _ _ _ _ Hh Hids Hlim Hlook) in Hdec.
  eapply wp_mono; [exact Hdec|]. intros out s' [-> Hu].
  split; [done|]. split; [exact (undisturbed_contents _ _ Hu)|].
  destruct Hh as [Hd Hi]. split; by rewrite (undisturbed_contents _ _ Hu).
Qed.

(** [notify] at an insertion order that the tile holds: the element is
    delivered, and both streams are left behind what was read. *)
Lemma notify_spec quadKey es i e visitor s :
  (0 < LruCache.maxSize_ (cache_ s))%nat ->
  holds quadKey es s -> Forall validId es ->
  Z.of_nat (length (dataLog es)) < 2 ^ 32 ->
  es !! i = Some e ->
  wp (notify quadKey (Z.of_nat i) visitor) s (fun out s' =>
    out = visitor e /\ sameContents s s' /\ io s' = io s
    /\ LruCache.maxSize_ (cache_ s') = LruCache.maxSize_ (cache_ s)
    /\ exists h', LruCache.peek quadKey (cache_ s') = Some h'
         /\ indexFile h' = entryWidth * Z.of_nat (S i)
         /\ dataFile h' = Z.of_nat (length (dataLog (take (S i) es)))).
Proof.
  intros Hcap [Hd Hi] Hids Hlim Hlook.
  pose proof (take_drop_middle es i e Hlook) as Hes.
  pose proof (take_S_r es i e Hlook) as Htake.
  set (es1 := take i es) in *. set (es3 := drop (S i) es) in *.
  assert (length es1 = i) as Hlen1.
  { unfold es1. rewrite length_take. pose proof (lookup_lt_Some _ _ _ Hlook). lia. }
  assert (validId e) as Hid.
  { rewrite Forall_forall in Hids. apply Hids. by eapply list_elem_of_lookup_2. }
  set (off := Z.of_nat (length (dataLog es1))).
  assert (0 <= off < 2 ^ 32) as Hoff.
  { unfold off. rewrite <- Hes in Hlim. pose proof (length_dataLog_prefix es1 (e :: es3)). lia. }
  assert (contents (fs s) (getFilePath quadKey IndexFileExtension)
          = indexLog 0 es1 ++ indexEntry (id e) off
              ++ indexLog (off + Z.of_nat (length (record e))) es3) as Hi'.
  { rewrite Hi, <- Hes, indexLog_app. cbn [indexLog]. by rewrite Z.add_0_l. }
  assert (contents (fs s) (getFilePath quadKey DataFileExtension)
          = dataLog es1 ++ record e ++ dataLog es3) as Hd'.
  { by rewrite Hd, <- Hes, dataLog_app, dataLog_cons. }
  assert (Z.of_nat (length (indexLog 0 es1)) = Z.of_nat i * entryWidth) as Hpos.
  { rewrite length_indexLog, Hlen1. lia. }
  unfold notify.
  apply wp_bind. eapply wp_mono; [by apply getQuadKeyData_got|]. intros h1 s1 Hg.
  eapply wp_bind, wp_onHandle; [exact (got_peek _ _ _ _ Hg)|]. intros s2 Hfs2 Hio2 H2.
  apply wp_bind.
  eapply wp_mono.
  { eapply (readIndexEntry_spec quadKey _ s2 (indexLog 0 es1) _ (id e) off
              (handleIs_peek _ _ _ _ H2)).
    - rewrite Hfs2, (got_contents _ _ _ _ _ Hg). exact Hi'.
    - simpl. by rewrite Hpos.
    - exact Hid.
    - exact Hoff. }
  intros entry s3 (-> & Hfs3 & Hio3 & H3). cbn [fst snd].
  eapply wp_bind, wp_onHandle; [exact (handleIs_peek _ _ _ _ H3)|]. intros s4 Hfs4 Hio4 H4.
  apply wp_bind.
  eapply wp_mono.
  { eapply (dataFile_read_spec quadKey _ s4 (dataLog es1) (dataLog es3) e (id e)
              (handleIs_peek _ _ _ _ H4)).
    - rewrite Hfs4, Hfs3, Hfs2, (got_contents _ _ _ _ _ Hg). exact Hd'.
    - done. }
  intros element s5 (-> & Hfs5 & Hio5 & H5). apply wp_ret.
  split; [by destruct e|]. split; [|split; [|split]].
  - intros p. rewrite Hfs5, Hfs4, Hfs3, Hfs2. apply (got_contents _ _ _ _ _ Hg).
  - rewrite Hio5, Hio4, Hio3, Hio2. apply (got_io _ _ _ _ Hg).
  - rewrite (handleIs_maxSize _ _ _ _ H5), (handleIs_maxSize _ _ _ _ H4),
      (handleIs_maxSize _ _ _ _ H3), (handleIs_maxSize _ _ _ _ H2).
    apply (got_maxSize _ _ _ _ Hg).
  - eexists. split; [exact (handleIs_peek _ _ _ _ H5)|]. simpl. split.
    + rewrite Hpos. change entryWidth with 12. lia.
    + rewrite Htake, dataLog_app, length_app. unfold dataLog at 3. simpl.
      rewrite app_nil_r. lia.
Qed.

(** X4: [notify] leaves the index stream behind the entry that it read,
    and the scan takes the position of that stream for the size of the
    index log: a scan of the tile that follows [notify] at insertion
    order [i] delivers the first [i + 1] elements only. *)
Theorem scan_after_notify_stops_behind_entry quadKey es i e visitor visitor' s :
  (0 < LruCache.maxSize_ (cache_ s))%nat ->
  holds quadKey es s -> Forall validId es -> withinLimits es ->
  es !! i = Some e ->
  wp (do! notify quadKey (Z.of_nat i) visitor in
      search_quadKey quadKey visitor' neverCancelled) s
     (fun out _ => out = flat_map visitor' (take (S i) es)).
Proof.
  intros Hcap Hh Hids Hlim Hlook. apply wp_bind.
  eapply wp_mono; [apply (notify_spec quadKey es i e visitor s); [done..|apply Hlim|done]|].
  intros out1 s1 (_ & Hc & _ & Hmax & h' & Hpk & Hidx & _).
  pose proof (lookup_lt_Some _ _ _ Hlook) as Hlt.
  assert (holds quadKey es s1) as Hh1.
  { destruct Hh as [Hd Hi]. split; by rewrite Hc. }
  assert (indexPos quadKey s1 = entryWidth * Z.of_nat (S i)) as Hip.
  { unfold indexPos. by rewrite Hpk. }
  assert (scanCount quadKey s1 = S i) as Hcount.
  { unfold scanCount. rewrite Hip, Z.mul_comm, Z.div_mul by done. apply Nat2Z.id. }
  eapply wp_mono.
  { apply (search_quadKey_spec quadKey visitor' neverCancelled es s1).
    - by rewrite Hmax.
    - done.
    - unfold inRange. rewrite Hip, (holds_fileSize_index _ _ _ Hh1).
      change entryWidth with 12. lia.
    - done.
    - done. }
  cbv zeta. rewrite Hcount, visited_never. by intros out s2 (-> & _).
Qed.

End RandomAccess.

(** ** What the two searches leave unchanged *)

Section ReadOnly.

Context {C : Collaborators} `{!CollaboratorsLaws C}.

Implicit Types (s : PersistentElementStoreImpl) (quadKey : QuadKey).

Lemma sameContents_refl s : sameContents s s.
Proof. by intros p. Qed.

Lemma sameContents_trans s1 s2 s3 :
  sameContents s1 s2 -> sameContents s2 s3 -> sameContents s1 s3.
Proof. intros H1 H2 p. by rewrite H2, H1. Qed.

Lemma getBitmap_sameContents quadKey s :
  (0 < LruCache.maxSize_ (cache_ s))%nat ->
  wp (getBitmap quadKey) s (fun _ s' =>
    sameContents s s' /\ LruCache.maxSize_ (cache_ s') = LruCache.maxSize_ (cache_ s)).
Proof.
  intros Hcap. unfold getBitmap.
  apply wp_bind. eapply wp_mono; [by apply getQuadKeyData_got|]. intros h1 s1 Hg.
  eapply wp_mono; [apply QuadKeyData_getBitmap_spec; exact (got_peek _ _ _ _ Hg)|].
  intros b s2 (_ & Hfs2 & _ & H2). split.
  - intros p. rewrite Hfs2. apply (got_contents _ _ _ _ _ Hg).
  - rewrite (handleIs_maxSize _ _ _ _ H2). apply (got_maxSize _ _ _ _ Hg).
Qed.

Lemma BitmapIndex_searchTiles_sameContents query visitor quadKeys :
  forall s, (0 < LruCache.maxSize_ (cache_ s))%nat ->
  wlp (BitmapIndex_searchTiles query quadKeys visitor) s (fun _ s' =>
    sameContents s s' /\ LruCache.maxSize_ (cache_ s') = LruCache.maxSize_ (cache_ s)).
Proof.
  induction quadKeys as [|quadKey quadKeys IH]; intros s Hcap.
  - intros out s' Hret. inversion Hret; subst. split; [apply sameContents_refl | done].
  - cbn [BitmapIndex_searchTiles]. unfold BitmapIndex_searchTile.
    apply wlp_bind, wlp_bind, wp_wlp.
    eapply wp_mono; [by apply getBitmap_sameContents|]. intros b s1 [Hc1 Hmax1].
    eapply wlp_mono.
    { eapply decides_wlp, notifyAll_decides. by rewrite Hmax1. }
    intros out s2 Hu2. apply wlp_bind.
    eapply wlp_mono.
    { apply IH. by rewrite (undisturbed_maxSize _ _ Hu2), Hmax1. }
    intros outs s3 [Hc3 Hmax3] r s' Hret. inversion Hret; subst. split.
    + exact (sameContents_trans _ _ _ Hc1
               (sameContents_trans _ _ _ (undisturbed_contents _ _ Hu2) Hc3)).
    + by rewrite Hmax3, (undisturbed_maxSize _ _ Hu2).
Qed.

Lemma search_query_sameContents query visitor cancelToken s :
  (0 < LruCache.maxSize_ (cache_ s))%nat ->
  wlp (search_query query visitor cancelToken) s (fun _ s' => sameContents s s').
Proof.
  intros Hcap. unfold search_query, BitmapIndex_search.
  eapply wlp_mono; [by apply BitmapIndex_searchTiles_sameContents|].
  by intros out s' [Hc _].
Qed.

(** X11: neither search writes: after a term query and after a scan of a
    tile, cancelled or not, every path reads the same bytes as before.
    The only change to the directory is that the logs of a tile that is
    opened are created, empty, when they were absent. *)
Theorem searches_change_no_file_contents s :
  (0 < LruCache.maxSize_ (cache_ s))%nat ->
  (forall query visitor cancelToken,
     wlp (search_query query visitor cancelToken) s (fun _ s' => sameContents s s'))
  /\ (forall quadKey visitor cancelToken,
        wlp (search_quadKey quadKey visitor cancelToken) s (fun _ s' => sameContents s s')).
Proof.
  intros Hcap. split.
  - intros query visitor cancelToken. by apply search_query_sameContents.
  - intros quadKey visitor cancelToken.
    eapply wlp_mono; [by apply search_quadKey_undisturbed|].
    intros out s' Hu. exact (undisturbed_contents _ _ Hu).
Qed.

(** X12: the answer to a term query depends on the files only, not on
    where the streams stand: in every store that the operations produce,
    a term query returns the same after a scan of any tile, cancelled or
    not, and after any other term query, as it returned before. *)
Theorem term_query_unaffected_by_searches s :
  reachable s ->
  (forall quadKey visitor cancelToken,
     wlp (search_quadKey quadKey visitor cancelToken) s (fun _ s' =>
       forall query v tok,
         fst <$> search_query query v tok s' = fst <$> search_query query v tok s))
  /\ (forall query0 visitor cancelToken,
        wlp (search_query query0 visitor cancelToken) s (fun _ s' =>
          forall query v tok,
            fst <$> search_query query v tok s' = fst <$> search_query query v tok s)).
Proof.
  intros Hreach. destruct (reachable_invariant s Hreach) as [Hmax Hco].
  assert (0 < LruCache.maxSize_ (cache_ s))%nat as Hcap by lia.
  assert (forall s', settled s s' ->
            forall query v tok,
              fst <$> search_query query v tok s' = fst <$> search_query query v tok s) as Hsame.
  { intros s' [Hc Hmax' Hco'] query v tok.
    rewrite (decides_result _ _ _ _ (search_query_decides query v tok s Hcap Hco)).
    rewrite (decides_result _ _ _ _
               (search_query_decides query v tok s' ltac:(by rewrite Hmax') Hco')).
    unfold queryResult. by apply tilesMatches_ext. }
  split.
  - intros quadKey visitor cancelToken.
    eapply wlp_mono; [by apply search_quadKey_undisturbed|].
    intros out s' Hu. apply Hsame. by apply undisturbed_settled.
  - intros query0 visitor cancelToken.
    eapply wlp_mono; [exact (decides_wlp _ _ _ _
                               (search_query_decides query0 visitor cancelToken s Hcap Hco))|].
    intros out s' Hs. by apply Hsame.
Qed.

End ReadOnly.

(** ** Existence of the data file *)

Section Existence.

Context {C : Collaborators} `{!CollaboratorsLaws C}.

Implicit Types (s : PersistentElementStoreImpl) (quadKey : QuadKey).

(** X13: [hasData] is true after a [save] under the tile.  It is also true
    after a scan of a tile that has no handle and no entries: the scan
    delivers nothing, yet looking up the handle created the data file. *)
Theorem hasData_true_after_save_and_after_scan quadKey s :
  (0 < LruCache.maxSize_ (cache_ s))%nat ->
  (forall element,
     wp (do! save element quadKey in hasData quadKey) s (fun b _ => b = true))
  /\ (LruCache.peek quadKey (cache_ s) = None ->
      contents (fs s) (getFilePath quadKey IndexFileExtension) = [] ->
      forall visitor cancelToken,
        wp (do! search_quadKey quadKey visitor cancelToken in hasData quadKey) s
           (fun b _ => b = true)).
Proof.
  intros Hcap. split.
  - intros element. apply wp_bind. unfold save.
    eapply wp_mono; [by apply store_spec|]. intros [] s' Hst.
    unfold wp, hasData, gets. rewrite (stored_data _ _ _ _ Hst).
    by rewrite bool_decide_eq_true_2.
  - intros Hmiss Hempty visitor cancelToken. apply wp_bind.
    eapply wp_mono; [by apply search_quadKey_empty|]. intros out s' (_ & _ & Hfs).
    unfold wp, hasData, gets. rewrite Hfs. unfold openLogs.
    rewrite files_touch_ne by done.
    by rewrite bool_decide_eq_true_2 by apply files_touch_eq.
Qed.

End Existence.

(** ** The index logs hold whole entries *)

Section WholeEntries.

Context {C : Collaborators} `{!CollaboratorsLaws C}.

Implicit Types (s : PersistentElementStoreImpl) (quadKey : QuadKey).

Lemma sameContents_wholeEntries s s' :
  sameContents s s' -> wholeEntries s ->
  wholeEntries s' /\ forall quadKey, entryCount quadKey s' = entryCount quadKey s.
Proof.
  intros Hc Hw. split.
  - intros quadKey. unfold fileSize. rewrite Hc. apply Hw.
  - intros quadKey. unfold entryCount, fileSize. by rewrite Hc.
Qed.

(** X14: when every index log consists of whole entries of twelve bytes,
    it does so after each operation of the store.  [save] adds exactly
    one entry to the index log of its tile and none to another; the two
    searches and [flush] add and remove none; [erase] leaves the index
    log of its tile as it is or without any entry, and the others as they
    are. *)
Theorem index_logs_keep_whole_entries s :
  (0 < LruCache.maxSize_ (cache_ s))%nat ->
  wholeEntries s ->
  (forall element quadKey,
     wp (save element quadKey) s (fun _ s' =>
       wholeEntries s'
       /\ entryCount quadKey s' = entryCount quadKey s + 1
       /\ forall quadKey', quadKey' <> quadKey ->
            entryCount quadKey' s' = entryCount quadKey' s))
  /\ (forall nots ands ors bbox lodRange visitor cancelToken,
        wlp (search nots ands ors bbox lodRange visitor cancelToken) s (fun _ s' =>
          wholeEntries s' /\ forall quadKey, entryCount quadKey s' = entryCount quadKey s))
  /\ (forall quadKey visitor cancelToken,
        wlp (search_quadKey quadKey visitor cancelToken) s (fun _ s' =>
          wholeEntries s' /\ forall quadKey', entryCount quadKey' s' = entryCount quadKey' s))
  /\ (forall quadKey,
        wp (erase_quadKey quadKey) s (fun _ s' =>
          wholeEntries s'
          /\ (entryCount quadKey s' = entryCount quadKey s \/ entryCount quadKey s' = 0)
          /\ forall quadKey', quadKey' <> quadKey ->
               entryCount quadKey' s' = entryCount quadKey' s))
  /\ wp flush s (fun _ s' =>
       wholeEntries s' /\ forall quadKey, entryCount quadKey s' = entryCount quadKey s).
Proof.
  intros Hcap Hw. split; [|split; [|split; [|split]]].
  - intros element quadKey. unfold save.
    eapply wp_mono; [by apply store_spec|]. intros [] s' Hst.
    assert (fileSize (fs s') (getFilePath quadKey IndexFileExtension)
            = fileSize (fs s) (getFilePath quadKey IndexFileExtension) + entryWidth) as Hgrow.
    { unfold fileSize. rewrite (contents_files _ _ _ (stored_index _ _ _ _ Hst)).
      rewrite length_app, length_indexEntry. change entryWidth with 12. lia. }
    assert (forall quadKey', quadKey' <> quadKey ->
              fileSize (fs s') (getFilePath quadKey' IndexFileExtension)
              = fileSize (fs s) (getFilePath quadKey' IndexFileExtension)) as Hsame.
    { intros quadKey' Hne. unfold fileSize, contents.
      by rewrite (stored_files _ _ _ _ Hst). }
    split; [|split].
    + intros quadKey'. destruct (decide (quadKey' = quadKey)) as [->|Hne].
      * rewrite Hgrow, <- Z.add_mod_idemp_l, Hw by done. done.
      * rewrite Hsame by done. apply Hw.
    + unfold entryCount. rewrite Hgrow.
      rewrite <- (Z.div_add _ 1 entryWidth) by done. by rewrite Z.mul_1_l.
    + intros quadKey' Hne. unfold entryCount. by rewrite Hsame.
  - intros nots ands ors bbox lodRange visitor cancelToken. unfold search.
    eapply wlp_mono; [by apply search_query_sameContents|].
    intros out s' Hc. by apply sameContents_wholeEntries.
  - intros quadKey visitor cancelToken.
    eapply wlp_mono; [by apply search_quadKey_undisturbed|].
    intros out s' Hu. apply sameContents_wholeEntries; [|done].
    exact (undisturbed_contents _ _ Hu).
  - intros quadKey.
    eapply wp_mono; [by apply erase_quadKey_spec|].
    intros [] s' (h & s1 & Hg & _ & Hfiles & Hothers & _ & _).
    assert (contents (fs s') (getFilePath quadKey IndexFileExtension)
            = contents (fs s) (getFilePath quadKey IndexFileExtension)
            \/ contents (fs s') (getFilePath quadKey IndexFileExtension) = []) as Hq.
    { unfold contents at 1 3. rewrite Hfiles.
      destruct (removeFails _ _); [left | by right].
      apply (got_contents _ _ _ _ _ Hg). }
    assert (forall quadKey', quadKey' <> quadKey ->
              fileSize (fs s') (getFilePath quadKey' IndexFileExtension)
              = fileSize (fs s) (getFilePath quadKey' IndexFileExtension)) as Hsame.
    { intros quadKey' Hne. unfold fileSize, contents. by rewrite Hothers. }
    split; [|split].
    + intros quadKey'. destruct (decide (quadKey' = quadKey)) as [->|Hne].
      * unfold fileSize. destruct Hq as [-> | ->]; [apply Hw | done].
      * rewrite Hsame by done. apply Hw.
    + unfold entryCount, fileSize. destruct Hq as [-> | ->]; [by left | by right].
    + intros quadKey' Hne. unfold entryCount. by rewrite Hsame.
  - unfold wp, flush, onCache, modify. simpl. split; [exact Hw | done].
Qed.

End WholeEntries.

(** ** Term bits and insertion order *)

Section TermBits.

Context {C : Collaborators} `{!CollaboratorsLaws C}.

Implicit Types (s : PersistentElementStoreImpl) (quadKey : QuadKey).
Implicit Types (es : list Element) (e : Element).

Lemma setBit_bit order bits i :
  default false (BitmapIndex.setBit order bits !! i)
  = bool_decide (i = order) || default false (bits !! i).
Proof.
  unfold BitmapIndex.setBit. destruct (decide (i = order)) as [->|Hne].
  - rewrite list_lookup_insert_eq by (rewrite length_app, length_replicate; lia).
    by rewrite bool_decide_eq_true_2.
  - rewrite list_lookup_insert_ne by done. rewrite bool_decide_eq_false_2 by done. simpl.
    destruct (decide (i < length bits)%nat) as [Hlt|Hge].
    + by rewrite lookup_app_l.
    + rewrite lookup_app_r by lia. rewrite (lookup_ge_None_2 bits) by lia. simpl.
      destruct (replicate _ _ !! _) as [b|] eqn:Hr; [|done].
      by apply lookup_replicate in Hr as [-> _].
Qed.

Lemma cover_bit order bits i :
  default false (BitmapIndex.cover order bits !! i) = default false (bits !! i).
Proof.
  unfold BitmapIndex.cover.
  destruct (decide (i < length bits)%nat) as [Hlt|Hge].
  - by rewrite lookup_app_l.
  - rewrite lookup_app_r by lia. rewrite (lookup_ge_None_2 bits) by lia. simpl.
    destruct (replicate _ _ !! _) as [b|] eqn:Hr; [|done].
    by apply lookup_replicate in Hr as [-> _].
Qed.

Lemma add_bit terms order (b : Bitmap) t i :
  BitmapIndex.bit (BitmapIndex.add terms order b) t i
  = (bool_decide (t ∈ terms) && bool_decide (i = order)) || BitmapIndex.bit b t i.
Proof.
  unfold BitmapIndex.bit. rewrite add_lookup.
  destruct (decide (t ∈ terms)) as [Hin|Hnin].
  - rewrite bool_decide_eq_true_2 by done. simpl. apply setBit_bit.
  - rewrite bool_decide_eq_false_2 by done. simpl.
    destruct (b !! t) as [bits|]; [|done]. simpl. apply cover_bit.
Qed.

Lemma stored_bitmapOf element quadKey s s' :
  stored element quadKey s s' ->
  bitmapOf quadKey s'
  = BitmapIndex.add (termsOf (payload element))
      (Z.to_nat (u32 (indexPos quadKey s / entryWidth))) (bitmapOf quadKey s).
Proof.
  intros Hst. unfold bitmapOf at 1. rewrite (stored_handle _ _ _ _ Hst). simpl.
  unfold accessed. rewrite (contents_files _ _ _ (stored_bitmap _ _ _ _ Hst)).
  rewrite BitmapStream_read_write. by destruct (decide _).
Qed.

Lemma save_indexed quadKey es e s :
  (0 < LruCache.maxSize_ (cache_ s))%nat ->
  holds quadKey es s -> atEnd quadKey s -> indexed quadKey es s ->
  withinLimits es ->
  wp (save e quadKey) s (fun _ s' =>
    holds quadKey (es ++ [e]) s' /\ atEnd quadKey s' /\ indexed quadKey (es ++ [e]) s'
    /\ LruCache.maxSize_ (cache_ s') = LruCache.maxSize_ (cache_ s)).
Proof.
  intros Hcap Hh Hat Hix [Hlim Hcnt].
  eapply wp_mono; [by apply save_holds|]. intros [] s' (Hh' & Hat' & Hst).
  split; [done|]. split; [done|]. split; [|exact (stored_maxSize _ _ _ _ Hst)].
  assert (Z.to_nat (u32 (indexPos quadKey s / entryWidth)) = length es) as Horder.
  { destruct (atEnd_positions _ _ Hat) as [_ ->].
    rewrite (holds_fileSize_index _ _ _ Hh), Z.mul_comm, Z.div_mul by done.
    rewrite u32_small by lia. apply Nat2Z.id. }
  intros t i. rewrite (stored_bitmapOf _ _ _ _ Hst), Horder, add_bit.
  rewrite orb_true_iff, andb_true_iff, !bool_decide_eq_true, (Hix t i).
  split.
  - intros [[Ht ->] | (e' & Hl & Ht')].
    + exists e. split; [|done]. by rewrite lookup_app_r, Nat.sub_diag.
    + exists e'. split; [|done]. by apply lookup_app_l_Some.
  - intros (e' & Hl & Ht'). apply lookup_app_Some in Hl as [Hl | [Hge Hl]].
    + right. eauto.
    + left. destruct (i - length es)%nat as [|n] eqn:Hn; [|done].
      simpl in Hl. injection Hl as ->. split; [done | lia].
Qed.

(** X15: in a tile whose streams stand at the end of the logs, [store]
    passes to the bitmap index the insertion order at which a scan finds
    the element.  So after any number of saves bit [i] of term [t] is set
    exactly when the [i]-th element of the tile carries [t], given that
    it was so before (as in a tile without entries and without blob). *)
Theorem saved_terms_are_indexed_by_insertion_order quadKey es elements s :
  (0 < LruCache.maxSize_ (cache_ s))%nat ->
  holds quadKey es s -> atEnd quadKey s -> indexed quadKey es s ->
  withinLimits (es ++ elements) ->
  wp (saveAll elements quadKey) s (fun _ s' =>
    holds quadKey (es ++ elements) s' /\ indexed quadKey (es ++ elements) s').
Proof.
  revert es s. induction elements as [|e elements IH]; intros es s Hcap Hh Hat Hix Hlim.
  - apply wp_ret. by rewrite app_nil_r.
  - cbn [saveAll]. apply wp_bind.
    assert (withinLimits es) as Hlim0.
    { destruct Hlim as [Hl1 Hl2]. pose proof (length_dataLog_prefix es (e :: elements)).
      rewrite length_app in Hl2. split; lia. }
    eapply wp_mono; [by apply (save_indexed quadKey es e s)|].
    intros [] s1 (Hh1 & Hat1 & Hix1 & Hmax1).
    replace (es ++ e :: elements) with ((es ++ [e]) ++ elements) in * by (by rewrite <- app_assoc).
    apply IH; [by rewrite Hmax1 | done..].
Qed.

(** X16: the bitmap blob is written through.  In every store that the
    operations produce, [getBitmap] returns for every tile what the blob
    on disk decodes to, whether the bitmap comes from a cached handle or
    is read from the blob, and it changes the contents of no file. *)
Theorem getBitmap_returns_what_blob_holds quadKey s :
  reachable s ->
  wp (getBitmap quadKey) s (fun b s' =>
    b = BitmapStream_read (contents (fs s) (getFilePath quadKey bitmapFileExtension))
    /\ b = bitmapOf quadKey s
    /\ sameContents s s').
Proof.
  intros Hreach. destruct (reachable_invariant s Hreach) as [Hmax Hco].
  eapply wp_mono; [apply getBitmap_settles; [lia | exact Hco]|].
  intros b s' [-> Hs]. split; [done|]. split; [|exact (settled_contents _ _ Hs)].
  unfold bitmapOf, accessed.
  destruct (LruCache.peek quadKey (cache_ s)) as [h|] eqn:Hpk.
  - destruct (decide (bitmapData_ h = ∅)) as [He|Hne]; [done|].
    symmetry. by apply Hco.
  - by rewrite decide_True.
Qed.

End TermBits.

(** ** The further properties on concrete inputs *)

Module MoreRuns.

Import Toy ToyFacts Example Runs.

Lemma validId_three : Forall validId [A; B; E].
Proof. repeat constructor; unfold validId; simpl; lia. Qed.

Lemma withinLimits_three : withinLimits [A; B; E].
Proof. split; vm_compute; reflexivity. Qed.

Lemma afterCancelledScan_maxSize : (0 < LruCache.maxSize_ (cache_ afterCancelledScan))%nat.
Proof. vm_compute. lia. Qed.

Lemma afterCancelledScan_holds : holds T [A; B] afterCancelledScan.
Proof. split; vm_compute; reflexivity. Qed.

Lemma twoSaved_unpinned p : p ∉ pinned (fs twoSaved).
Proof.
  replace (pinned (fs twoSaved)) with (∅ : gset Path) by (vm_compute; reflexivity).
  apply not_elem_of_empty.
Qed.

Lemma store_appends_to_both_logs_witness :
  wp (store E T) twoSaved (fun _ s' =>
    fileSize (fs s') (getFilePath T IndexFileExtension)
    = fileSize (fs twoSaved) (getFilePath T IndexFileExtension) + 12).
Proof.
  eapply wp_mono; [apply (store_appends_to_both_logs E T twoSaved twoSaved_maxSize)|].
  by intros [] s' (_ & _ & Hsize & _).
Defined.

Lemma scan_after_cancelled_scan_stops_early_witness :
  wp (do! search_quadKey T callerVisitor cancelledAtSecondPoll in
      search_quadKey T callerVisitor neverCancelled) twoSaved
     (fun out _ => out = [A]).
Proof.
  eapply wp_mono.
  - apply (scan_after_cancelled_scan_stops_early T [A; B] callerVisitor callerVisitor
             cancelledAtSecondPoll twoSaved twoSaved_maxSize twoSaved_holds twoSaved_atEnd
             validId_examples withinLimits_examples).
  - by intros out s' ->.
Defined.

Lemma complete_scan_then_save_keeps_order_witness :
  wp (search_quadKey T callerVisitor neverCancelled) twoSaved (fun out s' =>
    out = [A; B]
    /\ wp (do! saveAll [E] T in search_quadKey T callerVisitor neverCancelled) s'
          (fun out' _ => out' = [A; B; E])).
Proof.
  eapply wp_mono.
  - apply (complete_scan_then_save_keeps_order T [A; B] [E] callerVisitor twoSaved
             twoSaved_maxSize twoSaved_holds twoSaved_atEnd validId_three withinLimits_three).
  - intros out s' (-> & _ & _ & Hnext). split; [done | exact Hnext].
Defined.

Lemma saves_under_other_tiles_leave_tile_alone_witness :
  wp (do! saveEach [(E, mkQuadKey 1 1 0); (A, mkQuadKey 2 0 0)] in
      search_quadKey T callerVisitor neverCancelled) twoSaved
     (fun out _ => out = [A; B]).
Proof.
  eapply wp_mono.
  - apply (saves_under_other_tiles_leave_tile_alone T [A; B]
             [(E, mkQuadKey 1 1 0); (A, mkQuadKey 2 0 0)] callerVisitor twoSaved
             twoSaved_maxSize);
      [repeat constructor; discriminate | exact twoSaved_holds | exact twoSaved_atEnd
      | exact validId_examples | exact withinLimits_examples].
  - by intros out s' [-> _].
Defined.

Lemma flush_then_save_records_true_positions_witness :
  wp (do! flush in
      do! saveAll [E] T in
      search_quadKey T callerVisitor neverCancelled) afterCancelledScan
     (fun out _ => out = [A; B; E]).
Proof.
  apply (flush_then_save_records_true_positions T [A; B] [E] afterCancelledScan
           afterCancelledScan_maxSize afterCancelledScan_holds validId_three
           withinLimits_three).
Defined.

Lemma erase_of_unsaved_tile_reports_missing_bitmap_witness :
  wp (erase_quadKey T) create (fun _ s' =>
    io s' = [CannotErase (getFilePath T bitmapFileExtension)]).
Proof.
  eapply wp_mono.
  - apply (erase_of_unsaved_tile_reports_missing_bitmap T create);
      [simpl; lia | reflexivity | reflexivity | apply not_elem_of_empty
      | apply not_elem_of_empty].
  - by intros [] s' (-> & _).
Defined.

Lemma erase_then_save_starts_anew_witness :
  wp (do! erase_quadKey T in
      do! saveAll [E; A] T in
      search_quadKey T callerVisitor neverCancelled) twoSaved
     (fun out _ => out = [E; A]).
Proof.
  apply (erase_then_save_starts_anew T [E; A] twoSaved twoSaved_maxSize
           (twoSaved_unpinned _) (twoSaved_unpinned _)).
  - repeat constructor; unfold validId; simpl; lia.
  - split; vm_compute; reflexivity.
Defined.

Lemma erase_closes_every_handle_witness :
  wp (do! erase_quadKey (mkQuadKey 1 1 0) in
      search_quadKey T callerVisitor neverCancelled) afterCancelledScan
     (fun out _ => out = [A; B]).
Proof.
  eapply wp_mono.
  - apply (erase_closes_every_handle T (mkQuadKey 1 1 0) [A; B] callerVisitor
             afterCancelledScan afterCancelledScan_maxSize);
      [discriminate | exact afterCancelledScan_holds | exact validId_examples
      | exact withinLimits_examples].
  - by intros out s' [-> _].
Defined.

Lemma notify_delivers_entry_wherever_streams_stand_witness :
  wp (notify T 1 callerVisitor) afterCancelledScan (fun out _ => out = [B]).
Proof.
  eapply wp_mono.
  - apply (notify_delivers_entry_wherever_streams_stand T [A; B] 1 B callerVisitor
             afterCancelledScan afterCancelledScan_maxSize afterCancelledScan_holds
             validId_examples withinLimits_examples eq_refl).
  - by intros out s' (-> & _).
Defined.

Lemma scan_after_notify_stops_behind_entry_witness :
  wp (do! notify T 0 callerVisitor in
      search_quadKey T callerVisitor neverCancelled) twoSaved
     (fun out _ => out = [A]).
Proof.
  eapply wp_mono.
  - apply (scan_after_notify_stops_behind_entry T [A; B] 0 A callerVisitor callerVisitor
             twoSaved twoSaved_maxSize twoSaved_holds validId_examples
             withinLimits_examples eq_refl).
  - by intros out s' ->.
Defined.

Lemma searches_change_no_file_contents_witness :
  wlp (search_query queryA callerVisitor neverCancelled) twoSaved
      (fun _ s' => sameContents twoSaved s')
  /\ wlp (search_quadKey T callerVisitor cancelledAtSecondPoll) twoSaved
       (fun _ s' => sameContents twoSaved s').
Proof.
  pose proof (searches_change_no_file_contents twoSaved twoSaved_maxSize) as [Hq Hs].
  split; [apply Hq | apply Hs].
Defined.

Lemma term_query_unaffected_by_searches_witness :
  wlp (search_quadKey T callerVisitor cancelledAtSecondPoll) afterQuery (fun _ s' =>
    fst <$> search_query queryA callerVisitor neverCancelled s'
    = fst <$> search_query queryA callerVisitor neverCancelled afterQuery).
Proof.
  pose proof (term_query_unaffected_by_searches afterQuery afterQuery_reachable) as [Hs _].
  eapply wlp_mono; [apply Hs|]. intros out s' Hsame. apply Hsame.
Defined.

Lemma hasData_true_after_save_and_after_scan_witness :
  wp (do! save A T in hasData T) create (fun b _ => b = true)
  /\ wp (do! search_quadKey T callerVisitor neverCancelled in hasData T) create
        (fun b _ => b = true).
Proof.
  assert (0 < LruCache.maxSize_ (cache_ create))%nat as Hcap by (simpl; lia).
  pose proof (hasData_true_after_save_and_after_scan T create Hcap) as [Hsave Hscan].
  split; [apply Hsave | by apply Hscan].
Defined.

Lemma create_wholeEntries : wholeEntries create.
Proof. intros quadKey. unfold fileSize, contents. simpl. by rewrite lookup_empty. Qed.

Lemma index_logs_keep_whole_entries_witness :
  wp (save A T) create (fun _ s' =>
    wholeEntries s' /\ entryCount T s' = entryCount T create + 1).
Proof.
  assert (0 < LruCache.maxSize_ (cache_ create))%nat as Hcap by (simpl; lia).
  pose proof (index_logs_keep_whole_entries create Hcap create_wholeEntries) as [Hsave _].
  eapply wp_mono; [apply Hsave|]. intros [] s' (Hw & Hc & _). by split.
Defined.

Lemma create_indexed : indexed T [] create.
Proof.
  intros t i. split.
  - replace (bitmapOf T create) with (∅ : Bitmap) by (vm_compute; reflexivity).
    unfold BitmapIndex.bit. by rewrite lookup_empty.
  - by intros (e & He & _).
Qed.

Lemma saved_terms_are_indexed_by_insertion_order_witness :
  wp (saveAll [A; B] T) create (fun _ s' => indexed T [A; B] s').
Proof.
  eapply wp_mono.
  - apply (saved_terms_are_indexed_by_insertion_order T [] [A; B] create);
      [simpl; lia | split; reflexivity | intros h Hh; discriminate Hh
      | exact create_indexed | exact withinLimits_examples].
  - by intros [] s' [_ Hix].
Defined.

Lemma getBitmap_returns_what_blob_holds_witness :
  wp (getBitmap T) afterQuery (fun b _ =>
    b = BitmapStream_read (contents (fs afterQuery) (getFilePath T bitmapFileExtension))).
Proof.
  eapply wp_mono.
  - apply (getBitmap_returns_what_blob_holds T afterQuery afterQuery_reachable).
  - by intros b s' (-> & _).
Defined.

End MoreRuns.
